(** * story-script-tools: the structured-text parsers and the resize geometry

    A shallow embedding of these pieces of the repository:

    - [python_scripts/story_parser.py]      : [parse_story_script]
    - [python_scripts/subtitle_translator.py]: [SubtitleTranslator.parse_srt],
                                               [save_srt], [translate_text],
                                               [translate_subtitles],
                                               [generate_voiceover] and
                                               [process_subtitles]
    - [python_scripts/media_resizer.py]     : [MediaResizer._calculate_dimensions]
                                               and the geometry of
                                               [resize_image] and [resize_video]
    - [python_scripts/story_enhancer.py]    : the class [StoryEnhancer]
    - [python_scripts/text_to_speech.py]    : [TTSGenerator.generate_speech]

    Python values are modelled as follows.

    - [str] is a list of characters.  Characters are the code points below
      256 (the type [ascii]); [is_space] and [is_digit] are [str.isspace] and
      the regular-expression class [\d] on that range.
    - [int] is [Z].
    - [float] is IEEE-754 binary64, through the standard library's executable
      specification [spec_float] with [prec = 53] and [emax = 1024].
    - a raised exception is the [Raise] case of [result]; [ValueError]
      carries its message.  Where [IndexError] or [RuntimeError] can arise
      the type is [outcome], with [Throw].
    - the random generator is the sequence of raw numbers it will produce,
      and the translation service the sequence of its replies, each an
      exception or the value of [response.json()].
    - the dictionaries [add_plot_twist] changes in place live in a store:
      there a list of scenes is a list of addresses.

    [int] is unbounded, but its conversions to and from decimal text are
    not: as in the interpreter with its default settings, they raise
    [ValueError] beyond 4300 digits.  [Srt.save_srt] is the text
    [save_srt] writes; [Translator.save_srt] writes it, a file being a path
    with a content and the file system the list of the files written so
    far.  Paths, the clock and the exchange with the speech service are
    taken from an [Environment].  Images, videos and their files are
    outside the model: [resize_image] and [resize_video] are modelled by
    the sizes, the position and the name they hand on. *)

From Stdlib Require Import ZArith Bool Ascii String List Lia.
From Stdlib Require Import SpecFloat.
From Stdlib Require Import Reals Lra.
Import ListNotations.
Open Scope Z_scope.

(* ================================================================== *)
(** * Python primitives *)
(* ================================================================== *)

Module Py.

Definition str := list ascii.

(** A string literal. *)
Definition lit (x : string) : str := list_ascii_of_string x.

Inductive exn :=
| ValueError (msg : str)
| ZeroDivisionError
| OverflowError.

Inductive result (A : Type) :=
| Ok (a : A)
| Raise (e : exn).
Arguments Ok {A} a.
Arguments Raise {A} e.

Definition bind {A B} (r : result A) (k : A -> result B) : result B :=
  match r with
  | Ok a => k a
  | Raise e => Raise e
  end.


(** ** Characters *)

Definition code (c : ascii) : N := N_of_ascii c.

(** [str.isspace] on one character; also the class [\s]. *)
Definition is_space (c : ascii) : bool :=
  let n := code c in
  ((9 <=? n) && (n <=? 13) || (28 <=? n) && (n <=? 32)
   || (n =? 133) || (n =? 160))%N.

(** The class [\d]. *)
Definition is_digit (c : ascii) : bool :=
  let n := code c in ((48 <=? n) && (n <=? 57))%N.

Definition digit_val (c : ascii) : Z := Z.of_N (code c) - 48.

Definition newline : ascii := "010"%char.

Definition is_newline (c : ascii) : bool := Ascii.eqb c newline.

(** ** Strings *)

Fixpoint drop_while (p : ascii -> bool) (s : str) : str :=
  match s with
  | [] => []
  | c :: r => if p c then drop_while p r else s
  end.

Fixpoint take_while (p : ascii -> bool) (s : str) : str :=
  match s with
  | [] => []
  | c :: r => if p c then c :: take_while p r else []
  end.

Definition lstrip (s : str) : str := drop_while is_space s.
Definition rstrip (s : str) : str := rev (drop_while is_space (rev s)).

(** [s.strip()] *)
Definition strip (s : str) : str := rstrip (lstrip s).

(** The rest of [s] after the literal [p], when [s] starts with [p]. *)
Fixpoint strip_prefix (p s : str) : option str :=
  match p, s with
  | [], _ => Some s
  | a :: p', b :: s' => if Ascii.eqb a b then strip_prefix p' s' else None
  | _ :: _, [] => None
  end.

(** The first occurrence of [sep] in [s]: what is before and after it. *)
Fixpoint find_sep (sep s : str) : option (str * str) :=
  match strip_prefix sep s with
  | Some r => Some ([], r)
  | None =>
      match s with
      | [] => None
      | c :: t =>
          match find_sep sep t with
          | Some (a, b) => Some (c :: a, b)
          | None => None
          end
      end
  end.

Fixpoint split_fuel (fuel : nat) (sep s : str) : list str :=
  match fuel with
  | O => [s]
  | S f =>
      match find_sep sep s with
      | None => [s]
      | Some (a, r) => a :: split_fuel f sep r
      end
  end.

(** [s.split(sep)] for a non-empty [sep]: every piece after a separator is
    shorter than [s], so [length s] steps are enough. *)
Definition split (sep s : str) : list str := split_fuel (List.length s) sep s.

(** [s.split('\n')] *)
Fixpoint split_lines (s : str) : list str :=
  match s with
  | [] => [[]]
  | c :: r =>
      if is_newline c then [] :: split_lines r
      else match split_lines r with
           | l :: ls => (c :: l) :: ls
           | [] => [[c]]
           end
  end.

(** [sep.join(parts)] *)
Fixpoint join (sep : str) (parts : list str) : str :=
  match parts with
  | [] => []
  | [p] => p
  | p :: ps => p ++ sep ++ join sep ps
  end.

(** The anchor [$] without [re.MULTILINE]: the end of the string, or just
    before a newline that ends the string. *)
Definition at_dollar (s : str) : bool :=
  match s with
  | [] => true
  | [c] => is_newline c
  | _ => false
  end.

(** ** Integers and text *)

(** The decimal digits of a positive number, most significant first. *)
Fixpoint digits_fuel (fuel : nat) (n : Z) (acc : str) : str :=
  match fuel with
  | O => acc
  | S f =>
      let d := ascii_of_N (Z.to_N (48 + n mod 10)) in
      if n <? 10 then d :: acc else digits_fuel f (n / 10) (d :: acc)
  end.

(** The decimal text of an [int], with its sign when it is negative: a
    number below [2^k] has at most [k] digits. *)
Definition decimal_text (n : Z) : str :=
  match n with
  | Z0 => lit "0"
  | Zpos p => digits_fuel (Pos.to_nat (Pos.size p)) n []
  | Zneg p => "-"%char :: digits_fuel (Pos.to_nat (Pos.size p)) (Zpos p) []
  end.

(** [sys.int_info.default_max_str_digits]: the interpreter converts no
    [int] to a decimal text, and no decimal text to an [int], beyond this
    number of digits. *)
Definition max_str_digits : Z := 4300.

(** The number of decimal digits of [n]. *)
Definition digit_count (n : Z) : Z :=
  Z.of_nat (List.length (decimal_text (Z.abs n))).

(** An [int] that can be converted to text. *)
Definition printable (n : Z) : bool := digit_count n <=? max_str_digits.

(** [str(n)] for an [int]; also what [f"{n}"] and ["%d" % n] put for [n]. *)
Definition str_of_int (n : Z) : result str :=
  if printable n then Ok (decimal_text n)
  else Raise (ValueError (lit
    "Exceeds the limit (4300 digits) for integer string conversion; use sys.set_int_max_str_digits() to increase the limit")).

(** The digits of an [int] literal: a digit, then digits each optionally
    preceded by one underscore. *)
Fixpoint int_digits (acc : Z) (after_digit : bool) (s : str) : option Z :=
  match s with
  | [] => if after_digit then Some acc else None
  | c :: r =>
      if is_digit c then int_digits (10 * acc + digit_val c) true r
      else if Ascii.eqb c "_"%char && after_digit then int_digits acc false r
      else None
  end.

(** The failure of [int(s)] for a text of [digits] digits, more than
    [max_str_digits]. *)
Definition too_many_digits (digits : Z) : exn :=
  ValueError
    (lit "Exceeds the limit (4300 digits) for integer string conversion: value has "
     ++ decimal_text digits
     ++ lit " digits; use sys.set_int_max_str_digits() to increase the limit").

(** [int(s)] for a [str], base 10: surrounding whitespace, a sign, digits.
    The digits are counted without the underscores and with the leading
    zeros. *)
Definition int_of_str (s : str) : result Z :=
  let t := strip s in
  let '(neg, body) :=
    match t with
    | c :: r =>
        if Ascii.eqb c "-"%char then (true, r)
        else if Ascii.eqb c "+"%char then (false, r)
        else (false, t)
    | [] => (false, t)
    end in
  match int_digits 0 false body with
  | Some n =>
      let digits := Z.of_nat (List.length (filter is_digit body)) in
      if max_str_digits <? digits then Raise (too_many_digits digits)
      else Ok (if neg then - n else n)
  | None => Raise (ValueError (lit "invalid literal for int() with base 10"))
  end.

(** ** Floats *)

Definition prec : Z := 53.
Definition emax : Z := 1024.
Definition float := spec_float.

(** An [int] as an exact, not normalised, binary number. *)
Definition exact_int (n : Z) : float :=
  match n with
  | Z0 => S754_zero false
  | Zpos p => S754_finite false p 0
  | Zneg p => S754_finite true p 0
  end.

Definition finite_or_overflow (f : float) : result float :=
  match f with
  | S754_infinity _ => Raise OverflowError
  | _ => Ok f
  end.

(** [float(n)]: the nearest double, [OverflowError] beyond the range. *)
Definition float_of_int (n : Z) : result float :=
  finite_or_overflow (binary_normalize prec emax n 0 false).

(** [a / b] on two [int]: the correctly rounded quotient. *)
Definition int_truediv (a b : Z) : result float :=
  if b =? 0 then Raise ZeroDivisionError
  else finite_or_overflow (SFdiv prec emax (exact_int a) (exact_int b)).

Definition is_zero (f : float) : bool :=
  match f with
  | S754_zero _ => true
  | _ => false
  end.

(** [x / y] on two [float] *)
Definition float_truediv (x y : float) : result float :=
  if is_zero y then Raise ZeroDivisionError else Ok (SFdiv prec emax x y).

(** [x * y] on two [float] *)
Definition float_mul (x y : float) : float := SFmul prec emax x y.

(** [x > y] on two [float] *)
Definition float_gt (x y : float) : bool := SFltb y x.

(** [n * y] and [n / y] with an [int] on the left: the [int] is converted
    first. *)
Definition int_mul_float (n : Z) (y : float) : result float :=
  bind (float_of_int n) (fun x => Ok (float_mul x y)).

Definition int_div_float (n : Z) (y : float) : result float :=
  bind (float_of_int n) (fun x => float_truediv x y).

(** [int(f)]: truncation toward zero. *)
Definition int_of_float (f : float) : result Z :=
  match f with
  | S754_zero _ => Ok 0
  | S754_infinity _ => Raise OverflowError
  | S754_nan => Raise (ValueError (lit "cannot convert float NaN to integer"))
  | S754_finite sg m e => Ok (cond_Zopp sg (Z.shiftl (Zpos m) e))
  end.

End Py.

Import Py.

Notation "x <- c ;; k" := (bind c (fun x => k))
  (at level 61, c at next level, right associativity).
Notation "' p <- c ;; k" := (bind c (fun x => let 'p := x in k))
  (at level 61, p pattern, c at next level, right associativity).

Fixpoint map_result {A B} (f : A -> result B) (l : list A) : result (list B) :=
  match l with
  | [] => Ok []
  | a :: r =>
      b <- f a ;;
      bs <- map_result f r ;;
      Ok (b :: bs)
  end.

(** [a, b = parts]: unpacking a list into exactly two names. *)
Definition unpack2 (parts : list str) : result (str * str) :=
  match parts with
  | [a; b] => Ok (a, b)
  | [] | [_] => Raise (ValueError (lit "not enough values to unpack"))
  | _ => Raise (ValueError (lit "too many values to unpack"))
  end.

(** [try: body  except (ValueError, IndexError): handler].  No [IndexError]
    arises in the bodies below; the other exceptions are not caught. *)
Definition try_except_ValueError {A} (body : result A) (handler : result A)
  : result A :=
  match body with
  | Ok a => Ok a
  | Raise (ValueError _) => handler
  | Raise e => Raise e
  end.

(* ================================================================== *)
(** * story_parser.py *)
(* ================================================================== *)

Module StoryParser.

(** One element of the returned list: the dictionary with the keys
    [scene_number] and [description]. *)
Record Scene := { scene_number : Z; description : str }.

(** The marker [Scene\s+(\d+):] at the head of [s]: the digits captured and
    what follows the colon.  Both repetitions are greedy, and neither can
    give a character back: what follows [\s+] must be a digit and what
    follows [\d+] must be the colon. *)
Definition match_marker (s : str) : option (str * str) :=
  match strip_prefix (lit "Scene") s with
  | None => None
  | Some r =>
      match take_while is_space r with
      | [] => None
      | _ :: _ =>
          let r1 := drop_while is_space r in
          match take_while is_digit r1 with
          | [] => None
          | ds =>
              match drop_while is_digit r1 with
              | c :: r2 => if Ascii.eqb c ":"%char then Some (ds, r2) else None
              | [] => None
              end
          end
      end
  end.

(** The lookahead [(?=Scene\s+\d+:|$)]. *)
Definition lookahead (s : str) : bool :=
  match match_marker s with
  | Some _ => true
  | None => at_dollar s
  end.

(** The lazy tail of [(.+?)] under [re.DOTALL], after its first character:
    the shortest run of characters up to a place where the lookahead
    holds.  Returns the run and the rest of the text. *)
Fixpoint lazy_body (s : str) : str * str :=
  match s with
  | [] => ([], [])
  | c :: r =>
      if lookahead s then ([], s)
      else let '(b, rest) := lazy_body r in (c :: b, rest)
  end.

(** The whole pattern [Scene\s+(\d+):(.+?)(?=Scene\s+\d+:|$)] at the head
    of [s]: group 1, group 2 and the text after the match. *)
Definition match_scene (s : str) : option (str * str * str) :=
  match match_marker s with
  | Some (ds, c :: r) =>
      let '(b, rest) := lazy_body r in Some (ds, c :: b, rest)
  | _ => None
  end.

(** [re.finditer]: the matches from left to right; after a match the
    search goes on where the match ended. *)
Fixpoint finditer (fuel : nat) (s : str) : list (str * str) :=
  match fuel with
  | O => []
  | S f =>
      match s with
      | [] => []
      | _ :: r =>
          match match_scene s with
          | Some (g1, g2, rest) => (g1, g2) :: finditer f rest
          | None => finditer f r
          end
      end
  end.

Definition scene_of_match (m : str * str) : result Scene :=
  let '(g1, g2) := m in
  n <- int_of_str g1 ;;
  Ok {| scene_number := n; description := strip g2 |}.

(** [parse_story_script].  The argument is a [str], so the [isinstance]
    test of the source always passes. *)
Definition parse_story_script (story_script : str) : result (list Scene) :=
  match strip story_script with
  | [] => Raise (ValueError (lit "Input cannot be empty"))
  | _ :: _ =>
      scene_list <-
        map_result scene_of_match
          (finditer (List.length story_script) story_script) ;;
      match scene_list with
      | [] =>
          Raise (ValueError (lit
            "No valid scenes found in the script. Scenes should be marked with 'Scene X:'"))
      | _ :: _ => Ok scene_list
      end
  end.

End StoryParser.

(* ================================================================== *)
(** * subtitle_translator.py *)
(* ================================================================== *)

Module Srt.

Record SubtitleEntry :=
  { index : Z; start_time : str; end_time : str; text : str }.

Definition starts_newline (s : str) : bool :=
  match s with
  | c :: _ => is_newline c
  | [] => false
  end.

(** [re.split(r'\n\n+', s)]: the pieces between maximal runs of two or
    more newlines.  [in_sep] says that the previous character belonged to
    such a run. *)
Fixpoint re_split_blank (in_sep : bool) (s : str) : list str :=
  match s with
  | [] => [[]]
  | c :: r =>
      if in_sep && is_newline c then re_split_blank true r
      else if is_newline c && starts_newline r then [] :: re_split_blank true r
      else match re_split_blank false r with
           | b :: bs => (c :: b) :: bs
           | [] => [[c]]
           end
  end.

(** [re.match(r'^\d+\s*$', s)] *)
Definition match_number_line (s : str) : bool :=
  match take_while is_digit s with
  | [] => false
  | _ :: _ => at_dollar (drop_while is_space (drop_while is_digit s))
  end.

(** [\d{2}:\d{2}:\d{2},\d{3}] at the head of [s]: what follows it. *)
Definition match_timestamp (s : str) : option str :=
  match s with
  | h1 :: h2 :: c1 :: m1 :: m2 :: c2 :: s1 :: s2 :: c3 :: f1 :: f2 :: f3 :: r =>
      if is_digit h1 && is_digit h2 && Ascii.eqb c1 ":"%char
         && is_digit m1 && is_digit m2 && Ascii.eqb c2 ":"%char
         && is_digit s1 && is_digit s2 && Ascii.eqb c3 ","%char
         && is_digit f1 && is_digit f2 && is_digit f3
      then Some r else None
  | _ => None
  end.

(** [re.match(r'^\d{2}:\d{2}:\d{2},\d{3}\s*-->\s*\d{2}:\d{2}:\d{2},\d{3}$', s)] *)
Definition match_timing (s : str) : bool :=
  match match_timestamp s with
  | None => false
  | Some r =>
      match strip_prefix (lit "-->") (drop_while is_space r) with
      | None => false
      | Some r2 =>
          match match_timestamp (drop_while is_space r2) with
          | None => false
          | Some r3 => at_dollar r3
          end
      end
  end.

(** The body of the [try] for one block, [lines] being its lines. *)
Definition parse_block (lines : list str) : result SubtitleEntry :=
  index <- int_of_str (nth 0 lines []) ;;
  let timing := nth 1 lines [] in
  if negb (match_timing timing) then
    shown <- str_of_int index ;;
    Raise (ValueError (lit "Invalid timing format in block " ++ shown))
  else
    '(start_time, end_time) <- unpack2 (split (lit " --> ") timing) ;;
    let text := join (lit " ") (skipn 2 lines) in
    Ok {| index := index;
          start_time := strip start_time;
          end_time := strip end_time;
          text := strip text |}.

(** The [for] loop over the blocks. *)
Fixpoint parse_blocks (blocks : list str) : result (list SubtitleEntry) :=
  match blocks with
  | [] => Ok []
  | block :: rest =>
      let lines := split_lines (strip block) in
      if (List.length lines <? 3)%nat then parse_blocks rest
      else
        entry <-
          try_except_ValueError (parse_block lines)
            (Raise (ValueError (lit "Invalid SRT format in block: " ++ block))) ;;
        entries <- parse_blocks rest ;;
        Ok (entry :: entries)
  end.

(** [SubtitleTranslator.parse_srt] *)
Definition parse_srt (srt_content : str) : result (list SubtitleEntry) :=
  match strip srt_content with
  | [] => Raise (ValueError (lit "Invalid SRT content: must be a non-empty string"))
  | _ :: _ =>
      let blocks := re_split_blank false (strip srt_content) in
      if negb (existsb
                 (fun block => match_number_line (strip (hd [] (split_lines block))))
                 blocks)
      then Raise (ValueError (lit "Invalid SRT format: missing subtitle numbers"))
      else parse_blocks blocks
  end.

(** What one iteration of the loop of [save_srt] writes, [shown] being the
    text of the index. *)
Definition srt_entry_lines (shown : str) (entry : SubtitleEntry) : str :=
  (shown ++ [newline])
  ++ (start_time entry ++ lit " --> " ++ end_time entry ++ [newline])
  ++ (text entry ++ [newline; newline]).

(** One iteration of the loop of [save_srt]: the first of its three
    [f.write] fails when the index cannot be converted. *)
Definition srt_entry_text (entry : SubtitleEntry) : result str :=
  shown <- str_of_int (index entry) ;;
  Ok (srt_entry_lines shown entry).

(** The loop of [save_srt]: what has been written when it ends, and how it
    ends.  An entry whose index cannot be converted stops it, what was
    written for the entries before staying written. *)
Fixpoint save_srt_loop (entries : list SubtitleEntry) : str * result unit :=
  match entries with
  | [] => ([], Ok tt)
  | entry :: rest =>
      match srt_entry_text entry with
      | Raise e => ([], Raise e)
      | Ok lines =>
          let '(written, r) := save_srt_loop rest in (lines ++ written, r)
      end
  end.

(** [SubtitleTranslator.save_srt]: the text written to the file, when the
    loop comes to its end. *)
Definition save_srt (entries : list SubtitleEntry) : result str :=
  let '(written, r) := save_srt_loop entries in
  _ <- r ;;
  Ok written.

End Srt.

(* ================================================================== *)
(** * media_resizer.py *)
(* ================================================================== *)

Module MediaResizer.

(** [MediaResizer._calculate_dimensions] *)
Definition _calculate_dimensions (current_width current_height : Z)
    (target_ratio : Z * Z) (max_dimension : Z)
  : result ((Z * Z) * (Z * Z)) :=
  let '(target_w, target_h) := target_ratio in
  target_aspect <- int_truediv target_w target_h ;;
  current_aspect <- int_truediv current_width current_height ;;
  '(new_width, new_height) <-
    (if float_gt current_aspect target_aspect then
       let new_height := current_height in
       p <- int_mul_float new_height target_aspect ;;
       new_width <- int_of_float p ;;
       Ok (new_width, new_height)
     else
       let new_width := current_width in
       q <- int_div_float new_width target_aspect ;;
       new_height <- int_of_float q ;;
       Ok (new_width, new_height)) ;;
  '(new_width, new_height) <-
    (if (new_width >? max_dimension) || (new_height >? max_dimension) then
       scale <- (if new_width >? new_height
                 then int_truediv max_dimension new_width
                 else int_truediv max_dimension new_height) ;;
       p <- int_mul_float new_width scale ;;
       new_width' <- int_of_float p ;;
       q <- int_mul_float new_height scale ;;
       new_height' <- int_of_float q ;;
       Ok (new_width', new_height')
     else Ok (new_width, new_height)) ;;
  r <- int_truediv new_width new_height ;;
  '(target_width, target_height) <-
    (if float_gt r target_aspect then
       let target_height := new_height in
       p <- int_mul_float target_height target_aspect ;;
       target_width <- int_of_float p ;;
       Ok (target_width, target_height)
     else
       let target_width := new_width in
       q <- int_div_float target_width target_aspect ;;
       target_height <- int_of_float q ;;
       Ok (target_width, target_height)) ;;
  Ok ((new_width, new_height), (target_width, target_height)).

End MediaResizer.

(* ================================================================== *)
(** * Notions used to state the properties *)
(* ================================================================== *)

(** [s.strip()] leaves alone a text that neither starts nor ends with
    white space. *)
Definition trimmed (s : str) : bool :=
  match s with
  | [] => true
  | c :: _ => negb (is_space c) && negb (is_space (last s c))
  end.

(** ** Narrative scripts *)

Module Script.
Import StoryParser.

(** A marker followed by its body: [Scene], the white space [gap], the
    digits [number], the colon, then [body] up to the next marker. *)
Record segment := { gap : str; number : str; body : str }.

Definition marker_text (g : segment) : str :=
  lit "Scene" ++ gap g ++ number g ++ [":"%char].

(** A text is a prefix followed by segments. *)
Fixpoint script (segs : list segment) : str :=
  match segs with
  | [] => []
  | g :: rest => marker_text g ++ body g ++ script rest
  end.

(** No marker starts anywhere in [s]. *)
Fixpoint marker_free (s : str) : bool :=
  match s with
  | [] => true
  | _ :: r =>
      match match_marker s with
      | Some _ => false
      | None => marker_free r
      end
  end.

(** The number of places of [s] where a marker starts. *)
Fixpoint count_markers (s : str) : nat :=
  match s with
  | [] => O
  | _ :: r =>
      match match_marker s with
      | Some _ => S (count_markers r)
      | None => count_markers r
      end
  end.

Definition nonempty (s : str) : bool :=
  match s with
  | [] => false
  | _ :: _ => true
  end.

(** The marker of a segment is a marker, and its body holds none. *)
Definition marker_ok (g : segment) : bool :=
  nonempty (gap g) && forallb is_space (gap g)
  && nonempty (number g) && forallb is_digit (number g)
  && marker_free (body g).

(** A segment whose marker is followed by at least one character. *)
Definition segment_ok (g : segment) : bool :=
  marker_ok g && nonempty (body g).

(** The number of a segment has at most [max_str_digits] digits. *)
Definition number_ok (g : segment) : bool :=
  Z.of_nat (List.length (number g)) <=? max_str_digits.

(** No marker of [s] has a number of more than [max_str_digits] digits. *)
Fixpoint short_numbers (s : str) : bool :=
  match s with
  | [] => true
  | _ :: r =>
      match match_marker s with
      | Some (ds, _) =>
          (Z.of_nat (List.length ds) <=? max_str_digits) && short_numbers r
      | None => short_numbers r
      end
  end.

(** Some marker of [s] is followed by at least one character. *)
Fixpoint has_scene (s : str) : bool :=
  match s with
  | [] => false
  | _ :: r =>
      match match_marker s with
      | Some (_, _ :: _) => true
      | _ => has_scene r
      end
  end.

(** The two failures of [parse_story_script], under the names of the
    error taxonomy. *)
Definition InvalidInput : exn := ValueError (lit "Input cannot be empty").
Definition NoScenesFound : exn :=
  ValueError (lit
    "No valid scenes found in the script. Scenes should be marked with 'Scene X:'").

(** The value of a run of decimal digits. *)
Definition decimal_value (ds : str) : Z :=
  fold_left (fun acc c => 10 * acc + digit_val c) ds 0.

(** The scene a segment stands for. *)
Definition scene_of_segment (g : segment) : Scene :=
  {| scene_number := decimal_value (number g);
     description := strip (body g) |}.


(** Apart from its first character, a marker holds no [S]. *)
Definition not_S (c : ascii) : bool := negb (Ascii.eqb c "S"%char).

(** The text after a marker-free stretch: empty, or starting with [S]. *)
Definition starts_S (x : str) : bool :=
  match x with
  | [] => true
  | c :: _ => Ascii.eqb c "S"%char
  end.

(** The example of the specification, as two segments. *)
Definition seg_1A : segment :=
  {| gap := lit " "; number := lit "1"; body := lit " A" ++ [newline] |}.
Definition seg_2B : segment :=
  {| gap := lit " "; number := lit "2"; body := lit " B" |}.

End Script.

(** ** Subtitle files *)

Module Subtitles.
Import Srt.

(** The blocks [parse_srt] works on. *)
Definition blocks_of (srt_content : str) : list str :=
  re_split_blank false (strip srt_content).

(** The lines of a block, as the loop of [parse_srt] sees them. *)
Definition lines_of (block : str) : list str := split_lines (strip block).

(** The failures of [parse_srt], under the names of the error taxonomy;
    [InvalidBlock] is the failure raised by the [except] clause. *)
Definition InvalidContent : exn :=
  ValueError (lit "Invalid SRT content: must be a non-empty string").
Definition MalformedFormat : exn :=
  ValueError (lit "Invalid SRT format: missing subtitle numbers").
Definition MalformedTiming (index : Z) : exn :=
  ValueError (lit "Invalid timing format in block " ++ decimal_text index).
Definition InvalidBlock (block : str) : exn :=
  ValueError (lit "Invalid SRT format in block: " ++ block).

(** A time stamp of the form [HH:MM:SS,mmm], and nothing else. *)
Definition timestamp_ok (t : str) : bool :=
  match match_timestamp t with
  | Some [] => true
  | _ => false
  end.

Definition no_newline (s : str) : bool :=
  forallb (fun c => negb (is_newline c)) s.

(** A text of one line, not empty, with no white space at either end. *)
Definition text_ok (x : str) : bool :=
  match x with
  | [] => false
  | _ :: _ => trimmed x && no_newline x
  end.

(** An entry that [save_srt] writes as a block [parse_srt] reads back:
    an index of at most [max_str_digits] digits, two time stamps and a
    text of one line. *)
Definition entry_ok (e : SubtitleEntry) : bool :=
  printable (index e)
  && (timestamp_ok (start_time e) && timestamp_ok (end_time e)
      && text_ok (text e)).

End Subtitles.

Module SubtitleText.
Import Srt Subtitles.

(** The block [save_srt] writes for an entry, without the blank line that
    ends it. *)
Definition block_text (e : SubtitleEntry) : str :=
  decimal_text (index e) ++ [newline]
  ++ (start_time e ++ lit " --> " ++ end_time e) ++ [newline]
  ++ text e.

Definition blank_line : str := [newline; newline].

(** The text [save_srt] writes for entries whose indices can all be
    converted. *)
Definition srt_text (entries : list SubtitleEntry) : str :=
  concat (map (fun e => srt_entry_lines (decimal_text (index e)) e) entries).

Definition no_space (s : str) : bool :=
  forallb (fun c => negb (is_space c)) s.

(** [x] put in front of the first piece of a split. *)
Definition prepend (x : str) (pieces : list str) : list str :=
  (x ++ hd [] pieces) :: tl pieces.

Definition decimal_step (acc : Z) (c : ascii) : Z := 10 * acc + digit_val c.


(** A block whose arrow has no space on either side. *)
Definition srt_no_spaces : str :=
  lit "1" ++ [newline] ++ lit "00:00:01,000-->00:00:02,000" ++ [newline] ++ lit "Text".

(** The entries of the repository's test suite. *)
Definition sample_entries : list SubtitleEntry :=
  [ {| index := 1; start_time := lit "00:00:01,000";
       end_time := lit "00:00:04,000";
       text := lit "Hello, welcome to our video." |};
    {| index := 2; start_time := lit "00:00:04,500";
       end_time := lit "00:00:08,000";
       text := lit "Today we'll learn something interesting." |} ].

End SubtitleText.

(** ** Floating-point values *)

Module FloatValue.

Definition bpow (e : Z) : R := powerRZ 2 e.

(** The real number [m * 2^e]. *)
Definition F2R (m e : Z) : R := (IZR m * bpow e)%R.

(** The real value of a finite float; [0] for the others. *)
Definition val (f : float) : R :=
  match f with
  | S754_finite s m e => F2R (cond_Zopp s (Zpos m)) e
  | _ => 0%R
  end.

(** A float that is zero or finite and positive. *)
Definition nonneg_finite (f : float) : bool :=
  match f with
  | S754_zero _ => true
  | S754_finite s _ _ => negb s
  | _ => false
  end.

(** [z] is the integer part of the non-negative real value of [f]. *)
Definition integer_part (f : float) (z : Z) : Prop :=
  (IZR z <= val f < IZR z + 1)%R.

(** The unit roundoff bound used below, [2^-52], and the smallest
    positive double, [2^-1074]. *)
Definition eps : R := bpow (-52).
Definition eta : R := bpow (-1074).

End FloatValue.

(** ** Rounding to the nearest integer *)

Module Rounding.

(** [round(f)] of Python on a finite double: the nearest integer, the even
    one when two are equally near.  The code never calls it; it is the
    rounding the specification speaks of. *)
Definition round_nearest (f : float) : result Z :=
  match f with
  | S754_zero _ => Ok 0
  | S754_infinity _ => Raise OverflowError
  | S754_nan => Raise (ValueError (lit "cannot convert float NaN to integer"))
  | S754_finite sg m e =>
      if 0 <=? e then Ok (cond_Zopp sg (Z.shiftl (Zpos m) e))
      else
        let q := Z.shiftl (Zpos m) e in
        let r := Zpos m - q * 2 ^ (- e) in
        let up :=
          match Z.compare (2 * r) (2 ^ (- e)) with
          | Lt => false
          | Gt => true
          | Eq => Z.odd q
          end in
        Ok (cond_Zopp sg (if up then q + 1 else q))
  end.

End Rounding.

(* ================================================================== *)
(** * More Python primitives *)
(* ================================================================== *)

Module PyMore.

(** The exceptions of the code below: those of [exn] and more.
    [RequestException] stands for [requests.exceptions.RequestException]
    and its subclasses, [msg] being what [str] makes of the exception. *)
Inductive exception :=
| Builtin (e : exn)
| IndexError (msg : str)
| KeyError (msg : str)
| RuntimeError (msg : str)
| TypeError (msg : str)
| AttributeError (msg : str)
| RequestException (msg : str).

Inductive outcome (A : Type) :=
| Return (a : A)
| Throw (e : exception).
Arguments Return {A} a.
Arguments Throw {A} e.

Definition of_result {A} (r : result A) : outcome A :=
  match r with
  | Ok a => Return a
  | Raise e => Throw (Builtin e)
  end.

Definition and_then {A B} (r : outcome A) (k : A -> outcome B) : outcome B :=
  match r with
  | Return a => k a
  | Throw e => Throw e
  end.

(** ** Text *)

(** [c.lower()] for a code point below 256: the capital letters [A-Z] and
    [U+00C0 - U+00DE] without the multiplication sign [U+00D7]. *)
Definition lower_char (c : ascii) : ascii :=
  let n := code c in
  if ((65 <=? n) && (n <=? 90)
      || (192 <=? n) && (n <=? 222) && negb (n =? 215))%N
  then ascii_of_N (n + 32) else c.

(** [s.lower()] *)
Definition lower (s : str) : str := map lower_char s.

(** [sub in s] on two [str] *)
Fixpoint contains (sub s : str) : bool :=
  match strip_prefix sub s with
  | Some _ => true
  | None =>
      match s with
      | [] => false
      | _ :: r => contains sub r
      end
  end.

(** ** Lists *)

(** [l[i]] for an [int] index: a negative index counts from the end. *)
Definition getitem {A} (l : list A) (i : Z) : outcome A :=
  let n := Z.of_nat (List.length l) in
  let j := if i <? 0 then i + n else i in
  if (0 <=? j) && (j <? n) then
    match nth_error l (Z.to_nat j) with
    | Some a => Return a
    | None => Throw (IndexError (lit "list index out of range"))
    end
  else Throw (IndexError (lit "list index out of range")).

(** The list after [l[i] = a], for [0 <= i < len(l)]. *)
Fixpoint replace_nth {A} (l : list A) (i : nat) (a : A) : list A :=
  match l, i with
  | [], _ => []
  | _ :: r, O => a :: r
  | x :: r, S i' => x :: replace_nth r i' a
  end.

(** ** The module [random] *)

(** The generator is the sequence of raw numbers it is going to produce;
    quantifying over all sequences covers every run. *)
Definition Random := list Z.

(** [Random._randbelow(n)] for [n > 0]: a number [k] with [0 <= k < n]. *)
Definition _randbelow (n : Z) (g : Random) : Z * Random :=
  match g with
  | [] => (0, [])
  | r :: g' => (r mod n, g')
  end.

(** [random.choice(seq)] *)
Definition choice {A} (seq : list A) (g : Random) : outcome (A * Random) :=
  match seq with
  | [] => Throw (IndexError (lit "Cannot choose from an empty sequence"))
  | d :: _ =>
      let '(k, g') := _randbelow (Z.of_nat (List.length seq)) g in
      Return (nth (Z.to_nat k) seq d, g')
  end.

(** [random.randint(a, b)], that is [randrange(a, b + 1)].  The message
    of the failure is the one of version 3.11 of the library,
    ["empty range for randrange() (%d, %d, %d)" % (start, stop, width)]. *)
Definition randint (a b : Z) (g : Random) : outcome (Z * Random) :=
  let start := a in
  let stop := b + 1 in
  let width := stop - start in
  if 0 <? width then
    let '(k, g') := _randbelow width g in
    Return (start + k, g')
  else
    of_result
      (shown_start <- str_of_int start ;;
       shown_stop <- str_of_int stop ;;
       shown_width <- str_of_int width ;;
       Raise (ValueError
         (lit "empty range for randrange() (" ++ shown_start ++ lit ", "
          ++ shown_stop ++ lit ", " ++ shown_width ++ lit ")"))).

End PyMore.

Import PyMore.

Notation "x <~ c ;; k" := (and_then c (fun x => k))
  (at level 61, c at next level, right associativity).
Notation "' p <~ c ;; k" := (and_then c (fun x => let 'p := x in k))
  (at level 61, p pattern, c at next level, right associativity).

(* ================================================================== *)
(** * story_enhancer.py *)
(* ================================================================== *)

Module StoryEnhancer.
Import StoryParser.

Module Emotional.
Record EmotionalElement :=
  { name : str; description : str; intensity : Z; trigger_words : list str }.
End Emotional.

Module Twist.
Record PlotTwist :=
  { name : str; description : str; impact : Z;
    setup_elements : list str; payoff_elements : list str }.
End Twist.

Definition EmotionalElement := Emotional.EmotionalElement.
Definition PlotTwist := Twist.PlotTwist.

Definition EMOTIONAL_ELEMENTS : list EmotionalElement :=
  [ {| Emotional.name := lit "unexpected_kindness";
       Emotional.description :=
         lit "A sudden act of kindness from an unexpected source";
       Emotional.intensity := 8;
       Emotional.trigger_words :=
         [lit "alone"; lit "struggle"; lit "difficult"; lit "help"] |};
    {| Emotional.name := lit "redemption";
       Emotional.description :=
         lit "A character overcomes their past mistakes";
       Emotional.intensity := 9;
       Emotional.trigger_words :=
         [lit "mistake"; lit "regret"; lit "change"; lit "better"] |};
    {| Emotional.name := lit "sacrifice";
       Emotional.description :=
         lit "Someone gives up something important for others";
       Emotional.intensity := 10;
       Emotional.trigger_words :=
         [lit "important"; lit "give up"; lit "others"; lit "save"] |};
    {| Emotional.name := lit "revelation";
       Emotional.description :=
         lit "A surprising truth is revealed that changes everything";
       Emotional.intensity := 9;
       Emotional.trigger_words :=
         [lit "truth"; lit "discover"; lit "realize"; lit "secret"] |} ].

(** [déjà vu], with its two letters outside ASCII given by their code
    points. *)
Definition deja_vu : str :=
  lit "d" ++ ["233"%char] ++ lit "j" ++ ["224"%char] ++ lit " vu".

Definition PLOT_TWISTS : list PlotTwist :=
  [ {| Twist.name := lit "hidden_connection";
       Twist.description :=
         lit "Characters discover they're connected in unexpected ways";
       Twist.impact := 8;
       Twist.setup_elements :=
         [lit "mysterious past"; lit "coincidence"; lit "shared history"];
       Twist.payoff_elements :=
         [lit "revelation"; lit "emotional reunion";
          lit "changed relationship"] |};
    {| Twist.name := lit "moral_gray_area";
       Twist.description :=
         lit "The clear distinction between right and wrong becomes blurred";
       Twist.impact := 9;
       Twist.setup_elements :=
         [lit "ethical dilemma"; lit "difficult choice";
          lit "conflicting loyalties"];
       Twist.payoff_elements :=
         [lit "complex decision"; lit "unexpected consequences";
          lit "character growth"] |};
    {| Twist.name := lit "time_revelation";
       Twist.description :=
         lit "Events are not in the sequence they appear to be";
       Twist.impact := 8;
       Twist.setup_elements :=
         [lit "mysterious timeline"; lit "inconsistent memories"; deja_vu];
       Twist.payoff_elements :=
         [lit "timeline twist"; lit "memory revelation";
          lit "true sequence revealed"] |};
    {| Twist.name := lit "identity_subversion";
       Twist.description :=
         lit "A character is not who they appear to be";
       Twist.impact := 9;
       Twist.setup_elements :=
         [lit "subtle hints"; lit "inconsistent behavior"; lit "hidden agenda"];
       Twist.payoff_elements :=
         [lit "true identity revealed"; lit "motivation exposed";
          lit "relationships redefined"] |} ].

(** The object: its two attributes. *)
Record StoryEnhancer :=
  { emotional_elements : list EmotionalElement;
    plot_twists : list PlotTwist }.

Definition __init__ : StoryEnhancer :=
  {| emotional_elements := EMOTIONAL_ELEMENTS; plot_twists := PLOT_TWISTS |}.

(** [any(word in description for word in words)] *)
Definition any_in (words : list str) (description : str) : bool :=
  existsb (fun word => contains word description) words.

(** [StoryEnhancer.analyze_emotional_potential].  A scene is the
    dictionary [parse_story_script] builds. *)
Definition analyze_emotional_potential (self : StoryEnhancer) (scene : Scene)
  : list EmotionalElement :=
  let description := lower (StoryParser.description scene) in
  filter (fun element => any_in (Emotional.trigger_words element) description)
         (emotional_elements self).

(** The test of the inner loop of [identify_plot_twist_opportunities]:
    the scene contains a setup element. *)
Definition has_setup (twist : PlotTwist) (scene : Scene) : bool :=
  let description := lower (StoryParser.description scene) in
  any_in (Twist.setup_elements twist) description.

(** The inner loop of [identify_plot_twist_opportunities]. *)
Definition setup_count (twist : PlotTwist) (scenes : list Scene) : Z :=
  fold_left
    (fun setup_count scene =>
       if has_setup twist scene then setup_count + 1 else setup_count)
    scenes 0.

(** [StoryEnhancer.identify_plot_twist_opportunities] *)
Definition identify_plot_twist_opportunities (self : StoryEnhancer)
    (scenes : list Scene) : list PlotTwist :=
  filter (fun twist => 2 <=? setup_count twist scenes) (plot_twists self).

(** The text [enhance_scene] appends to a description. *)
Definition emotional_suffix (element : EmotionalElement) : str :=
  [newline; newline] ++ lit "[Emotional Enhancement - "
  ++ Emotional.name element ++ lit "]:" ++ [newline]
  ++ Emotional.description element.

(** [StoryEnhancer.enhance_scene]; [None] is the default of the optional
    argument. *)
Definition enhance_scene (self : StoryEnhancer) (scene : Scene)
    (emotional_elements : option (list EmotionalElement)) (g : Random)
  : outcome (Scene * Random) :=
  let emotional_elements :=
    match emotional_elements with
    | None => analyze_emotional_potential self scene
    | Some l => l
    end in
  match emotional_elements with
  | [] => Return (scene, g)
  | _ :: _ =>
      '(element, g) <~ choice emotional_elements g ;;
      let enhanced_description :=
        StoryParser.description scene ++ emotional_suffix element in
      Return ({| scene_number := scene_number scene;
                 description := enhanced_description |}, g)
  end.

(** The text [add_plot_twist] appends to a description. *)
Definition twist_suffix (twist : PlotTwist) : str :=
  [newline; newline] ++ lit "[Plot Twist - " ++ Twist.name twist
  ++ lit "]:" ++ [newline]
  ++ Twist.description twist ++ [newline]
  ++ lit "This revelation changes everything that came before...".

(** The scene dictionaries as objects.  [add_plot_twist] changes a
    dictionary in place, and the change shows wherever that dictionary is
    referred to: there a list of scenes is a list of addresses, and the
    store gives the dictionary at each address. *)
Definition address := nat.
Definition Store := address -> Scene.

(** The store after the dictionary at [a] has become [scene]. *)
Definition update (store : Store) (a : address) (scene : Scene) : Store :=
  fun b => if Nat.eqb b a then scene else store b.

(** The dictionaries a list refers to. *)
Definition values (store : Store) (scenes : list address) : list Scene :=
  map store scenes.

(** [StoryEnhancer.add_plot_twist].  It returns the list it was given, and
    the store after the assignment to the key [description] of the
    dictionary at [twist_index]. *)
Definition add_plot_twist (self : StoryEnhancer) (scenes : list address)
    (twist : option PlotTwist) (g : Random) (store : Store)
  : outcome (list address * Random * Store) :=
  match scenes with
  | [] => Return (scenes, g, store)
  | _ :: _ =>
      '(twist, g) <~
        match twist with
        | Some t => Return (t, g)
        | None =>
            let potential_twists :=
              identify_plot_twist_opportunities self (values store scenes) in
            match potential_twists with
            | _ :: _ => choice potential_twists g
            | [] => choice (plot_twists self) g
            end
        end ;;
      let len := Z.of_nat (List.length scenes) in
      '(k, g) <~ randint 0 (len / 2 - 1) g ;;
      let twist_index := len / 2 + k in
      read <~ getitem scenes twist_index ;;
      let description :=
        StoryParser.description (store read) ++ twist_suffix twist in
      written <~ getitem scenes twist_index ;;
      let changed :=
        {| scene_number := scene_number (store written);
           description := description |} in
      Return (scenes, g, update store written changed)
  end.

(** The first loop of [enhance_story]. *)
Fixpoint enhance_scenes (self : StoryEnhancer) (scenes : list Scene)
    (g : Random) : outcome (list Scene * Random) :=
  match scenes with
  | [] => Return ([], g)
  | scene :: rest =>
      let emotional_elements := analyze_emotional_potential self scene in
      '(enhanced_scene, g) <~
        enhance_scene self scene (Some emotional_elements) g ;;
      '(enhanced_scenes, g) <~ enhance_scenes self rest g ;;
      Return (enhanced_scene :: enhanced_scenes, g)
  end.

(** A list of dictionaries that are objects of their own, each put at an
    address: the addresses and the store.  No address from the length of
    the list on is referred to. *)
Definition allocate (scenes : list Scene) : list address * Store :=
  (seq 0 (List.length scenes),
   fun a => nth a scenes {| scene_number := 0; description := [] |}).

(** What the last loop of [enhance_story] adds for one scene. *)
Definition scene_text (scene : Scene) : result str :=
  shown <- str_of_int (scene_number scene) ;;
  Ok ([newline] ++ lit "Scene " ++ shown ++ lit ":"
      ++ [newline] ++ StoryParser.description scene ++ [newline]).

(** [StoryEnhancer.enhance_story].  The dictionaries of [enhanced_scenes]
    are objects of their own: each was built by [parse_story_script], one
    for each match, or by [enhance_scene]. *)
Definition enhance_story (self : StoryEnhancer) (story_script : str)
    (g : Random) : outcome (str * Random) :=
  scenes <~ of_result (parse_story_script story_script) ;;
  '(enhanced_scenes, g) <~ enhance_scenes self scenes g ;;
  let '(enhanced_scenes, store) := allocate enhanced_scenes in
  '(enhanced_scenes, g, store) <~
    add_plot_twist self enhanced_scenes None g store ;;
  texts <~ of_result (map_result scene_text (values store enhanced_scenes)) ;;
  let enhanced_script := concat texts in
  Return (strip enhanced_script, g).

End StoryEnhancer.

(* ================================================================== *)
(** * More notions used to state the properties *)
(* ================================================================== *)

Module TimingLine.

(** A text without the character [>]. *)
Definition no_gt (s : str) : bool :=
  forallb (fun c => negb (Ascii.eqb c ">"%char)) s.

End TimingLine.

Module FloatOrder.
Import FloatValue.

(** A finite double in its canonical form: a mantissa below [2^53] that
    has all its 53 bits unless the exponent is the smallest one. *)
Definition canonical (f : float) : Prop :=
  match f with
  | S754_finite _ m e =>
      Zpos m < 2 ^ 53 /\ (2 ^ 52 <= Zpos m \/ e = -1074) /\ -1074 <= e
  | _ => True
  end.

End FloatOrder.

(* ================================================================== *)
(** * media_resizer.py: the callers of [_calculate_dimensions] *)
(* ================================================================== *)

Module Resizer.
Import MediaResizer.

(** [a == b] on two [str] *)
Fixpoint str_eqb (a b : str) : bool :=
  match a, b with
  | [], [] => true
  | x :: a', y :: b' => Ascii.eqb x y && str_eqb a' b'
  | _, _ => false
  end.

(** [d.get(key)] on a dictionary given by its items. *)
Fixpoint dict_get {V} (d : list (str * V)) (key : str) : option V :=
  match d with
  | [] => None
  | (k, v) :: rest => if str_eqb k key then Some v else dict_get rest key
  end.

(** [s.replace(old, new)] for two characters. *)
Definition replace_char (old new : ascii) (s : str) : str :=
  map (fun c => if Ascii.eqb c old then new else c) s.

Definition COMMON_RATIOS : list (str * (Z * Z)) :=
  [ (lit "16:9", (16, 9));
    (lit "9:16", (9, 16));
    (lit "1:1", (1, 1));
    (lit "4:3", (4, 3));
    (lit "3:4", (3, 4)) ].

(** What [resize_image] and [resize_video] hand to the imaging library:
    the size of the background, the size the source is resized to, the
    position at which it is put on the background, and the name of the
    output file. *)
Record Layout :=
  { background_size : Z * Z;
    resized_size : Z * Z;
    position : Z * Z;
    output_name : str }.

(** [MediaResizer.resize_image], from the test of the aspect ratio on.
    The image is given by its size, [img.size], and its path by
    [Path(image_path).stem]; [None] is the default of [output_filename]. *)
Definition resize_image (size : Z * Z) (base_name : str) (aspect_ratio : str)
    (max_dimension : Z) (output_filename : option str) : result Layout :=
  match dict_get COMMON_RATIOS aspect_ratio with
  | None =>
      Raise (ValueError (lit "Unsupported aspect ratio: " ++ aspect_ratio))
  | Some ratio =>
      let '(current_width, current_height) := size in
      '((new_width, new_height), (target_width, target_height)) <-
        _calculate_dimensions current_width current_height ratio
          max_dimension ;;
      let paste_x := (target_width - new_width) / 2 in
      let paste_y := (target_height - new_height) / 2 in
      let output_filename :=
        match output_filename with
        | None =>
            base_name ++ lit "_"
            ++ replace_char ":"%char "x"%char aspect_ratio ++ lit ".jpg"
        | Some name => name
        end in
      Ok {| background_size := (target_width, target_height);
            resized_size := (new_width, new_height);
            position := (paste_x, paste_y);
            output_name := output_filename |}
  end.

(** [MediaResizer.resize_video], in the same way; the video is given by
    [video.size]. *)
Definition resize_video (size : Z * Z) (base_name : str) (aspect_ratio : str)
    (max_dimension : Z) (output_filename : option str) : result Layout :=
  match dict_get COMMON_RATIOS aspect_ratio with
  | None =>
      Raise (ValueError (lit "Unsupported aspect ratio: " ++ aspect_ratio))
  | Some ratio =>
      let '(current_width, current_height) := size in
      '((new_width, new_height), (target_width, target_height)) <-
        _calculate_dimensions current_width current_height ratio
          max_dimension ;;
      let x_center := (target_width - new_width) / 2 in
      let y_center := (target_height - new_height) / 2 in
      let output_filename :=
        match output_filename with
        | None =>
            base_name ++ lit "_"
            ++ replace_char ":"%char "x"%char aspect_ratio ++ lit ".mp4"
        | Some name => name
        end in
      Ok {| background_size := (target_width, target_height);
            resized_size := (new_width, new_height);
            position := (x_center, y_center);
            output_name := output_filename |}
  end.

End Resizer.

(* ================================================================== *)
(** * subtitle_translator.py: the translation *)
(* ================================================================== *)

Module Translation.
Import Srt.

(** The value [response.json()] returns, by what [translate_text] does
    with it: the test ["translatedText" in result], then
    [result["translatedText"]] or [result.get('error', 'Unknown error')].

    - [Object]: a JSON object, with the values under the keys
      [translatedText] and [error], each present or not.  Each value is
      given by the text [str] makes of it, for a string the string itself.
      The value under [error] is only ever put into a message.  The
      translation is a string by the annotations of [translate_text] and
      of [SubtitleEntry], and the code does nothing with it but format it,
      in [save_srt] and in [generate_voiceover].
    - [Array]: a JSON array, given by those of its items that are
      strings, the only ones the test can find.
    - [Text]: a JSON string.
    - [Scalar]: [None], a boolean or a number, given by the name of its
      type. *)
Inductive reply :=
| Object (translatedText error : option str)
| Array (strings : list str)
| Text (s : str)
| Scalar (type_name : str).

(** What one exchange with the translation service comes to:
    [requests.post], [raise_for_status] or [response.json()] raises, or
    [response.json()] returns a value. *)
Inductive response :=
| Raises (e : exception)
| Replies (result : reply).

(** The service is the sequence of its replies: the reply to the first
    request, to the second, and so on.  The state of a run is the number of
    requests made so far. *)
Definition Service := nat -> response.

Definition translatedText_key : str := lit "translatedText".

(** What [translate_text] does with the value of [response.json()].  The
    messages of [TypeError] and [AttributeError] are those of version 3.11
    of the interpreter. *)
Definition read_reply (result : reply) : outcome str :=
  match result with
  | Scalar type_name =>
      Throw (TypeError
        (lit "argument of type '" ++ type_name ++ lit "' is not iterable"))
  | Text s =>
      if negb (contains translatedText_key s) then
        Throw (AttributeError (lit "'str' object has no attribute 'get'"))
      else
        Throw (TypeError (lit "string indices must be integers, not 'str'"))
  | Array strings =>
      if negb (existsb (Resizer.str_eqb translatedText_key) strings) then
        Throw (AttributeError (lit "'list' object has no attribute 'get'"))
      else
        Throw (TypeError
          (lit "list indices must be integers or slices, not str"))
  | Object None error =>
      Throw (RuntimeError
        (lit "Translation failed: "
         ++ match error with
            | Some message => message
            | None => lit "Unknown error"
            end))
  | Object (Some translated) _ => Return translated
  end.

(** [SubtitleTranslator.translate_text].  Of what the exchange raises the
    [except] clause catches the [RequestException]; the rest goes to the
    caller as it is, as do the exceptions raised on reading the reply. *)
Definition translate_text (service : Service) (text source_lang target_lang : str)
    (requests : nat) : outcome (str * nat) :=
  match strip text with
  | [] => Return (text, requests)
  | _ :: _ =>
      match service requests with
      | Raises (RequestException e) =>
          Throw (RuntimeError (lit "Translation request failed: " ++ e))
      | Raises e => Throw e
      | Replies result =>
          translated <~ read_reply result ;;
          Return (translated, S requests)
      end
  end.

(** [SubtitleTranslator.translate_subtitles] *)
Fixpoint translate_subtitles (service : Service) (entries : list SubtitleEntry)
    (source_lang target_lang : str) (requests : nat)
  : outcome (list SubtitleEntry * nat) :=
  match entries with
  | [] => Return ([], requests)
  | entry :: rest =>
      '(translated_text, requests) <~
        translate_text service (text entry) source_lang target_lang requests ;;
      let translated :=
        {| index := index entry;
           start_time := start_time entry;
           end_time := end_time entry;
           text := translated_text |} in
      '(translated_entries, requests) <~
        translate_subtitles service rest source_lang target_lang requests ;;
      Return (translated :: translated_entries, requests)
  end.

(** An entry whose text is empty or white space only. *)
Definition blank (entry : SubtitleEntry) : bool :=
  match strip (text entry) with
  | [] => true
  | _ :: _ => false
  end.

(** The translation changes the text of an entry and nothing else, and
    leaves a blank text as it is. *)
Definition translation_of (entry translated : SubtitleEntry) : Prop :=
  index translated = index entry /\
  start_time translated = start_time entry /\
  end_time translated = end_time entry /\
  (blank entry = true -> text translated = text entry).

End Translation.

(* ================================================================== *)
(** * text_to_speech.py and the rest of subtitle_translator.py *)
(* ================================================================== *)

Module Files.

(** [s.endswith(suffix)] *)
Definition endswith (s suffix : str) : bool :=
  match strip_prefix (rev suffix) (rev s) with
  | Some _ => true
  | None => false
  end.

(** A file that has been written: its path and its content. *)
Definition File := (str * str)%type.

(** A computation that writes files and may raise: from the files written
    so far to what it returns or raises and the files written then.  What
    was written before an exception stays written. *)
Definition io (A : Type) := list File -> outcome A * list File.

Definition io_return {A} (a : A) : io A := fun files => (Return a, files).

Definition io_lift {A} (r : outcome A) : io A := fun files => (r, files).

Definition io_bind {A B} (c : io A) (k : A -> io B) : io B :=
  fun files =>
    match c files with
    | (Return a, files') => k a files'
    | (Throw e, files') => (Throw e, files')
    end.

(** [with open(path, 'w') as f: f.write(content)] *)
Definition write_file (path content : str) : io unit :=
  fun files => (Return tt, files ++ [(path, content)]).

(** What the code takes from its surroundings: [str(Path(a) / b)], the
    value of [time.strftime("%Y%m%d-%H%M%S")], and the exchange with the
    speech service, that is the body of the [try] of [generate_speech] up
    to the download of the audio, with its [except] clause: it gives the
    audio or raises. *)
Record Environment :=
  { joinpath : str -> str -> str;
    strftime : str;
    synthesize : str -> str -> str -> float -> float -> outcome str }.

End Files.

Import Files.

Notation "x <~~ c ;; k" := (io_bind c (fun x => k))
  (at level 61, c at next level, right associativity).

Module TextToSpeech.

Record TTSGenerator := { api_key : str; base_url : str; output_dir : str }.

(** The doubles [0.5], [2.0], [0.1], [5.0] and [1.0]. *)
Definition half : float := S754_finite false 4503599627370496 (-53).
Definition two : float := S754_finite false 4503599627370496 (-51).
Definition tenth : float := S754_finite false 7205759403792794 (-56).
Definition five : float := S754_finite false 5629499534213120 (-50).
Definition one : float := S754_finite false 4503599627370496 (-52).

(** [x <= y] on two [float] *)
Definition float_le (x y : float) : bool := SFleb x y.

(** [TTSGenerator.generate_speech]; [None] is the default of [filename]. *)
Definition generate_speech (env : Environment) (self : TTSGenerator)
    (text voice_id : str) (filename : option str) (speed volume : float)
  : io str :=
  match strip text with
  | [] => io_lift (Throw (Builtin (ValueError (lit "Text input cannot be empty"))))
  | _ :: _ =>
      if negb (float_le half speed && float_le speed two) then
        io_lift (Throw (Builtin (ValueError
          (lit "Speed must be between 0.5 and 2.0"))))
      else if negb (float_le tenth volume && float_le volume five) then
        io_lift (Throw (Builtin (ValueError
          (lit "Volume must be between 0.1 and 5.0"))))
      else
        let filename :=
          match filename with
          | None => lit "tts_" ++ strftime env ++ lit ".mp3"
          | Some name =>
              if negb (endswith name (lit ".mp3")) then name ++ lit ".mp3"
              else name
          end in
        let output_path := joinpath env (output_dir self) filename in
        audio <~~ io_lift (synthesize env (api_key self) text voice_id
                             speed volume) ;;
        _ <~~ write_file output_path audio ;;
        io_return output_path
  end.

End TextToSpeech.

Module Translator.
Import Srt Translation Resizer TextToSpeech.

(** The object after [__init__]: [tts_generator] is [None] when no API
    key was given. *)
Record SubtitleTranslator :=
  { translate_url : str;
    output_dir : str;
    tts_generator : option TTSGenerator }.

(** The values are the pairs of [code] and [voice_id]. *)
Definition LANGUAGE_MAPPING : list (str * (str * str)) :=
  [ (lit "en", (lit "en-US", lit "en-US-1"));
    (lit "es", (lit "es-ES", lit "es-ES-1"));
    (lit "fr", (lit "fr-FR", lit "fr-FR-1"));
    (lit "de", (lit "de-DE", lit "de-DE-1"));
    (lit "it", (lit "it-IT", lit "it-IT-1"));
    (lit "pt", (lit "pt-BR", lit "pt-BR-1"));
    (lit "nl", (lit "nl-NL", lit "nl-NL-1"));
    (lit "pl", (lit "pl-PL", lit "pl-PL-1"));
    (lit "ru", (lit "ru-RU", lit "ru-RU-1"));
    (lit "ja", (lit "ja-JP", lit "ja-JP-1"));
    (lit "ko", (lit "ko-KR", lit "ko-KR-1"));
    (lit "zh", (lit "zh-CN", lit "zh-CN-1")) ].

Definition not_initialized : str :=
  lit "TTS Generator not initialized. "
  ++ lit "Please provide a TTSMaker API key when creating SubtitleTranslator.".

(** What the loop of [generate_voiceover] adds for one entry. *)
Definition spoken (entry : SubtitleEntry) : str :=
  text entry ++ [newline] ++ lit "<break time='500ms'/>" ++ [newline].

(** [SubtitleTranslator.generate_voiceover] *)
Definition generate_voiceover (env : Environment) (self : SubtitleTranslator)
    (entries : list SubtitleEntry) (target_lang : str)
    (output_filename : option str) : io str :=
  match tts_generator self with
  | None => io_lift (Throw (RuntimeError not_initialized))
  | Some generator =>
      match dict_get LANGUAGE_MAPPING target_lang with
      | None =>
          io_lift (Throw (Builtin (ValueError
            (lit "Unsupported target language: " ++ target_lang))))
      | Some lang_info =>
          let full_text := concat (map spoken entries) in
          generate_speech env generator full_text (snd lang_info)
            output_filename one one
      end
  end.

(** [SubtitleTranslator.save_srt], with the file it writes: what the loop
    has written stays in the file when the loop raises. *)
Definition save_srt (env : Environment) (self : SubtitleTranslator)
    (entries : list SubtitleEntry) (output_filename : str) : io str :=
  let output_filename :=
    if negb (endswith output_filename (lit ".srt"))
    then output_filename ++ lit ".srt" else output_filename in
  let output_path := joinpath env (output_dir self) output_filename in
  let '(written, r) := save_srt_loop entries in
  _ <~~ write_file output_path written ;;
  _ <~~ io_lift (of_result r) ;;
  io_return output_path.

(** The dictionary [process_subtitles] returns: the key [subtitles], and
    the key [audio] when there is one. *)
Record Paths := { subtitles : str; audio : option str }.

(** [SubtitleTranslator.process_subtitles].  The input file is given by
    its content and by [Path(srt_path).stem]; [requests] is the number of
    requests made to the translation service before the call. *)
Definition process_subtitles (env : Environment) (service : Service)
    (self : SubtitleTranslator) (srt_content base_name : str)
    (source_lang target_lang : str) (generate_audio : bool) (requests : nat)
  : io Paths :=
  entries <~~ io_lift (of_result (parse_srt srt_content)) ;;
  translated <~~
    io_lift (translate_subtitles service entries source_lang target_lang
               requests) ;;
  let translated_entries := fst translated in
  let srt_output := base_name ++ lit "_" ++ target_lang ++ lit ".srt" in
  subtitles_path <~~ save_srt env self translated_entries srt_output ;;
  if generate_audio then
    let audio_output := base_name ++ lit "_" ++ target_lang ++ lit ".mp3" in
    audio_path <~~
      generate_voiceover env self translated_entries target_lang
        (Some audio_output) ;;
    io_return {| subtitles := subtitles_path; audio := Some audio_path |}
  else io_return {| subtitles := subtitles_path; audio := None |}.

End Translator.

(* ================================================================== *)
(** * Properties *)
(* ================================================================== *)
Import StoryParser Script.

Section StringFacts.

Lemma take_while_app (p : ascii -> bool) (a b : str) :
  forallb p a = true ->
  take_while p (a ++ b) = a ++ take_while p b.
Proof.
  induction a as [|c a IH]; simpl; intros H; [reflexivity|].
  apply andb_true_iff in H as [Hc Ha]. rewrite Hc, IH by assumption. reflexivity.
Qed.

Lemma drop_while_app (p : ascii -> bool) (a b : str) :
  forallb p a = true ->
  drop_while p (a ++ b) = drop_while p b.
Proof.
  induction a as [|c a IH]; simpl; intros H; [reflexivity|].
  apply andb_true_iff in H as [Hc Ha]. rewrite Hc. auto.
Qed.

Lemma take_drop_while (p : ascii -> bool) (s : str) :
  take_while p s ++ drop_while p s = s.
Proof.
  induction s as [|c s IH]; simpl; [reflexivity|].
  destruct (p c); simpl; congruence.
Qed.

Lemma take_while_all (p : ascii -> bool) (s : str) :
  forallb p (take_while p s) = true.
Proof.
  induction s as [|c s IH]; simpl; [reflexivity|].
  destruct (p c) eqn:E; simpl; [rewrite E; auto | reflexivity].
Qed.

Lemma drop_while_head (p : ascii -> bool) (s : str) c r :
  drop_while p s = c :: r -> p c = false.
Proof.
  induction s as [|d s IH]; simpl; [discriminate|].
  destruct (p d) eqn:E; [auto|]. intros H; inversion H; subst; assumption.
Qed.

Lemma strip_prefix_app (p s : str) : strip_prefix p (p ++ s) = Some s.
Proof.
  induction p as [|c p IH]; simpl; [reflexivity|].
  rewrite Ascii.eqb_refl. assumption.
Qed.

Lemma strip_prefix_Some (p s r : str) : strip_prefix p s = Some r -> s = p ++ r.
Proof.
  revert s; induction p as [|c p IH]; simpl; intros s H.
  - congruence.
  - destruct s as [|d s]; [discriminate|].
    destruct (Ascii.eqb c d) eqn:E; [|discriminate].
    apply Ascii.eqb_eq in E; subst. f_equal. auto.
Qed.

End StringFacts.

Section MarkerFacts.

Lemma digit_not_space c : is_digit c = true -> is_space c = false.
Proof. destruct c as [[] [] [] [] [] [] [] []]; vm_compute; congruence. Qed.

Lemma colon_not_digit : is_digit ":"%char = false.
Proof. reflexivity. Qed.

Lemma take_while_stop (p : ascii -> bool) (a b : str) :
  forallb p a = true ->
  match b with [] => True | c :: _ => p c = false end ->
  take_while p (a ++ b) = a /\ drop_while p (a ++ b) = b.
Proof.
  intros Ha Hb. rewrite take_while_app, drop_while_app by assumption.
  destruct b as [|c b]; simpl.
  - rewrite app_nil_r. auto.
  - rewrite Hb, app_nil_r. auto.
Qed.

Lemma match_marker_text (g : segment) (rest : str) :
  nonempty (gap g) = true -> forallb is_space (gap g) = true ->
  nonempty (number g) = true -> forallb is_digit (number g) = true ->
  match_marker (marker_text g ++ rest) = Some (number g, rest).
Proof.
  intros Hg1 Hg2 Hn1 Hn2. unfold match_marker, marker_text.
  rewrite <- !app_assoc, strip_prefix_app.
  destruct (number g) as [|d ds] eqn:En; [discriminate|].
  destruct (take_while_stop is_space (gap g) ((d :: ds) ++ [":"%char] ++ rest) Hg2)
    as [T D].
  { simpl in *. apply andb_true_iff in Hn2 as [Hd _]. now apply digit_not_space. }
  rewrite T, D.
  destruct (gap g) as [|w ws] eqn:Eg; [discriminate|].
  destruct (take_while_stop is_digit (d :: ds) ([":"%char] ++ rest) Hn2) as [T' D'].
  { reflexivity. }
  rewrite T', D'. reflexivity.
Qed.

Lemma match_marker_inv (s ds r : str) :
  match_marker s = Some (ds, r) ->
  exists g, s = marker_text g ++ r /\ number g = ds /\
            nonempty (gap g) = true /\ forallb is_space (gap g) = true /\
            nonempty (number g) = true /\ forallb is_digit (number g) = true.
Proof.
  unfold match_marker. intros H.
  destruct (strip_prefix (lit "Scene") s) as [r0|] eqn:E0; [|discriminate].
  apply strip_prefix_Some in E0.
  destruct (take_while is_space r0) as [|w ws] eqn:Ew; [discriminate|].
  destruct (take_while is_digit (drop_while is_space r0)) as [|d dd] eqn:Ed; [discriminate|].
  destruct (drop_while is_digit (drop_while is_space r0)) as [|c r2] eqn:Er; [discriminate|].
  destruct (Ascii.eqb c ":"%char) eqn:Ec; [|discriminate].
  apply Ascii.eqb_eq in Ec. subst c. inversion H; subst ds r; clear H.
  exists {| gap := w :: ws; number := d :: dd; body := [] |}.
  unfold marker_text; simpl gap; simpl number.
  repeat split.
  - rewrite E0, <- !app_assoc. f_equal.
    rewrite <- (take_drop_while is_space r0) at 1. rewrite Ew. f_equal.
    rewrite <- (take_drop_while is_digit (drop_while is_space r0)) at 1.
    rewrite Ed, Er. reflexivity.
  - rewrite <- Ew. apply take_while_all.
  - rewrite <- Ed. apply take_while_all.
Qed.


Lemma space_not_S c : is_space c = true -> not_S c = true.
Proof. destruct c as [[] [] [] [] [] [] [] []]; vm_compute; congruence. Qed.

Lemma digit_not_S c : is_digit c = true -> not_S c = true.
Proof. destruct c as [[] [] [] [] [] [] [] []]; vm_compute; congruence. Qed.

Lemma forallb_impl (p q : ascii -> bool) (s : str) :
  (forall c, p c = true -> q c = true) -> forallb p s = true -> forallb q s = true.
Proof.
  intros Hpq. induction s as [|c s IH]; simpl; [reflexivity|].
  intros H. apply andb_true_iff in H as [H1 H2]. rewrite Hpq, IH; auto.
Qed.

Lemma marker_tail_no_S (g : segment) :
  forallb is_space (gap g) = true -> forallb is_digit (number g) = true ->
  forallb not_S (tl (marker_text g)) = true.
Proof.
  intros Hg Hn. unfold marker_text. simpl.
  rewrite !forallb_app. simpl.
  rewrite (forallb_impl _ _ _ space_not_S Hg), (forallb_impl _ _ _ digit_not_S Hn).
  reflexivity.
Qed.

(** Two ways of cutting one list. *)
Lemma app_eq_app_cases (A : Type) (t x m r : list A) :
  t ++ x = m ++ r ->
  (exists r', t = m ++ r' /\ r = r' ++ x) \/
  (exists m2, m2 <> [] /\ m = t ++ m2 /\ x = m2 ++ r).
Proof.
  revert m. induction t as [|a t IH]; intros m H; simpl in *.
  - destruct m as [|b m].
    + left. exists []. simpl in *. auto.
    + right. exists (b :: m). split; [discriminate|]. auto.
  - destruct m as [|b m]; simpl in *.
    + left. exists (a :: t). subst r. auto.
    + inversion H; subst b. destruct (IH m H2) as [[r' [E1 E2]]|[m2 [N [E1 E2]]]].
      * left. exists r'. subst. auto.
      * right. exists m2. subst. auto.
Qed.


(** A marker that starts inside [t] ends inside [t]. *)
Lemma match_marker_within (t x ds r : str) :
  t <> [] -> starts_S x = true ->
  match_marker (t ++ x) = Some (ds, r) ->
  exists r', match_marker t = Some (ds, r') /\ r = r' ++ x.
Proof.
  intros Ht Hx H. apply match_marker_inv in H as (g & E & En & G1 & G2 & N1 & N2).
  apply app_eq_app_cases in E as [[r' [E1 E2]]|[m2 [N [E1 E2]]]].
  - exists r'. split; [|assumption]. subst t ds. now apply match_marker_text.
  - exfalso. pose proof (marker_tail_no_S g G2 N2) as T.
    rewrite E1 in T. destruct t as [|a t]; [congruence|]. simpl in T.
    rewrite forallb_app in T. apply andb_true_iff in T as [_ T].
    destruct m2 as [|c m2]; [congruence|]. simpl in T.
    apply andb_true_iff in T as [T _].
    subst x. simpl in Hx. unfold not_S in T. rewrite Hx in T. discriminate.
Qed.

Lemma match_marker_extend (t x ds r : str) :
  match_marker t = Some (ds, r) -> match_marker (t ++ x) = Some (ds, r ++ x).
Proof.
  intros H. apply match_marker_inv in H as (g & E & En & G1 & G2 & N1 & N2).
  subst t ds. rewrite <- app_assoc. now apply match_marker_text.
Qed.

End MarkerFacts.

Section StripFacts.

Lemma drop_while_nil_iff (p : ascii -> bool) (s : str) :
  drop_while p s = [] <-> forallb p s = true.
Proof.
  induction s as [|c s IH]; simpl; [tauto|].
  destruct (p c); simpl; [assumption|]. split; discriminate.
Qed.

Lemma forallb_rev (p : ascii -> bool) (s : str) :
  forallb p (rev s) = forallb p s.
Proof.
  induction s as [|c s IH]; simpl; [reflexivity|].
  rewrite forallb_app, IH. simpl. rewrite andb_true_r. apply andb_comm.
Qed.

Lemma rstrip_nil_iff (s : str) : rstrip s = [] <-> forallb is_space s = true.
Proof.
  unfold rstrip. rewrite <- (forallb_rev is_space s), <- drop_while_nil_iff.
  split; intros H.
  - apply (f_equal (@rev ascii)) in H. now rewrite rev_involutive in H.
  - now rewrite H.
Qed.

Lemma forallb_drop_while (p : ascii -> bool) (s : str) :
  forallb p (drop_while p s) = true <-> forallb p s = true.
Proof.
  rewrite <- !drop_while_nil_iff.
  induction s as [|c s IH]; simpl; [tauto|].
  destruct (p c) eqn:E; [assumption|]. simpl. rewrite E. tauto.
Qed.

(** [s.strip()] is empty exactly when [s] is white space only. *)
Lemma strip_nil_iff (s : str) : strip s = [] <-> forallb is_space s = true.
Proof.
  unfold strip, lstrip. rewrite rstrip_nil_iff. apply forallb_drop_while.
Qed.

Lemma rstrip_app_nonspace (a : str) (c : ascii) :
  is_space c = false -> rstrip (a ++ [c]) = a ++ [c].
Proof.
  intros H. unfold rstrip. rewrite rev_app_distr. simpl. rewrite H.
  simpl. now rewrite rev_involutive.
Qed.

Lemma rstrip_app_space (a : str) (c : ascii) :
  is_space c = true -> rstrip (a ++ [c]) = rstrip a.
Proof.
  intros H. unfold rstrip. rewrite rev_app_distr. simpl. now rewrite H.
Qed.

Lemma lstrip_app (a b : str) :
  forallb is_space a = false -> lstrip (a ++ b) = lstrip a ++ b.
Proof.
  unfold lstrip. induction a as [|c a IH]; simpl; [discriminate|].
  destruct (is_space c); simpl; auto.
Qed.

(** A white-space character at the end does not change [s.strip()]. *)
Lemma strip_app_space (a : str) (c : ascii) :
  is_space c = true -> strip (a ++ [c]) = strip a.
Proof.
  intros H. unfold strip.
  destruct (forallb is_space a) eqn:E.
  - assert (E' : forallb is_space (a ++ [c]) = true)
      by (rewrite forallb_app, E; simpl; now rewrite H).
    apply forallb_drop_while in E, E'. apply rstrip_nil_iff in E, E'.
    unfold lstrip. congruence.
  - rewrite lstrip_app by assumption. now apply rstrip_app_space.
Qed.

Lemma strip_trimmed (s : str) : trimmed s = true -> strip s = s.
Proof.
  destruct s as [|c s]; [reflexivity|]. unfold trimmed.
  intros H. apply andb_true_iff in H as [H1 H2].
  apply negb_true_iff in H1, H2.
  unfold strip, lstrip. simpl drop_while. rewrite H1.
  destruct (exists_last (l := c :: s)) as (a & d & E); [discriminate|].
  rewrite E in *. rewrite last_last in H2. now apply rstrip_app_nonspace.
Qed.

End StripFacts.

Section IntFacts.

Lemma int_digits_all (ds : str) (acc : Z) (b : bool) :
  forallb is_digit ds = true -> (b = true \/ ds <> []) ->
  int_digits acc b ds = Some (fold_left (fun a c => 10 * a + digit_val c) ds acc).
Proof.
  revert acc b. induction ds as [|c ds IH]; simpl; intros acc b H Hb.
  - destruct Hb as [->|Hb]; [reflexivity|congruence].
  - apply andb_true_iff in H as [Hc Hd]. rewrite Hc. apply IH; auto.
Qed.

Lemma digits_trimmed (ds : str) : forallb is_digit ds = true -> trimmed ds = true.
Proof.
  intros H. destruct ds as [|c ds]; [reflexivity|]. unfold trimmed.
  assert (A : forall x, In x (c :: ds) -> is_space x = false).
  { intros x Hx. apply digit_not_space. rewrite forallb_forall in H. auto. }
  rewrite (A c) by (left; reflexivity).
  rewrite A; [reflexivity|].
  destruct (exists_last (l := c :: ds)) as (a & d & E); [discriminate|].
  rewrite E at 1. rewrite last_last. rewrite E. apply in_or_app. right. now left.
Qed.

Lemma digit_not_sign c :
  is_digit c = true -> Ascii.eqb c "-"%char = false /\ Ascii.eqb c "+"%char = false.
Proof. destruct c as [[] [] [] [] [] [] [] []]; vm_compute; intuition congruence. Qed.

Lemma filter_digits (ds : str) :
  forallb is_digit ds = true -> filter is_digit ds = ds.
Proof.
  induction ds as [|c ds IH]; [reflexivity|]. cbn [forallb filter].
  intros H. apply andb_true_iff in H as [Hc Hd]. rewrite Hc. f_equal. auto.
Qed.

(** [int] of a run of digits is its decimal value, when there are at most
    [max_str_digits] of them; beyond that it fails. *)
Lemma int_of_str_digits_cases (ds : str) :
  nonempty ds = true -> forallb is_digit ds = true ->
  int_of_str ds =
  if max_str_digits <? Z.of_nat (length ds)
  then Raise (too_many_digits (Z.of_nat (length ds)))
  else Ok (decimal_value ds).
Proof.
  intros Hn Hd. unfold int_of_str. rewrite strip_trimmed by now apply digits_trimmed.
  destruct ds as [|c ds]; [discriminate|].
  pose proof Hd as Hd'. simpl in Hd'. apply andb_true_iff in Hd' as [Hc _].
  destruct (digit_not_sign c Hc) as [-> ->].
  rewrite int_digits_all; auto; [|right; discriminate].
  rewrite filter_digits by assumption. reflexivity.
Qed.

Lemma int_of_str_digits (ds : str) :
  nonempty ds = true -> forallb is_digit ds = true ->
  Z.of_nat (length ds) <= max_str_digits ->
  int_of_str ds = Ok (decimal_value ds).
Proof.
  intros Hn Hd L. rewrite int_of_str_digits_cases by assumption.
  apply Z.ltb_ge in L. now rewrite L.
Qed.

End IntFacts.

Section FinditerFacts.

Lemma marker_free_cons c s :
  marker_free (c :: s) = true -> match_marker (c :: s) = None /\ marker_free s = true.
Proof. simpl. destruct (match_marker (c :: s)); [discriminate|auto]. Qed.

(** Inside a marker-free stretch no marker starts, whatever follows it. *)
Lemma marker_free_quiet (c : ascii) (t x : str) :
  marker_free (c :: t) = true -> starts_S x = true ->
  match_marker ((c :: t) ++ x) = None.
Proof.
  intros F X. destruct (match_marker ((c :: t) ++ x)) as [[ds r]|] eqn:E; [|reflexivity].
  apply match_marker_within in E as (r' & E & _); [|discriminate|assumption].
  apply marker_free_cons in F as [F _]. congruence.
Qed.

Lemma lazy_body_app (s b rest : str) : lazy_body s = (b, rest) -> s = b ++ rest.
Proof.
  revert b rest. induction s as [|c s IH]; simpl; intros b rest H.
  - inversion H. reflexivity.
  - destruct (lookahead (c :: s)).
    + inversion H. reflexivity.
    + destruct (lazy_body s) as [b' rest'] eqn:E. inversion H; subst.
      simpl. f_equal. now apply IH.
Qed.

Lemma match_scene_shorter (s g1 g2 rest : str) :
  match_scene s = Some (g1, g2, rest) -> (length rest < length s)%nat.
Proof.
  unfold match_scene. destruct (match_marker s) as [[ds [|c r]]|] eqn:E; try discriminate.
  destruct (lazy_body r) as [b rest'] eqn:L. intros H; inversion H; subst.
  apply lazy_body_app in L. apply match_marker_inv in E as (g & E & _).
  subst s r. rewrite length_app. cbn [length]. rewrite length_app. lia.
Qed.

(** Any fuel from the length of the text on gives the same matches. *)
Lemma finditer_enough (f1 f2 : nat) (s : str) :
  (length s <= f1)%nat -> (length s <= f2)%nat -> finditer f1 s = finditer f2 s.
Proof.
  revert f2 s. induction f1 as [|f1 IH]; intros f2 s H1 H2.
  - destruct s; [|simpl in H1; lia]. destruct f2; reflexivity.
  - destruct s as [|c s]; [destruct f2; reflexivity|].
    destruct f2 as [|f2]; [simpl in H2; lia|].
    simpl in *. destruct (match_scene (c :: s)) as [[[g1 g2] rest]|] eqn:E.
    + apply match_scene_shorter in E. simpl in E. f_equal. apply IH; lia.
    + apply IH; lia.
Qed.

(** The search passes over a marker-free stretch. *)
Lemma finditer_skip (pre x : str) (f : nat) :
  marker_free pre = true -> starts_S x = true ->
  (length (pre ++ x) <= f)%nat ->
  finditer f (pre ++ x) = finditer f x.
Proof.
  revert f. induction pre as [|c pre IH]; intros f F X L; [reflexivity|].
  destruct f as [|f]; [simpl in L; lia|].
  pose proof (marker_free_quiet c pre x F X) as Q.
  apply marker_free_cons in F as [_ F].
  change (finditer (S f) ((c :: pre) ++ x))
    with (match match_scene ((c :: pre) ++ x) with
          | Some (g1, g2, rest) => (g1, g2) :: finditer f rest
          | None => finditer f (pre ++ x)
          end).
  unfold match_scene. rewrite Q.
  simpl in L. rewrite IH by (auto; lia).
  apply finditer_enough; rewrite length_app in L; lia.
Qed.

(** The lazy body before another marker stops at that marker. *)
Lemma lazy_body_before_marker (b x : str) :
  marker_free b = true -> starts_S x = true -> x <> [] -> lookahead x = true ->
  lazy_body (b ++ x) = (b, x).
Proof.
  intros F X N L. induction b as [|c b IH]; simpl.
  - destruct x as [|d x]; [congruence|]. simpl. now rewrite L.
  - pose proof (marker_free_quiet c b x F X) as Q.
    apply marker_free_cons in F as [_ F].
    unfold lookahead at 1. simpl app in Q. rewrite Q.
    assert (D : at_dollar (c :: b ++ x) = false).
    { destruct b; destruct x; simpl; congruence. }
    rewrite D, IH by assumption. reflexivity.
Qed.

(** The lazy body of the last scene stops at the end of the text, or just
    before a newline that ends it. *)
Lemma lazy_body_at_end (b : str) :
  marker_free b = true ->
  exists b1 b2, lazy_body b = (b1, b2) /\ b = b1 ++ b2 /\
                (b2 = [] \/ b2 = [newline]).
Proof.
  induction b as [|c b IH]; intros F.
  - exists [], []. auto.
  - apply marker_free_cons in F as [Q F]. simpl. unfold lookahead. rewrite Q.
    destruct (at_dollar (c :: b)) eqn:D.
    + exists [], (c :: b). repeat split. right.
      destruct b; [|discriminate]. simpl in D. unfold is_newline in D.
      apply Ascii.eqb_eq in D. now subst.
    + destruct (IH F) as (b1 & b2 & E & A & B). rewrite E.
      exists (c :: b1), b2. repeat split; auto. simpl. congruence.
Qed.

Lemma script_starts_S (segs : list segment) : starts_S (script segs) = true.
Proof. destruct segs; reflexivity. Qed.

End FinditerFacts.

Section StoryParserFacts.

Lemma finditer_step (f : nat) (s : str) :
  s <> [] ->
  finditer (S f) s =
  match match_scene s with
  | Some (g1, g2, rest) => (g1, g2) :: finditer f rest
  | None => finditer f (tl s)
  end.
Proof. destruct s; [congruence|reflexivity]. Qed.

Lemma finditer_newline_tail (f : nat) (b : str) :
  b = [] \/ b = [newline] -> finditer f b = [].
Proof.
  intros [->| ->]; destruct f as [|f]; try reflexivity.
  destruct f; reflexivity.
Qed.

Lemma marker_text_nonempty (g : segment) (x : str) : marker_text g ++ x <> [].
Proof. unfold marker_text. simpl. discriminate. Qed.

Lemma segment_ok_inv (g : segment) :
  segment_ok g = true ->
  nonempty (gap g) = true /\ forallb is_space (gap g) = true /\
  nonempty (number g) = true /\ forallb is_digit (number g) = true /\
  marker_free (body g) = true /\ nonempty (body g) = true.
Proof.
  unfold segment_ok, marker_ok. rewrite !andb_true_iff. tauto.
Qed.

Lemma lookahead_script (g : segment) (rest : list segment) :
  segment_ok g = true -> lookahead (script (g :: rest)) = true.
Proof.
  intros H. apply segment_ok_inv in H as (G1 & G2 & N1 & N2 & _).
  unfold lookahead. cbn [script]. now rewrite match_marker_text.
Qed.

(** The matches found in a well-formed script: one for each segment, with
    its number and, up to white space at the ends, its body. *)
Lemma matches_of_script (segs : list segment) (f : nat) :
  forallb segment_ok segs = true -> (length (script segs) <= f)%nat ->
  map_result scene_of_match (finditer f (script segs))
  = map_result scene_of_match (map (fun g => (number g, body g)) segs).
Proof.
  revert f. induction segs as [|g rest IH]; intros f H L.
  - destruct f; reflexivity.
  - simpl in H. apply andb_true_iff in H as [Hg Hrest].
    pose proof (segment_ok_inv g Hg) as (G1 & G2 & N1 & N2 & F & B).
    destruct (body g) as [|c r] eqn:Eb; [discriminate|].
    apply marker_free_cons in F as [_ F].
    assert (Es : script (g :: rest) = marker_text g ++ (c :: r ++ script rest)).
    { simpl. rewrite Eb. reflexivity. }
    rewrite Es in *.
    destruct f as [|f].
    { rewrite length_app in L. unfold marker_text in L. simpl in L. lia. }
    rewrite finditer_step by apply marker_text_nonempty.
    unfold match_scene. rewrite match_marker_text by assumption.
    assert (L' : (length (r ++ script rest) <= f)%nat).
    { rewrite length_app in L. simpl in L. lia. }
    cbn [map]. rewrite Eb.
    destruct rest as [|g' rest'].
    + simpl script in *. rewrite app_nil_r in *.
      destruct (lazy_body_at_end r F) as (b1 & b2 & E & A & T). rewrite E.
      rewrite (finditer_newline_tail f b2 T).
      assert (S : strip (c :: b1) = strip (c :: r)).
      { subst r. destruct T as [->| ->].
        - now rewrite app_nil_r.
        - change (c :: b1 ++ [newline]) with ((c :: b1) ++ [newline]).
          now rewrite strip_app_space. }
      cbn [map map_result]. unfold scene_of_match. now rewrite S.
    + pose proof Hrest as Hrest'. simpl in Hrest'.
      apply andb_true_iff in Hrest' as [Hg' _].
      rewrite lazy_body_before_marker; auto.
      * cbn [map_result]. rewrite IH; auto.
        rewrite length_app in L'. lia.
      * apply marker_text_nonempty.
      * now apply lookahead_script.
Qed.

(** Numbers of at most [max_str_digits] digits are all converted. *)
Lemma scenes_of_segments (segs : list segment) :
  forallb segment_ok segs = true -> forallb number_ok segs = true ->
  map_result scene_of_match (map (fun g => (number g, body g)) segs)
  = Ok (map scene_of_segment segs).
Proof.
  induction segs as [|g rest IH]; intros H K; [reflexivity|].
  cbn [forallb] in H, K. apply andb_true_iff in H as [Hg Hrest].
  apply andb_true_iff in K as [Kg Krest].
  pose proof (segment_ok_inv g Hg) as (_ & _ & N1 & N2 & _).
  unfold number_ok in Kg. apply Z.leb_le in Kg.
  cbn [map map_result]. unfold scene_of_match at 1.
  rewrite int_of_str_digits by assumption. cbn [bind].
  rewrite IH by assumption. reflexivity.
Qed.

(** The first number of more than [max_str_digits] digits stops the loop. *)
Lemma scenes_of_segments_long (segs : list segment) :
  forallb segment_ok segs = true -> forallb number_ok segs = false ->
  exists g, In g segs /\ number_ok g = false /\
    map_result scene_of_match (map (fun g => (number g, body g)) segs)
    = Raise (too_many_digits (Z.of_nat (length (number g)))).
Proof.
  induction segs as [|g rest IH]; intros H K; [discriminate|].
  cbn [forallb] in H, K. apply andb_true_iff in H as [Hg Hrest].
  pose proof (segment_ok_inv g Hg) as (_ & _ & N1 & N2 & _).
  cbn [map map_result]. unfold scene_of_match at 1.
  rewrite int_of_str_digits_cases by assumption.
  destruct (number_ok g) eqn:Kg.
  - unfold number_ok in Kg. apply Z.leb_le in Kg. apply Z.ltb_ge in Kg.
    rewrite Kg. cbn [bind].
    destruct (IH Hrest K) as (g' & I & Kg' & ->).
    exists g'. repeat split; auto. now right.
  - exists g. split; [now left|]. split; [assumption|].
    unfold number_ok in Kg. apply Z.leb_gt in Kg. apply Z.ltb_lt in Kg.
    rewrite Kg. reflexivity.
Qed.

Lemma nonspace_not_blank (a b : str) (c : ascii) :
  is_space c = false -> forallb is_space (a ++ c :: b) = false.
Proof.
  intros H. rewrite forallb_app. simpl. rewrite H. apply andb_false_r.
Qed.

Lemma script_not_blank (pre : str) (segs : list segment) :
  segs <> [] -> forallb is_space (pre ++ script segs) = false.
Proof.
  destruct segs as [|g rest]; [congruence|]. intros _.
  simpl. unfold marker_text. simpl. now apply nonspace_not_blank.
Qed.

Lemma match_marker_starts_S (c : ascii) (s : str) :
  match_marker (c :: s) <> None -> c = "S"%char.
Proof.
  destruct (match_marker (c :: s)) as [[ds r]|] eqn:E; [|congruence].
  intros _. apply match_marker_inv in E as (g & E & _).
  unfold marker_text in E. simpl in E. now inversion E.
Qed.

Lemma count_markers_cons (c : ascii) (s : str) :
  count_markers (c :: s) =
  match match_marker (c :: s) with
  | Some _ => S (count_markers s)
  | None => count_markers s
  end.
Proof. reflexivity. Qed.

Lemma count_markers_skip (pre x : str) :
  marker_free pre = true -> starts_S x = true ->
  count_markers (pre ++ x) = count_markers x.
Proof.
  intros F X. induction pre as [|c pre IH]; [reflexivity|].
  pose proof (marker_free_quiet c pre x F X) as Q.
  apply marker_free_cons in F as [_ F].
  change (count_markers ((c :: pre) ++ x))
    with (match match_marker ((c :: pre) ++ x) with
          | Some _ => S (count_markers (pre ++ x))
          | None => count_markers (pre ++ x)
          end).
  rewrite Q. auto.
Qed.

Lemma count_markers_no_S (m x : str) :
  forallb not_S m = true -> count_markers (m ++ x) = count_markers x.
Proof.
  induction m as [|c m IH]; [reflexivity|]. simpl. intros H.
  apply andb_true_iff in H as [Hc Hm].
  destruct (match_marker (c :: m ++ x)) eqn:E; [|auto].
  assert (c = "S"%char) by (apply (match_marker_starts_S c (m ++ x)); congruence).
  subst c. discriminate.
Qed.

Lemma count_markers_script (segs : list segment) :
  forallb segment_ok segs = true -> count_markers (script segs) = length segs.
Proof.
  induction segs as [|g rest IH]; [reflexivity|]. intros H.
  simpl in H. apply andb_true_iff in H as [Hg Hrest].
  pose proof (segment_ok_inv g Hg) as (G1 & G2 & N1 & N2 & F & B).
  pose proof (match_marker_text g (body g ++ script rest) G1 G2 N1 N2) as M.
  pose proof (marker_tail_no_S g G2 N2) as T.
  cbn [script]. destruct (marker_text g) as [|c m] eqn:Em.
  { unfold marker_text in Em. discriminate. }
  simpl in T. simpl app in *. rewrite count_markers_cons, M.
  simpl length. f_equal.
  rewrite count_markers_no_S by assumption.
  rewrite count_markers_skip; auto using script_starts_S.
Qed.

End StoryParserFacts.

(** C3, as it holds: a text made of a marker-free prefix and [N >= 1]
    segments, each marker being followed by at least one character of body
    before the next marker or the end, has [N] marker occurrences; when
    the number of every marker has at most 4300 digits it parses to
    exactly [N] scenes, in order, each numbered by its marker's digits and
    described by its body stripped of surrounding white space; and when
    some number has more digits, the conversion of the first such number
    makes the call fail. *)
Theorem parse_story_script_scenes (pre : str) (segs : list segment) :
  marker_free pre = true -> forallb segment_ok segs = true -> segs <> [] ->
  count_markers (pre ++ script segs) = length segs /\
  (forallb number_ok segs = true ->
   parse_story_script (pre ++ script segs) = Ok (map scene_of_segment segs)) /\
  (forallb number_ok segs = false ->
   exists g, In g segs /\ number_ok g = false /\
     parse_story_script (pre ++ script segs)
     = Raise (too_many_digits (Z.of_nat (length (number g))))).
Proof.
  intros F H N. split.
  { rewrite count_markers_skip by auto using script_starts_S.
    now apply count_markers_script. }
  assert (P : parse_story_script (pre ++ script segs)
              = scene_list <-
                  map_result scene_of_match
                    (map (fun g => (number g, body g)) segs) ;;
                match scene_list with
                | [] => Raise NoScenesFound
                | _ :: _ => Ok scene_list
                end).
  { unfold parse_story_script.
    destruct (strip (pre ++ script segs)) eqn:E.
    { apply strip_nil_iff in E. rewrite script_not_blank in E by assumption.
      discriminate. }
    rewrite finditer_skip by auto using script_starts_S.
    rewrite matches_of_script; auto. rewrite length_app. lia. }
  rewrite P. split; intros K.
  - rewrite scenes_of_segments by assumption. cbn [bind].
    destruct segs; [congruence|reflexivity].
  - destruct (scenes_of_segments_long segs H K) as (g & I & Kg & ->).
    exists g. auto.
Qed.


Lemma parse_story_script_scenes_witness :
  parse_story_script (lit "Scene 1: A" ++ [newline] ++ lit "Scene 2: B")
  = Ok [ {| scene_number := 1; description := lit "A" |};
         {| scene_number := 2; description := lit "B" |} ].
Proof.
  apply (proj1 (proj2 (parse_story_script_scenes [] [seg_1A; seg_2B]
                         eq_refl eq_refl ltac:(discriminate)))).
  reflexivity.
Defined.

(** C3, as stated, fails where a marker directly follows another: the text
    below holds two markers and parses to a single scene, the second marker
    being swallowed by the body of the first. *)
Lemma parse_story_script_adjacent_markers :
  count_markers (lit "Scene 1:Scene 2: B") = 2%nat /\
  parse_story_script (lit "Scene 1:Scene 2: B")
  = Ok [ {| scene_number := 1; description := lit "Scene 2: B" |} ].
Proof. split; vm_compute; reflexivity. Qed.

Section OutcomeFacts.

Lemma finditer_nil_iff (f : nat) (s : str) :
  (length s <= f)%nat -> (finditer f s = [] <-> has_scene s = false).
Proof.
  revert f. induction s as [|c s IH]; intros f L.
  - destruct f; simpl; tauto.
  - destruct f as [|f]; [simpl in L; lia|].
    rewrite finditer_step by discriminate. simpl tl.
    cbn [has_scene]. unfold match_scene.
    destruct (match_marker (c :: s)) as [[ds [|d r]]|].
    + apply IH. simpl in L. lia.
    + destruct (lazy_body r). split; discriminate.
    + apply IH. simpl in L. lia.
Qed.

Lemma finditer_groups (f : nat) (s : str) :
  Forall (fun m => nonempty (fst m) = true /\ forallb is_digit (fst m) = true)
         (finditer f s).
Proof.
  revert s. induction f as [|f IH]; intros s; [constructor|].
  destruct s as [|c s]; [constructor|].
  rewrite finditer_step by discriminate. unfold match_scene.
  destruct (match_marker (c :: s)) as [[ds [|d r]]|] eqn:E; try apply IH.
  destruct (lazy_body r) as [b rest]. constructor; [|apply IH].
  apply match_marker_inv in E as (g & _ & <- & _ & _ & N1 & N2). auto.
Qed.

Lemma map_result_scenes (l : list (str * str)) :
  Forall (fun m => nonempty (fst m) = true /\ forallb is_digit (fst m) = true) l ->
  Forall (fun m => Z.of_nat (length (fst m)) <= max_str_digits) l ->
  exists l', map_result scene_of_match l = Ok l' /\ length l' = length l.
Proof.
  induction 1 as [|[g1 g2] l [N1 N2] _ IH]; intros S.
  - exists []. auto.
  - inversion S as [|? ? S1 S2]; subst. destruct (IH S2) as (l' & E & L).
    simpl in N1, N2, S1. cbn [map_result]. unfold scene_of_match at 1.
    rewrite int_of_str_digits, E by assumption. cbn [bind].
    eexists. split; [reflexivity|]. simpl. congruence.
Qed.

(** The loop over the matches fails only on a number of too many digits. *)
Lemma map_result_scenes_error (l : list (str * str)) (e : exn) :
  Forall (fun m => nonempty (fst m) = true /\ forallb is_digit (fst m) = true) l ->
  map_result scene_of_match l = Raise e ->
  exists k, max_str_digits < k /\ e = too_many_digits k.
Proof.
  induction 1 as [|[g1 g2] l [N1 N2] _ IH]; [discriminate|].
  simpl in N1, N2. cbn [map_result]. unfold scene_of_match at 1.
  rewrite int_of_str_digits_cases by assumption.
  destruct (max_str_digits <? Z.of_nat (length g1)) eqn:C; cbn [bind].
  - intros H. injection H as <-. apply Z.ltb_lt in C. eauto.
  - destruct (map_result scene_of_match l) as [l'|e']; cbn [bind];
      [discriminate|].
    intros H. injection H as <-. now apply IH.
Qed.

Lemma short_numbers_suffix (a x : str) :
  short_numbers (a ++ x) = true -> short_numbers x = true.
Proof.
  induction a as [|c a IH]; [auto|]. cbn [app short_numbers].
  destruct (match_marker (c :: a ++ x)) as [[ds r]|]; [|assumption].
  intros H. apply andb_true_iff in H as [_ H]. auto.
Qed.

Lemma match_scene_rest (c : ascii) (s g1 g2 rest : str) :
  match_scene (c :: s) = Some (g1, g2, rest) ->
  (exists r, match_marker (c :: s) = Some (g1, r)) /\ exists a, s = a ++ rest.
Proof.
  unfold match_scene.
  destruct (match_marker (c :: s)) as [[ds [|d r]]|] eqn:E; try discriminate.
  destruct (lazy_body r) as [b rest'] eqn:L. intros H. injection H as <- _ <-.
  split; [eauto|].
  apply lazy_body_app in L. apply match_marker_inv in E as (g & E & _).
  destruct (marker_text g) as [|c' m] eqn:Em; [unfold marker_text in Em; discriminate|].
  cbn [app] in E. injection E as _ E. subst r.
  exists (m ++ d :: b). rewrite E, <- app_assoc. reflexivity.
Qed.

(** Where no marker has a long number, no match has one. *)
Lemma finditer_short (f : nat) (s : str) :
  short_numbers s = true ->
  Forall (fun m => Z.of_nat (length (fst m)) <= max_str_digits) (finditer f s).
Proof.
  revert s. induction f as [|f IH]; intros s H; [constructor|].
  destruct s as [|c s]; [constructor|].
  rewrite finditer_step by discriminate. cbn [tl].
  destruct (match_scene (c :: s)) as [[[g1 g2] rest]|] eqn:E.
  - apply match_scene_rest in E as [[r M] [a ->]].
    cbn [short_numbers] in H. rewrite M in H.
    apply andb_true_iff in H as [H1 H2]. apply Z.leb_le in H1.
    constructor; [assumption|]. apply IH. eapply short_numbers_suffix; eauto.
  - apply IH. cbn [short_numbers] in H.
    destruct (match_marker (c :: s)) as [[ds r]|]; [|assumption].
    now apply andb_true_iff in H as [_ H].
Qed.

Lemma no_marker_no_scene (s : str) : count_markers s = 0%nat -> has_scene s = false.
Proof.
  induction s as [|c s IH]; [reflexivity|]. rewrite count_markers_cons.
  cbn [has_scene]. destruct (match_marker (c :: s)); [discriminate|assumption].
Qed.

Lemma parse_story_script_cases (s : str) :
  parse_story_script s =
  if forallb is_space s then Raise InvalidInput
  else if has_scene s then parse_story_script s
  else Raise NoScenesFound.
Proof.
  unfold parse_story_script.
  destruct (forallb is_space s) eqn:B.
  - apply strip_nil_iff in B. now rewrite B.
  - destruct (strip s) eqn:E; [apply strip_nil_iff in E; congruence|].
    destruct (has_scene s) eqn:H; [reflexivity|].
    apply (finditer_nil_iff (length s)) in H; [|lia]. now rewrite H.
Qed.

Lemma parse_story_script_ok (s : str) :
  forallb is_space s = false -> has_scene s = true ->
  short_numbers s = true ->
  exists l, l <> [] /\ parse_story_script s = Ok l.
Proof.
  intros B H S. unfold parse_story_script.
  destruct (strip s) eqn:E; [apply strip_nil_iff in E; congruence|].
  destruct (map_result_scenes _ (finditer_groups (length s) s)
              (finditer_short (length s) s S)) as (l' & M & L).
  rewrite M. cbn [bind]. destruct l' as [|x l'].
  - exfalso. simpl in L. symmetry in L. apply length_zero_iff_nil in L.
    apply finditer_nil_iff in L; [congruence|lia].
  - exists (x :: l'). split; [discriminate|reflexivity].
Qed.

(** The failures of [parse_story_script]. *)
Lemma parse_story_script_raises (s : str) (e : exn) :
  parse_story_script s = Raise e ->
  (e = InvalidInput /\ forallb is_space s = true) \/
  (e = NoScenesFound /\ forallb is_space s = false /\ has_scene s = false) \/
  (forallb is_space s = false /\
   exists k, max_str_digits < k /\ e = too_many_digits k).
Proof.
  unfold parse_story_script. destruct (strip s) eqn:B.
  { apply strip_nil_iff in B. intros H. injection H as <-. auto. }
  assert (B' : forallb is_space s = false).
  { destruct (forallb is_space s) eqn:X; [|reflexivity].
    apply strip_nil_iff in X. congruence. }
  destruct (map_result scene_of_match (finditer (length s) s)) as [l|e'] eqn:M;
    cbn [bind].
  - destruct l; [|discriminate]. intros H. injection H as <-.
    right. left. repeat split; auto.
    apply (finditer_nil_iff (length s)); [lia|].
    destruct (finditer (length s) s) as [|m ms]; [reflexivity|].
    cbn [map_result] in M. destruct (scene_of_match m); cbn [bind] in M;
      [|discriminate].
    destruct (map_result scene_of_match ms); cbn [bind] in M; discriminate.
  - intros H. injection H as <-. right. right. split; [assumption|].
    eapply map_result_scenes_error; eauto using finditer_groups.
Qed.

Lemma too_many_digits_other (k : Z) :
  too_many_digits k <> InvalidInput /\ too_many_digits k <> NoScenesFound.
Proof.
  split; intros X;
    cbv [too_many_digits InvalidInput NoScenesFound lit list_ascii_of_string app]
      in X;
    discriminate X.
Qed.

End OutcomeFacts.

(** C9, as it holds: [parse_story_script] fails with [InvalidInput] exactly
    when the text is empty or white space only; it fails with
    [NoScenesFound] exactly when the text is not blank and no marker in it
    is followed by at least one character, which covers the texts with no
    marker at all; when some marker is followed by a character and no
    marker has a number of more than 4300 digits it returns a non-empty
    scene list; and its only other failure is the one of the conversion
    of a number of more than 4300 digits, for a text that holds a marker
    with such a number. *)
Theorem parse_story_script_outcome (s : str) :
  (parse_story_script s = Raise InvalidInput <-> forallb is_space s = true) /\
  (parse_story_script s = Raise NoScenesFound
   <-> forallb is_space s = false /\ has_scene s = false) /\
  (forallb is_space s = false -> count_markers s = 0%nat ->
   parse_story_script s = Raise NoScenesFound) /\
  (forallb is_space s = false -> has_scene s = true ->
   short_numbers s = true ->
   exists l, l <> [] /\ parse_story_script s = Ok l) /\
  (forall e, parse_story_script s = Raise e ->
     e = InvalidInput \/ e = NoScenesFound \/
     (short_numbers s = false /\
      exists k, max_str_digits < k /\ e = too_many_digits k)).
Proof.
  pose proof (parse_story_script_cases s) as C.
  pose proof (parse_story_script_ok s) as K.
  pose proof (no_marker_no_scene s) as Z.
  pose proof (parse_story_script_raises s) as R.
  assert (D : InvalidInput <> NoScenesFound)
    by (intros X; vm_compute in X; discriminate).
  pose proof too_many_digits_other as T.
  split; [|split; [|split; [|split]]].
  - split.
    + intros E. destruct (R _ E) as [[_ B]|[[X _]|(_ & k & _ & X)]];
        [assumption|congruence|].
      symmetry in X. now apply T in X.
    + intros B. now rewrite C, B.
  - split.
    + intros E. destruct (R _ E) as [[X _]|[(_ & B & H)|(_ & k & _ & X)]];
        [congruence|auto|].
      symmetry in X. now apply T in X.
    + intros [B H]. now rewrite C, B, H.
  - intros B N. rewrite C, B, (Z N). reflexivity.
  - exact K.
  - intros e E. destruct (R _ E) as [[X _]|[[X _]|(B & k & L & X)]]; auto.
    right. right. split; [|eauto].
    destruct (short_numbers s) eqn:S; [|reflexivity].
    destruct (has_scene s) eqn:H.
    + destruct (K B eq_refl eq_refl) as (l & _ & E'). congruence.
    + rewrite C, B in E. injection E as <-.
      symmetry in X. now apply T in X.
Qed.

Lemma parse_story_script_outcome_witness :
  exists l, l <> [] /\ parse_story_script (lit "Scene 7: x") = Ok l.
Proof.
  apply (proj1 (proj2 (proj2 (proj2
           (parse_story_script_outcome (lit "Scene 7: x"))))));
    reflexivity.
Defined.

(** C9, as stated, fails on a text whose only marker ends the text: it is
    not blank and holds one marker, yet the result is [NoScenesFound], not a
    scene list. *)
Lemma parse_story_script_trailing_marker :
  forallb is_space (lit "Scene 1:") = false /\
  count_markers (lit "Scene 1:") = 1%nat /\
  parse_story_script (lit "Scene 1:") = Raise NoScenesFound.
Proof. repeat split; vm_compute; reflexivity. Qed.

Section Decomposition.

Lemma marker_ok_intro (g : segment) :
  nonempty (gap g) = true -> forallb is_space (gap g) = true ->
  nonempty (number g) = true -> forallb is_digit (number g) = true ->
  marker_free (body g) = true -> marker_ok g = true.
Proof. unfold marker_ok. now intros -> -> -> -> ->. Qed.

(** Every text is a marker-free prefix followed by segments; so the only
    texts the theorem on scenes leaves out are those in which some marker
    is directly followed by another marker or by the end. *)
Lemma script_decomposition (s : str) :
  exists pre segs,
    s = pre ++ script segs /\ marker_free pre = true /\
    forallb marker_ok segs = true.
Proof.
  remember (length s) as n eqn:L. revert s L.
  induction n as [n IH] using lt_wf_ind. intros s L.
  destruct s as [|c r].
  - exists [], []. auto.
  - destruct (match_marker (c :: r)) as [[ds rest]|] eqn:M.
    + pose proof M as M'. apply match_marker_inv in M'
        as (g & E & En & G1 & G2 & N1 & N2).
      assert (Lr : (length rest < n)%nat).
      { subst n. rewrite E, length_app. unfold marker_text.
        rewrite !length_app. simpl. lia. }
      destruct (IH (length rest) Lr rest eq_refl) as (pre & segs & E' & F & K).
      exists [], ({| gap := gap g; number := number g; body := pre |} :: segs).
      split; [|split; [reflexivity|]].
      * rewrite E, E'. cbn [script app]. unfold marker_text. cbn [gap number body].
        rewrite <- !app_assoc. reflexivity.
      * cbn [forallb]. rewrite K, andb_true_r. now apply marker_ok_intro.
    + assert (Lr : (length r < n)%nat) by (subst n; simpl; lia).
      destruct (IH (length r) Lr r eq_refl) as (pre & segs & E' & F & K).
      exists (c :: pre), segs. split; [|split; [|assumption]].
      * rewrite E'. reflexivity.
      * cbn [marker_free].
        destruct (match_marker (c :: pre)) as [[ds rest]|] eqn:M2; [|assumption].
        apply (match_marker_extend _ (script segs)) in M2.
        cbn [app] in M2. rewrite <- E' in M2. congruence.
Qed.

End Decomposition.

Import Srt Subtitles SubtitleText.

Section SrtErrorFacts.

Lemma int_of_str_error (s : str) (e : exn) :
  int_of_str s = Raise e -> exists m, e = ValueError m.
Proof.
  unfold int_of_str, too_many_digits.
  destruct (strip s) as [|c r]; [|destruct (Ascii.eqb c "-"); [|destruct (Ascii.eqb c "+")]];
    match goal with |- context [int_digits ?a ?b ?x] => destruct (int_digits a b x) end;
    try match goal with |- context [max_str_digits <? ?x] =>
          destruct (max_str_digits <? x) end;
    intros H; inversion H; eauto.
Qed.

Lemma str_of_int_error (n : Z) (e : exn) :
  str_of_int n = Raise e -> exists m, e = ValueError m.
Proof.
  unfold str_of_int. destruct (printable n); intros H; inversion H; eauto.
Qed.

Lemma unpack2_error (l : list str) (e : exn) :
  unpack2 l = Raise e -> exists m, e = ValueError m.
Proof.
  destruct l as [|a [|b [|c l]]]; simpl; intros H; inversion H; eauto.
Qed.

(** Whatever goes wrong inside the [try] is a [ValueError]. *)
Lemma parse_block_error (lines : list str) (e : exn) :
  parse_block lines = Raise e -> exists m, e = ValueError m.
Proof.
  unfold parse_block.
  destruct (int_of_str (nth 0 lines [])) as [i|e0] eqn:I; cbn [bind].
  - destruct (negb (match_timing (nth 1 lines []))).
    + destruct (str_of_int i) as [shown|e1] eqn:S; cbn [bind];
        intros H; inversion H; subst; eauto using str_of_int_error.
    + destruct (unpack2 (split (lit " --> ") (nth 1 lines []))) as [[a b]|e1] eqn:U;
        cbn [bind].
      * discriminate.
      * intros H; inversion H; subst. eapply unpack2_error; eauto.
  - intros H; inversion H; subst. eapply int_of_str_error; eauto.
Qed.

(** So the [except] clause replaces every failure of a block. *)
Lemma try_block_error (block : str) (lines : list str) (e : exn) :
  try_except_ValueError (parse_block lines) (Raise (InvalidBlock block)) = Raise e ->
  e = InvalidBlock block.
Proof.
  destruct (parse_block lines) as [x|e0] eqn:P; simpl; [discriminate|].
  destruct (parse_block_error _ _ P) as [m ->]. congruence.
Qed.

Lemma parse_blocks_cons (b : str) (rest : list str) :
  parse_blocks (b :: rest) =
  if (length (lines_of b) <? 3)%nat then parse_blocks rest
  else
    entry <- try_except_ValueError (parse_block (lines_of b))
               (Raise (InvalidBlock b)) ;;
    entries <- parse_blocks rest ;;
    Ok (entry :: entries).
Proof. reflexivity. Qed.

Lemma parse_blocks_error (blocks : list str) (e : exn) :
  parse_blocks blocks = Raise e -> exists block, In block blocks /\ e = InvalidBlock block.
Proof.
  induction blocks as [|b rest IH]; [discriminate|].
  rewrite parse_blocks_cons.
  destruct (length (lines_of b) <? 3)%nat.
  - intros H. destruct (IH H) as (x & ? & ?). exists x. simpl. auto.
  - destruct (try_except_ValueError (parse_block (lines_of b))
                (Raise (InvalidBlock b))) as [x|e0] eqn:T; cbn [bind].
    + destruct (parse_blocks rest) as [l|e1]; cbn [bind]; [discriminate|].
      intros H; inversion H; subst. destruct (IH eq_refl) as (x' & ? & ?).
      exists x'. simpl. auto.
    + intros H; inversion H; subst. apply try_block_error in T.
      exists b. simpl. auto.
Qed.

Lemma parse_srt_error (s : str) (e : exn) :
  parse_srt s = Raise e ->
  e = InvalidContent \/ e = MalformedFormat \/ exists block, e = InvalidBlock block.
Proof.
  unfold parse_srt. destruct (strip s) as [|c r] eqn:E.
  - intros H; inversion H. auto.
  - match goal with |- context [negb ?x] => destruct (negb x) end.
    + intros H; inversion H. auto.
    + intros H. apply parse_blocks_error in H as (b & _ & ->). eauto.
Qed.

End SrtErrorFacts.

(** C6, as the code has it: the failure raised for a timing line that does
    not match the pattern is caught by the [except] clause of the same
    [try], so [parse_srt] never fails with [MalformedTiming]; on the example
    without milliseconds the failure that reaches the caller is the one of
    the [except] clause, which quotes the block. *)
Theorem parse_srt_timing_error_masked :
  (forall (s : str) (index : Z), parse_srt s <> Raise (MalformedTiming index)) /\
  parse_srt (lit "1" ++ [newline] ++ lit "00:00:01 --> 00:00:02" ++ [newline] ++ lit "Text")
  = Raise (InvalidBlock
             (lit "1" ++ [newline] ++ lit "00:00:01 --> 00:00:02" ++ [newline] ++ lit "Text")).
Proof.
  split; [|vm_compute; reflexivity].
  intros s index H. apply parse_srt_error in H as [H|[H|[b H]]];
    cbv [MalformedTiming InvalidContent MalformedFormat InvalidBlock
         lit list_ascii_of_string app] in H;
    discriminate H.
Qed.

Section SrtSeparatorFacts.

Lemma split_no_sep (sep s : str) : find_sep sep s = None -> split sep s = [s].
Proof.
  intros H. unfold split. destruct (length s); simpl; [reflexivity|].
  now rewrite H.
Qed.

(** Without the literal separator in the timing line the unpacking of the
    split fails, if nothing failed before. *)
Lemma parse_block_no_sep (lines : list str) :
  find_sep (lit " --> ") (nth 1 lines []) = None ->
  exists e, parse_block lines = Raise e.
Proof.
  intros H. unfold parse_block.
  destruct (int_of_str (nth 0 lines [])) as [i|e0]; cbn [bind]; [|eauto].
  destruct (negb (match_timing (nth 1 lines [])));
    [destruct (str_of_int i); cbn [bind]; eauto|].
  rewrite split_no_sep by assumption. cbn [unpack2 bind]. eauto.
Qed.

Lemma parse_blocks_bad_block (blocks : list str) (k : nat) (block : str) :
  nth_error blocks k = Some block ->
  (3 <= length (lines_of block))%nat ->
  (exists e, parse_block (lines_of block) = Raise e) ->
  exists e, parse_blocks blocks = Raise e.
Proof.
  revert k. induction blocks as [|b rest IH]; intros k N L [e P].
  - destruct k; discriminate.
  - rewrite parse_blocks_cons. destruct k as [|k]; simpl in N.
    + inversion N; subst b. apply Nat.ltb_ge in L. rewrite L, P.
      destruct (parse_block_error _ _ P) as [m ->]. cbn. eauto.
    + destruct (length (lines_of b) <? 3)%nat; [eapply IH; eauto|].
      destruct (try_except_ValueError _ _); cbn [bind]; [|eauto].
      destruct (IH k N L (ex_intro _ e P)) as [e' ->]. cbn. eauto.
Qed.

End SrtSeparatorFacts.

(** C10, as it holds: when some block of at least three lines has a timing
    line that passes the validation pattern but does not contain the
    literal [" --> "], that is, the arrow lacks a space directly before it
    or directly after it, [parse_srt] raises an error and returns no
    entries. *)
Theorem parse_srt_missing_separator
    (srt_content : str) (k : nat) (block timing : str) :
  nth_error (blocks_of srt_content) k = Some block ->
  (3 <=? length (lines_of block))%nat = true ->
  nth 1 (lines_of block) [] = timing ->
  match_timing timing = true ->
  find_sep (lit " --> ") timing = None ->
  exists e, parse_srt srt_content = Raise e.
Proof.
  intros N L T _ F. apply Nat.leb_le in L. unfold parse_srt.
  destruct (strip srt_content) as [|c r] eqn:E; [eauto|].
  match goal with |- context [negb ?x] => destruct (negb x) end; [eauto|].
  unfold blocks_of in N. rewrite E in N.
  eapply parse_blocks_bad_block; eauto.
  apply parse_block_no_sep. now rewrite T.
Qed.


Lemma parse_srt_missing_separator_witness :
  exists e, parse_srt srt_no_spaces = Raise e.
Proof.
  apply (parse_srt_missing_separator srt_no_spaces 0 srt_no_spaces
           (lit "00:00:01,000-->00:00:02,000")); reflexivity.
Defined.

(** C10, as stated, fails for several spaces around the arrow: the line
    passes the validation pattern, its arrow is not surrounded by exactly
    one space on each side, and the entry is returned all the same, the
    extra spaces being stripped from the two time stamps. *)
Lemma parse_srt_wide_separator :
  match_timing (lit "00:00:01,000  -->  00:00:02,000") = true /\
  parse_srt (lit "1" ++ [newline] ++ lit "00:00:01,000  -->  00:00:02,000"
             ++ [newline] ++ lit "Text")
  = Ok [ {| index := 1; start_time := lit "00:00:01,000";
            end_time := lit "00:00:02,000"; text := lit "Text" |} ].
Proof. split; vm_compute; reflexivity. Qed.


Section IntTextFacts.

Lemma digit_char (d : Z) :
  0 <= d < 10 ->
  is_digit (ascii_of_N (Z.to_N (48 + d))) = true /\
  digit_val (ascii_of_N (Z.to_N (48 + d))) = d.
Proof.
  intros H.
  assert (C : d = 0 \/ d = 1 \/ d = 2 \/ d = 3 \/ d = 4 \/ d = 5 \/ d = 6
              \/ d = 7 \/ d = 8 \/ d = 9) by lia.
  repeat (destruct C as [->|C]; [vm_compute; auto|]). subst; vm_compute; auto.
Qed.

(** The digits written for [n >= 1] read back as [n]. *)
Lemma digits_fuel_spec (f : nat) (n : Z) (acc : str) :
  1 <= n -> n < 2 ^ Z.of_nat f ->
  exists ds, digits_fuel f n acc = ds ++ acc /\ nonempty ds = true /\
             forallb is_digit ds = true /\
             forall a, fold_left decimal_step ds a
                       = a * 10 ^ Z.of_nat (length ds) + n.
Proof.
  revert n acc. induction f as [|f IH]; intros n acc L U.
  - simpl in U. lia.
  - cbn [digits_fuel].
    assert (M : 0 <= n mod 10 < 10) by (apply Z.mod_pos_bound; lia).
    destruct (digit_char _ M) as [D V].
    set (d := ascii_of_N (Z.to_N (48 + n mod 10))) in *.
    destruct (n <? 10) eqn:E.
    + apply Z.ltb_lt in E. exists [d]. repeat split.
      * simpl. now rewrite D.
      * intros a. simpl. unfold decimal_step. rewrite V.
        rewrite Z.mod_small by lia. lia.
    + apply Z.ltb_ge in E.
      assert (L' : 1 <= n / 10) by (apply Z.div_le_lower_bound; lia).
      assert (U' : n / 10 < 2 ^ Z.of_nat f).
      { apply Z.div_lt_upper_bound; [lia|].
        rewrite Nat2Z.inj_succ, Z.pow_succ_r in U by lia. lia. }
      destruct (IH (n / 10) (d :: acc) L' U') as (ds & E1 & N1 & D1 & F1).
      exists (ds ++ [d]). repeat split.
      * rewrite E1, <- app_assoc. reflexivity.
      * destruct ds; reflexivity.
      * rewrite forallb_app, D1. simpl. now rewrite D.
      * intros a. rewrite fold_left_app, F1. simpl. unfold decimal_step at 1.
        rewrite V, length_app. simpl length.
        rewrite Nat2Z.inj_add, Z.pow_add_r by lia. change (Z.of_nat 1) with 1.
        rewrite Z.pow_1_r. pose proof (Z.div_mod n 10). lia.
Qed.

Lemma decimal_text_pos (p : positive) :
  exists ds, decimal_text (Zpos p) = ds /\ nonempty ds = true /\
             forallb is_digit ds = true /\ decimal_value ds = Zpos p.
Proof.
  assert (U : Zpos p < 2 ^ Z.of_nat (Pos.to_nat (Pos.size p))).
  { rewrite positive_nat_Z. pose proof (Pos.size_gt p) as G.
    rewrite <- Pos2Z.inj_pow. apply Pos2Z.pos_lt_pos. exact G. }
  destruct (digits_fuel_spec _ (Zpos p) [] ltac:(lia) U) as (ds & E & N & D & F).
  exists ds. rewrite app_nil_r in E. repeat split; auto.
  unfold decimal_value. fold decimal_step. rewrite F. lia.
Qed.

Lemma trimmed_ends (c : ascii) (m : str) (d : ascii) :
  is_space c = false -> is_space d = false -> trimmed (c :: m ++ [d]) = true.
Proof.
  intros C D. unfold trimmed. rewrite C.
  change (c :: m ++ [d]) with ((c :: m) ++ [d]). rewrite last_last, D. reflexivity.
Qed.

Lemma digits_last (ds : str) :
  nonempty ds = true -> forallb is_digit ds = true ->
  exists m d, ds = m ++ [d] /\ is_digit d = true /\ forallb is_digit m = true.
Proof.
  intros N D. destruct (exists_last (l := ds)) as (m & d & E).
  { destruct ds; [discriminate|discriminate]. }
  subst ds. rewrite forallb_app in D. apply andb_true_iff in D as [D1 D2].
  simpl in D2. apply andb_true_iff in D2 as [D2 _]. eauto.
Qed.

Lemma digit_count_pos (p : positive) (ds : str) :
  decimal_text (Zpos p) = ds -> digit_count (Zpos p) = Z.of_nat (length ds).
Proof. intros <-. reflexivity. Qed.

(** The decimal text of [n] reads back as [n], when [n] is within the
    limit of the conversions. *)
Lemma int_of_str_decimal_text (n : Z) :
  printable n = true -> int_of_str (decimal_text n) = Ok n.
Proof.
  unfold printable. intros P. apply Z.leb_le in P.
  destruct n as [|p|p].
  - reflexivity.
  - destruct (decimal_text_pos p) as (ds & E & N & D & V).
    rewrite (digit_count_pos p ds E) in P.
    rewrite E, int_of_str_digits by assumption. now rewrite V.
  - destruct (decimal_text_pos p) as (ds & E & N & D & V).
    change (digit_count (Zneg p)) with (digit_count (Zpos p)) in P.
    rewrite (digit_count_pos p ds E) in P.
    change (decimal_text (Zneg p)) with ("-"%char :: decimal_text (Zpos p)).
    rewrite E. destruct (digits_last ds N D) as (m & d & -> & Dd & Dm).
    unfold int_of_str. rewrite strip_trimmed.
    2:{ apply trimmed_ends; [reflexivity|now apply digit_not_space]. }
    change (Ascii.eqb "-" "-") with true. cbv iota.
    rewrite int_digits_all; [|assumption|right; destruct m; discriminate].
    rewrite filter_digits by assumption.
    apply Z.ltb_ge in P. rewrite P.
    fold decimal_step. unfold decimal_value in V. fold decimal_step in V.
    rewrite V. reflexivity.
Qed.

(** The first digit written for [n >= 1] is not a zero. *)
Lemma digits_fuel_length (f : nat) (n : Z) (acc : str) :
  1 <= n -> n < 2 ^ Z.of_nat f ->
  exists ds, digits_fuel f n acc = ds ++ acc /\
             10 ^ (Z.of_nat (length ds) - 1) <= n.
Proof.
  revert n acc. induction f as [|f IH]; intros n acc L U.
  - simpl in U. lia.
  - cbn [digits_fuel].
    set (d := ascii_of_N (Z.to_N (48 + n mod 10))).
    destruct (n <? 10) eqn:E.
    + exists [d]. split; [reflexivity|]. cbn [length]. simpl. lia.
    + apply Z.ltb_ge in E.
      assert (L' : 1 <= n / 10) by (apply Z.div_le_lower_bound; lia).
      assert (U' : n / 10 < 2 ^ Z.of_nat f).
      { apply Z.div_lt_upper_bound; [lia|].
        rewrite Nat2Z.inj_succ, Z.pow_succ_r in U by lia. lia. }
      destruct (IH (n / 10) (d :: acc) L' U') as (ds & E1 & B).
      exists (ds ++ [d]). split.
      * rewrite E1, <- app_assoc. reflexivity.
      * rewrite length_app. cbn [length]. rewrite Nat2Z.inj_add.
        change (Z.of_nat 1) with 1.
        assert (Hl : 1 <= Z.of_nat (length ds)).
        { destruct ds as [|x ds]; [|cbn [length]; lia].
          cbn [app] in E1. exfalso.
          assert (X : (length (digits_fuel f (n / 10) (d :: acc))
                       = length (d :: acc))%nat) by now rewrite E1.
          clear - X L' U'. revert X. generalize (d :: acc).
          revert L' U'. generalize (n / 10). clear.
          induction f as [|f IH]; intros n L U acc X.
          - simpl in U. lia.
          - cbn [digits_fuel] in X. destruct (n <? 10) eqn:E.
            + cbn [length] in X. lia.
            + apply Z.ltb_ge in E.
              assert (L' : 1 <= n / 10) by (apply Z.div_le_lower_bound; lia).
              assert (U' : n / 10 < 2 ^ Z.of_nat f).
              { apply Z.div_lt_upper_bound; [lia|].
                rewrite Nat2Z.inj_succ, Z.pow_succ_r in U by lia. lia. }
              destruct (digits_fuel_spec f (n / 10)
                          (ascii_of_N (Z.to_N (48 + n mod 10)) :: acc) L' U')
                as (ds & E1 & _).
              rewrite E1, length_app in X. cbn [length] in X. lia. }
        replace (Z.of_nat (length ds) + 1 - 1)
          with (Z.succ (Z.of_nat (length ds) - 1)) by lia.
        rewrite Z.pow_succ_r by lia.
        pose proof (Z.div_mod n 10 ltac:(lia)).
        pose proof (Z.mod_pos_bound n 10 ltac:(lia)). lia.
Qed.

(** A number below [10^k] has at most [k] digits. *)
Lemma digit_count_bound (n k : Z) :
  1 <= k -> Z.abs n < 10 ^ k -> digit_count n <= k.
Proof.
  intros K B. unfold digit_count.
  destruct (Z.abs n) as [|p|p] eqn:A; [simpl; lia| |lia].
  assert (U : Zpos p < 2 ^ Z.of_nat (Pos.to_nat (Pos.size p))).
  { rewrite positive_nat_Z. pose proof (Pos.size_gt p) as G.
    rewrite <- Pos2Z.inj_pow. apply Pos2Z.pos_lt_pos. exact G. }
  destruct (digits_fuel_length _ (Zpos p) [] ltac:(lia) U) as (ds & E & L).
  rewrite app_nil_r in E. cbn [decimal_text]. rewrite E.
  destruct (Z_le_gt_dec (Z.of_nat (length ds)) k) as [?|G]; [assumption|].
  exfalso. assert (10 ^ k <= 10 ^ (Z.of_nat (length ds) - 1))
    by (apply Z.pow_le_mono_r; lia). lia.
Qed.

Lemma digit_val_range (c : ascii) : is_digit c = true -> 0 <= digit_val c <= 9.
Proof.
  unfold is_digit, digit_val. intros H. apply andb_true_iff in H as [A B].
  apply N.leb_le in A, B. lia.
Qed.

(** The value of an [int] literal, by the number of its digits. *)
Lemma int_digits_bound (s : str) (acc : Z) (b : bool) (v : Z) :
  int_digits acc b s = Some v -> 0 <= acc ->
  acc * 10 ^ Z.of_nat (length (filter is_digit s)) <= v
  < (acc + 1) * 10 ^ Z.of_nat (length (filter is_digit s)).
Proof.
  revert acc b. induction s as [|c s IH]; intros acc b H A.
  - cbn [int_digits] in H. destruct b; [|discriminate]. injection H as <-.
    cbn. lia.
  - cbn [int_digits filter] in *. destruct (is_digit c) eqn:D.
    + apply IH in H; [|pose proof (digit_val_range c D); lia].
      pose proof (digit_val_range c D) as R.
      cbn [length]. rewrite Nat2Z.inj_succ, Z.pow_succ_r by lia.
      set (P := 10 ^ Z.of_nat (length (filter is_digit s))) in *.
      assert (0 < P) by (apply Z.pow_pos_nonneg; lia). nia.
    + destruct (Ascii.eqb c "_" && b); [|discriminate]. eauto.
Qed.

Lemma int_digits_some_digit (s : str) (acc v : Z) :
  int_digits acc false s = Some v -> (1 <= length (filter is_digit s))%nat.
Proof.
  destruct s as [|c s]; [discriminate|]. cbn [int_digits filter].
  destruct (is_digit c); [cbn [length]; lia|]. rewrite andb_false_r. discriminate.
Qed.

(** What [int] returns can be converted back to text. *)
Lemma int_of_str_printable (s : str) (n : Z) :
  int_of_str s = Ok n -> printable n = true.
Proof.
  unfold int_of_str.
  set (nb := match strip s with
             | c :: r =>
                 if Ascii.eqb c "-" then (true, r)
                 else if Ascii.eqb c "+" then (false, r) else (false, strip s)
             | [] => (false, strip s)
             end).
  destruct nb as [neg body].
  destruct (int_digits 0 false body) as [v|] eqn:E; [|discriminate].
  destruct (max_str_digits <? Z.of_nat (length (filter is_digit body))) eqn:C;
    [discriminate|].
  intros H. injection H as <-. apply Z.ltb_ge in C.
  pose proof (int_digits_bound body 0 false v E ltac:(lia)) as B.
  pose proof (int_digits_some_digit body 0 v E) as O.
  unfold printable. apply Z.leb_le.
  eapply Z.le_trans; [|exact C].
  apply digit_count_bound; [lia|]. destruct neg; lia.
Qed.

End IntTextFacts.

Section TimestampFacts.

Lemma digit_plain c :
  is_digit c = true -> is_space c = false /\ is_newline c = false.
Proof. destruct c as [[] [] [] [] [] [] [] []]; vm_compute; intuition congruence. Qed.

Lemma timestamp_ok_inv (t : str) :
  timestamp_ok t = true ->
  exists h1 h2 m1 m2 s1 s2 f1 f2 f3,
    t = [h1; h2; ":"; m1; m2; ":"; s1; s2; ","; f1; f2; f3]%char /\
    is_digit h1 = true /\ is_digit h2 = true /\ is_digit m1 = true /\
    is_digit m2 = true /\ is_digit s1 = true /\ is_digit s2 = true /\
    is_digit f1 = true /\ is_digit f2 = true /\ is_digit f3 = true.
Proof.
  unfold timestamp_ok, match_timestamp.
  destruct t as [|h1 [|h2 [|c1 [|m1 [|m2 [|c2 [|s1 [|s2 [|c3 [|f1 [|f2 [|f3 r]]]]]]]]]]]];
    try discriminate.
  match goal with |- context [if ?b then _ else _] => destruct b eqn:B end;
    [|discriminate].
  destruct r; [|discriminate]. intros _.
  do 11 (apply andb_true_iff in B as [B ?]).
  repeat match goal with H : Ascii.eqb _ _ = true |- _ =>
    apply Ascii.eqb_eq in H; subst end.
  exists h1, h2, m1, m2, s1, s2, f1, f2, f3.
  repeat split; try assumption; reflexivity.
Qed.

Lemma timestamp_no_space (t : str) : timestamp_ok t = true -> no_space t = true.
Proof.
  intros H. apply timestamp_ok_inv in H
    as (h1 & h2 & m1 & m2 & s1 & s2 & f1 & f2 & f3 & -> & H).
  unfold no_space. cbn [forallb].
  repeat match goal with H : _ /\ _ |- _ => destruct H end.
  repeat match goal with H : is_digit _ = true |- _ =>
    apply digit_plain in H as [-> _] end.
  reflexivity.
Qed.

Lemma timestamp_no_newline (t : str) : timestamp_ok t = true -> no_newline t = true.
Proof.
  intros H. apply timestamp_ok_inv in H
    as (h1 & h2 & m1 & m2 & s1 & s2 & f1 & f2 & f3 & -> & H).
  unfold no_newline. cbn [forallb].
  repeat match goal with H : _ /\ _ |- _ => destruct H end.
  repeat match goal with H : is_digit _ = true |- _ =>
    apply digit_plain in H as [_ ->] end.
  reflexivity.
Qed.

Lemma match_timestamp_app (t r : str) :
  timestamp_ok t = true -> match_timestamp (t ++ r) = Some r.
Proof.
  intros H. apply timestamp_ok_inv in H
    as (h1 & h2 & m1 & m2 & s1 & s2 & f1 & f2 & f3 & -> & H).
  repeat match goal with H : _ /\ _ |- _ => destruct H end.
  cbn [app match_timestamp].
  repeat match goal with H : is_digit _ = true |- _ => rewrite H; clear H end.
  reflexivity.
Qed.

Lemma no_space_head (s : str) : no_space s = true -> drop_while is_space s = s.
Proof.
  destruct s as [|c s]; [reflexivity|]. unfold no_space. simpl.
  intros H. apply andb_true_iff in H as [H _]. apply negb_true_iff in H.
  now rewrite H.
Qed.

Lemma no_space_trimmed (s : str) : no_space s = true -> trimmed s = true.
Proof.
  intros H. destruct s as [|c s]; [reflexivity|]. unfold trimmed.
  unfold no_space in H. rewrite forallb_forall in H.
  rewrite (H c) by (left; reflexivity).
  rewrite H; [reflexivity|].
  destruct (exists_last (l := c :: s)) as (a & d & E); [discriminate|].
  rewrite E at 1. rewrite last_last. rewrite E. apply in_or_app. right. now left.
Qed.

(** The validation pattern accepts what [save_srt] writes. *)
Lemma match_timing_written (a b : str) :
  timestamp_ok a = true -> timestamp_ok b = true ->
  match_timing (a ++ lit " --> " ++ b) = true.
Proof.
  intros A B. unfold match_timing. rewrite match_timestamp_app by assumption.
  change (drop_while is_space (lit " --> " ++ b)) with (lit "--> " ++ b).
  change (strip_prefix (lit "-->") (lit "--> " ++ b))
    with (Some (lit " " ++ b)).
  cbv iota beta.
  change (drop_while is_space (lit " " ++ b)) with (drop_while is_space b).
  rewrite no_space_head by now apply timestamp_no_space.
  rewrite <- (app_nil_r b), match_timestamp_app by assumption. reflexivity.
Qed.

Lemma space_eqb (c : ascii) : is_space c = false -> Ascii.eqb " " c = false.
Proof. destruct c as [[] [] [] [] [] [] [] []]; vm_compute; congruence. Qed.

Lemma find_sep_none (b : str) :
  no_space b = true -> find_sep (lit " --> ") b = None.
Proof.
  induction b as [|c b IH]; [reflexivity|]. unfold no_space. simpl forallb.
  intros H. apply andb_true_iff in H as [H1 H2]. apply negb_true_iff in H1.
  cbn [find_sep]. change (strip_prefix (lit " --> ") (c :: b))
    with (if Ascii.eqb " " c then strip_prefix (lit "--> ") b else None).
  rewrite space_eqb by assumption. now rewrite IH.
Qed.

Lemma find_sep_app (a b : str) :
  no_space a = true ->
  find_sep (lit " --> ") (a ++ lit " --> " ++ b) = Some (a, b).
Proof.
  induction a as [|c a IH].
  - intros _. cbn [app]. destruct b; reflexivity.
  - unfold no_space. simpl forallb.
    intros H. apply andb_true_iff in H as [H1 H2]. apply negb_true_iff in H1.
    cbn [find_sep app].
    change (strip_prefix (lit " --> ") (c :: a ++ lit " --> " ++ b))
      with (if Ascii.eqb " " c then strip_prefix (lit "--> ") (a ++ lit " --> " ++ b)
            else None).
    rewrite space_eqb by assumption. now rewrite IH.
Qed.

(** Splitting the written timing line gives back the two time stamps. *)
Lemma split_written (a b : str) :
  no_space a = true -> no_space b = true ->
  split (lit " --> ") (a ++ lit " --> " ++ b) = [a; b].
Proof.
  intros A B. unfold split. rewrite length_app. cbn [lit list_ascii_of_string app length].
  rewrite Nat.add_succ_r. cbn [split_fuel].
  change (a ++ " "%char :: "-"%char :: "-"%char :: ">"%char :: " "%char :: b)
    with (a ++ lit " --> " ++ b).
  rewrite find_sep_app by assumption. f_equal.
  match goal with |- split_fuel ?f _ _ = _ => destruct f end; cbn [split_fuel];
    [reflexivity|]. now rewrite find_sep_none.
Qed.

End TimestampFacts.

Section SplitFacts.

Lemma re_split_blank_nonempty (b : bool) (s : str) : re_split_blank b s <> [].
Proof.
  revert b. induction s as [|c s IH]; intros b; simpl; [discriminate|].
  destruct (b && is_newline c); [apply IH|].
  destruct (is_newline c && starts_newline s); [discriminate|].
  destruct (re_split_blank false s); discriminate.
Qed.

Lemma prepend_nil (pieces : list str) : pieces <> [] -> prepend [] pieces = pieces.
Proof. destruct pieces; [congruence|reflexivity]. Qed.

Lemma prepend_prepend (a b : str) (pieces : list str) :
  prepend a (prepend b pieces) = prepend (a ++ b) pieces.
Proof. unfold prepend. simpl. now rewrite app_assoc. Qed.

Lemma re_split_blank_char (c : ascii) (s : str) :
  is_newline c && starts_newline s = false ->
  re_split_blank false (c :: s) = prepend [c] (re_split_blank false s).
Proof.
  intros H. cbn [re_split_blank andb]. rewrite H.
  pose proof (re_split_blank_nonempty false s).
  destruct (re_split_blank false s); [congruence|reflexivity].
Qed.

(** A stretch without newlines stays in one piece. *)
Lemma re_split_blank_line (l rest : str) :
  no_newline l = true ->
  re_split_blank false (l ++ rest) = prepend l (re_split_blank false rest).
Proof.
  induction l as [|c l IH]; intros H.
  - simpl. symmetry. apply prepend_nil, re_split_blank_nonempty.
  - unfold no_newline in H. simpl in H. apply andb_true_iff in H as [Hc Hl].
    apply negb_true_iff in Hc. simpl app.
    rewrite re_split_blank_char by now rewrite Hc.
    rewrite IH by assumption. apply prepend_prepend.
Qed.

(** A single newline does not separate. *)
Lemma re_split_blank_newline (rest : str) :
  starts_newline rest = false ->
  re_split_blank false (newline :: rest) = prepend [newline] (re_split_blank false rest).
Proof. intros H. apply re_split_blank_char. rewrite H. apply andb_false_r. Qed.

(** A blank line separates. *)
Lemma re_split_blank_sep (rest : str) :
  starts_newline rest = false ->
  re_split_blank false (blank_line ++ rest) = [] :: re_split_blank false rest.
Proof.
  intros H. unfold blank_line. cbn [app re_split_blank andb starts_newline].
  change (is_newline newline) with true. cbn [andb]. f_equal.
  destruct rest as [|c r]; [reflexivity|]. simpl in H.
  cbn [re_split_blank andb]. now rewrite H.
Qed.

Lemma split_lines_nonempty (s : str) : split_lines s <> [].
Proof.
  induction s as [|c s IH]; simpl; [discriminate|].
  destruct (is_newline c); [discriminate|]. destruct (split_lines s); discriminate.
Qed.

Lemma split_lines_line (l rest : str) :
  no_newline l = true ->
  split_lines (l ++ newline :: rest) = l :: split_lines rest.
Proof.
  induction l as [|c l IH]; intros H.
  - reflexivity.
  - unfold no_newline in H. simpl in H. apply andb_true_iff in H as [Hc Hl].
    apply negb_true_iff in Hc. simpl. rewrite Hc, IH by assumption. reflexivity.
Qed.

Lemma split_lines_last (l : str) : no_newline l = true -> split_lines l = [l].
Proof.
  induction l as [|c l IH]; intros H; [reflexivity|].
  unfold no_newline in H. simpl in H. apply andb_true_iff in H as [Hc Hl].
  apply negb_true_iff in Hc. simpl. rewrite Hc, IH by assumption. reflexivity.
Qed.

Lemma last_app_nonempty (a b : str) (d : ascii) :
  b <> [] -> last (a ++ b) d = last b d.
Proof.
  intros H. induction a as [|c a IH]; [reflexivity|].
  simpl. destruct (a ++ b) eqn:E; [|assumption].
  apply app_eq_nil in E as [_ ->]. congruence.
Qed.

Lemma trimmed_spec (s : str) (d : ascii) :
  s <> [] ->
  trimmed s = negb (is_space (hd d s)) && negb (is_space (last s d)).
Proof.
  destruct s as [|c s]; [congruence|]. intros _. unfold trimmed. simpl hd.
  f_equal. f_equal. f_equal.
  destruct (exists_last (l := c :: s)) as (a & x & E); [discriminate|].
  rewrite E, !last_last. reflexivity.
Qed.

(** What lies between two trimmed texts does not matter. *)
Lemma trimmed_app (a m b : str) :
  a <> [] -> b <> [] -> trimmed a = true -> trimmed b = true ->
  trimmed (a ++ m ++ b) = true.
Proof.
  intros Na Nb Ta Tb.
  rewrite (trimmed_spec a " ") in Ta by assumption.
  rewrite (trimmed_spec b " ") in Tb by assumption.
  apply andb_true_iff in Ta as [Ha _]. apply andb_true_iff in Tb as [_ Hb].
  rewrite (trimmed_spec _ " ").
  - rewrite app_assoc, last_app_nonempty by assumption. rewrite Hb.
    destruct a; [congruence|]. simpl in *. now rewrite Ha.
  - destruct a; [congruence|discriminate].
Qed.

End SplitFacts.

Section BlockFacts.

(** [str(n)] is a sign and digits: no white space, no newline. *)
Lemma decimal_text_plain (n : Z) :
  nonempty (decimal_text n) = true /\ no_space (decimal_text n) = true /\
  no_newline (decimal_text n) = true.
Proof.
  assert (P : forall ds, forallb is_digit ds = true ->
                         no_space ds = true /\ no_newline ds = true).
  { intros ds D. unfold no_space, no_newline. split;
      apply forallb_forall; intros x Hx; rewrite forallb_forall in D;
      destruct (digit_plain x (D x Hx)) as [E1 E2]; rewrite ?E1, ?E2;
      reflexivity. }
  destruct n as [|p|p].
  - repeat split.
  - destruct (decimal_text_pos p) as (ds & E & N & D & _). rewrite E.
    destruct (P ds D). auto.
  - destruct (decimal_text_pos p) as (ds & E & N & D & _).
    change (decimal_text (Zneg p)) with ("-"%char :: decimal_text (Zpos p)).
    rewrite E. destruct (P ds D) as [S1 S2].
    unfold no_space, no_newline in *. simpl. rewrite S1, S2. auto.
Qed.

Lemma decimal_text_digits (n : Z) :
  0 <= n -> nonempty (decimal_text n) = true /\ forallb is_digit (decimal_text n) = true.
Proof.
  destruct n as [|p|p]; intros H; [split; reflexivity| |lia].
  destruct (decimal_text_pos p) as (ds & E & N & D & _). rewrite E. auto.
Qed.

Lemma no_newline_app (a b : str) :
  no_newline (a ++ b) = no_newline a && no_newline b.
Proof. apply forallb_app. Qed.

Lemma timing_plain (e : SubtitleEntry) :
  entry_ok e = true ->
  no_newline (start_time e ++ lit " --> " ++ end_time e) = true.
Proof.
  unfold entry_ok. intros H. apply andb_true_iff in H as [_ H].
  apply andb_true_iff in H as [H _].
  apply andb_true_iff in H as [A B].
  rewrite !no_newline_app, (timestamp_no_newline _ A), (timestamp_no_newline _ B).
  reflexivity.
Qed.

Lemma text_ok_inv (x : str) :
  text_ok x = true -> x <> [] /\ trimmed x = true /\ no_newline x = true.
Proof.
  destruct x as [|c x]; [discriminate|]. unfold text_ok.
  intros H. apply andb_true_iff in H as [A B]. repeat split; auto. discriminate.
Qed.

Lemma entry_text_ok (e : SubtitleEntry) : entry_ok e = true -> text_ok (text e) = true.
Proof.
  unfold entry_ok. intros H. apply andb_true_iff in H as [_ H].
  now apply andb_true_iff in H as [_ H].
Qed.

Lemma entry_index_ok (e : SubtitleEntry) :
  entry_ok e = true -> printable (index e) = true.
Proof. unfold entry_ok. intros H. now apply andb_true_iff in H as [H _]. Qed.

Lemma block_text_lines (e : SubtitleEntry) :
  entry_ok e = true ->
  split_lines (block_text e)
  = [decimal_text (index e); start_time e ++ lit " --> " ++ end_time e; text e].
Proof.
  intros H. unfold block_text.
  destruct (decimal_text_plain (index e)) as (_ & _ & N1).
  destruct (text_ok_inv _ (entry_text_ok e H)) as (_ & _ & N3).
  cbn [app]. rewrite split_lines_line by assumption.
  rewrite split_lines_line by now apply timing_plain.
  now rewrite split_lines_last.
Qed.

Lemma block_text_head (e : SubtitleEntry) (rest : str) :
  exists c m, block_text e ++ rest = c :: m /\
              is_space c = false /\ is_newline c = false.
Proof.
  unfold block_text. destruct (decimal_text_plain (index e)) as (N & S1 & S2).
  destruct (decimal_text (index e)) as [|c m]; [discriminate|].
  unfold no_space, no_newline in *. simpl in S1, S2.
  apply andb_true_iff in S1 as [S1 _]. apply andb_true_iff in S2 as [S2 _].
  apply negb_true_iff in S1, S2. simpl. eauto.
Qed.

Lemma block_text_trimmed (e : SubtitleEntry) :
  entry_ok e = true -> block_text e <> [] /\ trimmed (block_text e) = true.
Proof.
  intros H. destruct (block_text_head e []) as (c & m & E & S1 & _).
  rewrite app_nil_r in E. split; [rewrite E; discriminate|].
  destruct (text_ok_inv _ (entry_text_ok e H)) as (N3 & T3 & _).
  destruct (decimal_text_plain (index e)) as (N & S & _).
  assert (E2 : block_text e
               = decimal_text (index e)
                 ++ ([newline] ++ (start_time e ++ lit " --> " ++ end_time e)
                     ++ [newline])
                 ++ text e).
  { unfold block_text. rewrite <- !app_assoc. reflexivity. }
  rewrite E2. apply trimmed_app; auto.
  - destruct (decimal_text (index e)); [discriminate|discriminate].
  - now apply no_space_trimmed.
Qed.

(** Splitting at blank lines keeps a written block in one piece. *)
Lemma block_text_prepend (e : SubtitleEntry) (tail : str) :
  entry_ok e = true ->
  re_split_blank false (block_text e ++ tail)
  = prepend (block_text e) (re_split_blank false tail).
Proof.
  intros H. unfold block_text.
  destruct (decimal_text_plain (index e)) as (_ & _ & N1).
  destruct (text_ok_inv _ (entry_text_ok e H)) as (X3 & _ & N3).
  pose proof (timing_plain e H) as N2.
  assert (S2 : forall r, starts_newline
                 ((start_time e ++ lit " --> " ++ end_time e) ++ r) = false).
  { intros r. unfold entry_ok in H. apply andb_true_iff in H as [_ H].
    apply andb_true_iff in H as [H _].
    apply andb_true_iff in H as [A _]. apply timestamp_ok_inv in A
      as (h1 & ? & ? & ? & ? & ? & ? & ? & ? & -> & D & _).
    simpl. now apply digit_plain in D as [_ ->]. }
  assert (S3 : forall r, starts_newline (text e ++ r) = false).
  { intros r. destruct (text e) as [|c x]; [congruence|].
    unfold no_newline in N3. simpl in N3. apply andb_true_iff in N3 as [N3 _].
    apply negb_true_iff in N3. exact N3. }
  set (T := start_time e ++ lit " --> " ++ end_time e) in *.
  rewrite <- !app_assoc.
  rewrite re_split_blank_line by assumption. cbn [app].
  rewrite re_split_blank_newline by apply S2.
  rewrite (re_split_blank_line T) by assumption.
  cbn [app].
  rewrite re_split_blank_newline by apply S3.
  rewrite re_split_blank_line by assumption.
  rewrite !prepend_prepend. f_equal. rewrite <- !app_assoc. reflexivity.
Qed.

End BlockFacts.

Section RoundTripFacts.

Lemma srt_text_cons (e : SubtitleEntry) (entries : list SubtitleEntry) :
  srt_text (e :: entries) = block_text e ++ blank_line ++ srt_text entries.
Proof.
  unfold srt_text. cbn [map concat]. unfold srt_entry_lines, block_text, blank_line.
  rewrite <- !app_assoc. reflexivity.
Qed.

(** [save_srt] comes to its end when every index can be converted. *)
Lemma save_srt_loop_ok (entries : list SubtitleEntry) :
  forallb (fun e => printable (index e)) entries = true ->
  save_srt_loop entries = (srt_text entries, Ok tt).
Proof.
  induction entries as [|e rest IH]; intros H; [reflexivity|].
  cbn [forallb] in H. apply andb_true_iff in H as [P H].
  cbn [save_srt_loop]. unfold srt_entry_text, str_of_int. rewrite P.
  cbn [bind]. rewrite IH by assumption. reflexivity.
Qed.

Lemma save_srt_ok (entries : list SubtitleEntry) :
  forallb (fun e => printable (index e)) entries = true ->
  save_srt entries = Ok (srt_text entries).
Proof. intros H. unfold save_srt. now rewrite save_srt_loop_ok. Qed.

Lemma entries_printable (entries : list SubtitleEntry) :
  forallb entry_ok entries = true ->
  forallb (fun e => printable (index e)) entries = true.
Proof.
  rewrite !forallb_forall. intros H e I. apply entry_index_ok. auto.
Qed.

Lemma srt_text_join (entries : list SubtitleEntry) :
  entries <> [] ->
  srt_text entries = join blank_line (map block_text entries) ++ blank_line.
Proof.
  induction entries as [|e [|e' rest] IH]; intros N; [congruence| |].
  - rewrite srt_text_cons. cbn [map join]. reflexivity.
  - rewrite srt_text_cons, IH by discriminate.
    cbn [map join]. rewrite <- !app_assoc. reflexivity.
Qed.

Lemma joined_blocks_trimmed (entries : list SubtitleEntry) :
  entries <> [] -> forallb entry_ok entries = true ->
  join blank_line (map block_text entries) <> [] /\
  trimmed (join blank_line (map block_text entries)) = true.
Proof.
  induction entries as [|e [|e' rest] IH]; intros N H; [congruence| |].
  - simpl in H. apply andb_true_iff in H as [H _]. cbn [map join].
    now apply block_text_trimmed.
  - cbn [forallb] in H. apply andb_true_iff in H as [He H].
    destruct (IH ltac:(discriminate) H) as [N' T'].
    destruct (block_text_trimmed e He) as [Nb Tb].
    change (join blank_line (map block_text (e :: e' :: rest)))
      with (block_text e ++ blank_line ++ join blank_line (map block_text (e' :: rest))).
    split; [|now apply trimmed_app].
    destruct (block_text e); [congruence|discriminate].
Qed.

Lemma strip_srt_text (entries : list SubtitleEntry) :
  entries <> [] -> forallb entry_ok entries = true ->
  strip (srt_text entries) = join blank_line (map block_text entries).
Proof.
  intros N H. rewrite srt_text_join by assumption.
  destruct (joined_blocks_trimmed entries N H) as [_ T].
  unfold blank_line.
  change [newline; newline] with ([newline] ++ [newline]).
  rewrite app_assoc, !strip_app_space by reflexivity.
  now apply strip_trimmed.
Qed.

Lemma split_joined_blocks (entries : list SubtitleEntry) :
  entries <> [] -> forallb entry_ok entries = true ->
  re_split_blank false (join blank_line (map block_text entries))
  = map block_text entries.
Proof.
  induction entries as [|e [|e' rest] IH]; intros N H; [congruence| |].
  - simpl in H. apply andb_true_iff in H as [H _]. cbn [map join].
    rewrite <- (app_nil_r (block_text e)) at 1.
    rewrite block_text_prepend by assumption.
    cbn [re_split_blank]. unfold prepend. cbn [hd tl]. now rewrite app_nil_r.
  - cbn [forallb] in H. apply andb_true_iff in H as [He H].
    change (join blank_line (map block_text (e :: e' :: rest)))
      with (block_text e ++ blank_line ++ join blank_line (map block_text (e' :: rest))).
    rewrite block_text_prepend by assumption.
    rewrite re_split_blank_sep.
    + rewrite IH by (auto; discriminate). unfold prepend. cbn [hd tl].
      rewrite app_nil_r. reflexivity.
    + destruct rest as [|e'' rest].
      * cbn [map join]. destruct (block_text_head e' []) as (c & m & E & _ & L).
        rewrite app_nil_r in E. rewrite E. exact L.
      * change (join blank_line (map block_text (e' :: e'' :: rest)))
          with (block_text e' ++ blank_line
                ++ join blank_line (map block_text (e'' :: rest))).
        destruct (block_text_head e'
                    (blank_line ++ join blank_line (map block_text (e'' :: rest))))
          as (c & m & E & _ & L).
        rewrite E. exact L.
Qed.

Lemma match_number_line_digits (ds : str) :
  nonempty ds = true -> forallb is_digit ds = true -> match_number_line ds = true.
Proof.
  intros N D. unfold match_number_line.
  destruct (take_while_stop is_digit ds [] D I) as [T R].
  rewrite app_nil_r in T, R. rewrite T, R.
  destruct ds; [discriminate|reflexivity].
Qed.

(** A written block with a non-negative index passes the test for
    subtitle numbers. *)
Lemma number_line_written (e : SubtitleEntry) :
  entry_ok e = true -> 0 <= index e ->
  match_number_line (strip (hd [] (split_lines (block_text e)))) = true.
Proof.
  intros H P. rewrite block_text_lines by assumption. cbn [hd].
  destruct (decimal_text_digits (index e) P) as [N D].
  rewrite strip_trimmed by now apply digits_trimmed.
  now apply match_number_line_digits.
Qed.

Lemma parse_block_written (e : SubtitleEntry) :
  entry_ok e = true ->
  parse_block [decimal_text (index e);
               start_time e ++ lit " --> " ++ end_time e; text e] = Ok e.
Proof.
  intros H. pose proof H as H'. unfold entry_ok in H'.
  apply andb_true_iff in H' as [P H'].
  apply andb_true_iff in H' as [H' X]. apply andb_true_iff in H' as [A B].
  destruct (text_ok_inv _ X) as (_ & T & _).
  unfold parse_block. cbn [nth skipn join].
  rewrite int_of_str_decimal_text by assumption. cbn [bind].
  rewrite match_timing_written by assumption. cbn [negb].
  rewrite split_written by now apply timestamp_no_space.
  cbn [unpack2 bind].
  rewrite !strip_trimmed;
    auto using no_space_trimmed, timestamp_no_space.
  destruct e; reflexivity.
Qed.

Lemma parse_blocks_written (entries : list SubtitleEntry) :
  forallb entry_ok entries = true ->
  parse_blocks (map block_text entries) = Ok entries.
Proof.
  induction entries as [|e rest IH]; intros H; [reflexivity|].
  cbn [forallb] in H. apply andb_true_iff in H as [He H].
  cbn [map]. rewrite parse_blocks_cons. unfold lines_of.
  destruct (block_text_trimmed e He) as [_ T].
  rewrite strip_trimmed, block_text_lines by assumption.
  cbn [length Nat.ltb Nat.leb].
  rewrite parse_block_written by assumption.
  cbn [try_except_ValueError bind]. rewrite IH by assumption. reflexivity.
Qed.


(** Parsing the text written for well-formed entries gives them back. *)
Lemma parse_srt_written (entries : list SubtitleEntry) :
  entries <> [] ->
  forallb entry_ok entries = true ->
  existsb (fun e => 0 <=? index e) entries = true ->
  parse_srt (srt_text entries) = Ok entries.
Proof.
  intros N H P. unfold parse_srt.
  rewrite strip_srt_text by assumption.
  destruct (joined_blocks_trimmed entries N H) as [NJ _].
  destruct (join blank_line (map block_text entries)) as [|c r] eqn:J; [congruence|].
  rewrite <- J, split_joined_blocks by assumption.
  assert (C : existsb
                (fun block => match_number_line (strip (hd [] (split_lines block))))
                (map block_text entries) = true).
  { apply existsb_exists in P as (e & I & Pe). apply Z.leb_le in Pe.
    apply existsb_exists. exists (block_text e). split; [now apply in_map|].
    apply number_line_written; [|assumption].
    rewrite forallb_forall in H. auto. }
  rewrite C. cbn [negb]. now apply parse_blocks_written.
Qed.

End RoundTripFacts.

(** C5, as it holds: for a sequence that is not empty, whose entries each
    have an index of at most 4300 digits, time stamps of the form
    [HH:MM:SS,mmm] and a one-line, non-empty text without white space at
    either end, and in which some index is not negative, [save_srt] writes
    a text, and parsing that text gives the sequence back. *)
Theorem parse_srt_save_srt (entries : list SubtitleEntry) :
  entries <> [] ->
  forallb entry_ok entries = true ->
  existsb (fun e => 0 <=? index e) entries = true ->
  exists written,
    save_srt entries = Ok written /\ parse_srt written = Ok entries.
Proof.
  intros N H P. exists (srt_text entries).
  split; [now apply save_srt_ok, entries_printable|].
  now apply parse_srt_written.
Qed.


Lemma parse_srt_save_srt_witness :
  exists written,
    save_srt sample_entries = Ok written /\
    parse_srt written = Ok sample_entries.
Proof.
  apply parse_srt_save_srt; [discriminate | reflexivity | reflexivity].
Defined.

(** C5, as stated, fails for an entry whose text has two lines: the lines
    come back joined by a space. *)
Lemma parse_srt_save_srt_two_lines :
  save_srt [ {| index := 1; start_time := lit "00:00:01,000";
                end_time := lit "00:00:02,000";
                text := lit "a" ++ [newline] ++ lit "b" |} ]
  = Ok (lit "1" ++ [newline] ++ lit "00:00:01,000 --> 00:00:02,000"
        ++ [newline] ++ lit "a" ++ [newline] ++ lit "b" ++ [newline; newline]) /\
  parse_srt (lit "1" ++ [newline] ++ lit "00:00:01,000 --> 00:00:02,000"
             ++ [newline] ++ lit "a" ++ [newline] ++ lit "b"
             ++ [newline; newline])
  = Ok [ {| index := 1; start_time := lit "00:00:01,000";
            end_time := lit "00:00:02,000"; text := lit "a b" |} ].
Proof. split; vm_compute; reflexivity. Qed.

Section ShiftFacts.

Lemma digits2_size (p : positive) : digits2_pos p = Pos.size p.
Proof. induction p; simpl; congruence. Qed.

(** [Zdigits2 m] is the number of bits of [m]. *)
Lemma Zdigits2_bounds (m : Z) :
  0 < m -> 2 ^ (Zdigits2 m - 1) <= m < 2 ^ Zdigits2 m.
Proof.
  destruct m as [|p|p]; try lia. intros _. simpl Zdigits2.
  rewrite digits2_size.
  pose proof (Pos.size_gt p) as G. pose proof (Pos.size_le p) as L.
  assert (G' : Zpos p < 2 ^ Zpos (Pos.size p)).
  { rewrite <- Pos2Z.inj_pow. apply Pos2Z.pos_lt_pos. exact G. }
  assert (L' : 2 ^ Zpos (Pos.size p) <= 2 * Zpos p).
  { rewrite <- Pos2Z.inj_pow. change (2 * Zpos p) with (Zpos p~0).
    apply Pos2Z.pos_le_pos. exact L. }
  split; [|assumption].
  replace (Zpos (Pos.size p)) with (Z.succ (Zpos (Pos.size p) - 1)) in L' by lia.
  rewrite Z.pow_succ_r in L' by lia. lia.
Qed.

Lemma Zdigits2_nonneg (m : Z) : 0 <= Zdigits2 m.
Proof. destruct m; simpl; lia. Qed.

Lemma shr_1_m (mrs : shr_record) :
  0 <= shr_m mrs -> shr_m (shr_1 mrs) = shr_m mrs / 2.
Proof.
  destruct mrs as [m r s]. simpl. intros H.
  destruct m as [|[p|p|]|p]; simpl; try lia; try reflexivity.
  - rewrite Pos2Z.inj_xI. apply Z.div_unique with 1; lia.
  - rewrite Pos2Z.inj_xO. apply Z.div_unique with 0; lia.
Qed.

Lemma iter_shr_1_m (p : positive) (mrs : shr_record) :
  0 <= shr_m mrs ->
  shr_m (SpecFloat.iter_pos shr_1 p mrs) = shr_m mrs / 2 ^ Zpos p.
Proof.
  revert mrs. induction p as [p IH|p IH|]; intros mrs H; simpl SpecFloat.iter_pos.
  - assert (H1 : 0 <= shr_m (shr_1 mrs))
      by (rewrite shr_1_m by assumption; apply Z.div_pos; lia).
    assert (H2 : 0 <= shr_m (SpecFloat.iter_pos shr_1 p (shr_1 mrs)))
      by (rewrite IH by assumption; apply Z.div_pos; lia).
    rewrite IH, IH, shr_1_m by assumption.
    rewrite !Z.div_div by lia. f_equal.
    replace (Zpos p~1) with (1 + Zpos p + Zpos p) by lia.
    rewrite !Z.pow_add_r, Z.pow_1_r by lia. ring.
  - assert (H2 : 0 <= shr_m (SpecFloat.iter_pos shr_1 p mrs))
      by (rewrite IH by assumption; apply Z.div_pos; lia).
    rewrite IH, IH by assumption.
    rewrite Z.div_div by lia. f_equal.
    replace (Zpos p~0) with (Zpos p + Zpos p) by lia.
    rewrite !Z.pow_add_r by lia. ring.
  - rewrite shr_1_m by assumption. reflexivity.
Qed.

(** The mantissa and the exponent after [shr_fexp]. *)
Lemma shr_fexp_m (m e : Z) (l : location) :
  0 <= m ->
  let e1 := Z.max e (fexp prec emax (Zdigits2 m + e)) in
  shr_m (fst (shr_fexp prec emax m e l)) = m / 2 ^ (e1 - e) /\
  snd (shr_fexp prec emax m e l) = e1.
Proof.
  intros H e1. unfold shr_fexp, shr.
  assert (R : shr_m (shr_record_of_loc m l) = m) by (destruct l as [|[]]; reflexivity).
  destruct (fexp prec emax (Zdigits2 m + e) - e) as [|p|p] eqn:E; cbn [fst snd].
  - replace (e1 - e) with 0 by lia. rewrite R, Z.div_1_r. split; [reflexivity|lia].
  - rewrite iter_shr_1_m by (rewrite R; assumption). rewrite R.
    replace (e1 - e) with (Zpos p) by lia. split; [reflexivity|lia].
  - replace (e1 - e) with 0 by lia. rewrite R, Z.div_1_r. split; [reflexivity|lia].
Qed.

Lemma round_nearest_even_bounds (m : Z) (l : location) :
  m <= round_nearest_even m l <= m + 1.
Proof.
  destruct l as [|[]]; simpl; try lia. destruct (Z.even m); lia.
Qed.

End ShiftFacts.

Import FloatValue.

Section RoundFacts.

Lemma shr_fexp_noshift (m e : Z) (l : location) :
  fexp prec emax (Zdigits2 m + e) <= e ->
  shr_fexp prec emax m e l = (shr_record_of_loc m l, e).
Proof.
  intros H. unfold shr_fexp, shr.
  destruct (fexp prec emax (Zdigits2 m + e) - e) eqn:E; try reflexivity. lia.
Qed.

Lemma shr_record_of_loc_exact (m : Z) :
  shr_m (shr_record_of_loc m loc_Exact) = m /\
  loc_of_shr_record (shr_record_of_loc m loc_Exact) = loc_Exact.
Proof. split; reflexivity. Qed.

(** An exact number that needs no shift is returned as it is. *)
Lemma binary_round_aux_exact (sx : bool) (mx ex : Z) :
  fexp prec emax (Zdigits2 mx + ex) <= ex ->
  binary_round_aux prec emax sx mx ex loc_Exact =
  match mx with
  | Z0 => S754_zero sx
  | Zpos m => if ex <=? emax - prec then S754_finite sx m ex else S754_infinity sx
  | Zneg _ => S754_nan
  end.
Proof.
  intros H. unfold binary_round_aux. rewrite shr_fexp_noshift by assumption.
  cbn [shr_record_of_loc shr_m loc_of_shr_record round_nearest_even].
  rewrite shr_fexp_noshift by assumption. reflexivity.
Qed.

(** What [binary_round_aux] returns, when it is a finite number: the
    mantissa [m1] kept by the first shift, possibly plus one, at the
    exponent [e1] of that shift, renormalised. *)
Lemma binary_round_aux_finite (sx : bool) (mx ex : Z) (lx : location)
    (s : bool) (m : positive) (e : Z) :
  0 <= mx ->
  binary_round_aux prec emax sx mx ex lx = S754_finite s m e ->
  let e1 := Z.max ex (fexp prec emax (Zdigits2 mx + ex)) in
  let m1 := mx / 2 ^ (e1 - ex) in
  s = sx /\ e1 <= e /\ e <= emax - prec /\ Zpos m * 2 ^ (e - e1) <= m1 + 1 /\
  (lx = loc_Exact -> fexp prec emax (Zdigits2 mx + ex) <= ex ->
   Zpos m = mx /\ e = ex).
Proof.
  intros H R e1 m1. pose proof R as R0. unfold binary_round_aux in R.
  destruct (shr_fexp_m mx ex lx H) as [M1 E1]. fold e1 in M1, E1. fold m1 in M1.
  destruct (shr_fexp prec emax mx ex lx) as [mrs' e'] eqn:S1.
  cbn [fst snd] in M1, E1. subst e'.
  set (m2 := round_nearest_even (shr_m mrs') (loc_of_shr_record mrs')) in *.
  pose proof (round_nearest_even_bounds (shr_m mrs') (loc_of_shr_record mrs')) as B.
  fold m2 in B. rewrite M1 in B.
  assert (P1 : 0 <= m1) by (apply Z.div_pos; [assumption|apply Z.pow_pos_nonneg; lia]).
  assert (P2 : 0 <= m2) by lia.
  destruct (shr_fexp_m m2 e1 loc_Exact P2) as [M2 E2].
  destruct (shr_fexp prec emax m2 e1 loc_Exact) as [mrs'' e''] eqn:S2.
  cbn [fst snd] in M2, E2.
  destruct (shr_m mrs'') as [|p|p] eqn:Em; try discriminate.
  destruct (e'' <=? emax - prec) eqn:Le; [|discriminate].
  apply Z.leb_le in Le. injection R as Hs Hm He. subst s; subst m; subst e.
  set (e2 := Z.max e1 (fexp prec emax (Zdigits2 m2 + e1))) in *.
  split; [reflexivity|]. split; [lia|]. split; [lia|]. split.
  - rewrite M2, E2. pose proof (Z.mul_div_le m2 (2 ^ (e2 - e1))).
    assert (0 < 2 ^ (e2 - e1)) by (apply Z.pow_pos_nonneg; lia). nia.
  - intros XL XE. subst lx. rewrite binary_round_aux_exact in R0 by assumption.
    destruct mx as [|q|q]; try discriminate.
    destruct (ex <=? emax - prec); [|discriminate].
    injection R0 as Hq He. split; [congruence|lia].
Qed.

End RoundFacts.

Section RealFacts.
Local Open Scope R_scope.

Lemma bpow_pos (e : Z) : 0 < bpow e.
Proof. unfold bpow. apply powerRZ_lt. lra. Qed.

Lemma bpow_add (a b : Z) : bpow (a + b) = bpow a * bpow b.
Proof. unfold bpow. apply powerRZ_add. lra. Qed.

Lemma bpow_0 : bpow 0 = 1.
Proof. reflexivity. Qed.

Lemma bpow_IZR (k : Z) : (0 <= k)%Z -> bpow k = IZR (2 ^ k).
Proof.
  revert k. apply natlike_ind.
  - reflexivity.
  - intros k H IH. unfold Z.succ. rewrite bpow_add, IH.
    rewrite Z.pow_add_r, mult_IZR by lia.
    change (bpow 1) with (2 * 1). change (2 ^ 1)%Z with 2%Z. ring.
Qed.

Lemma bpow_ge_1 (k : Z) : (0 <= k)%Z -> 1 <= bpow k.
Proof.
  intros H. rewrite bpow_IZR by assumption. apply IZR_le.
  pose proof (Z.pow_pos_nonneg 2 k). lia.
Qed.

Lemma bpow_le (a b : Z) : (a <= b)%Z -> bpow a <= bpow b.
Proof.
  intros H. replace b with (a + (b - a))%Z by lia. rewrite bpow_add.
  pose proof (bpow_pos a). pose proof (bpow_ge_1 (b - a) ltac:(lia)). nra.
Qed.

Lemma F2R_shift (m e k : Z) : (0 <= k)%Z -> F2R (m * 2 ^ k) e = F2R m (e + k).
Proof.
  intros H. unfold F2R. rewrite mult_IZR, <- bpow_IZR, bpow_add by assumption. ring.
Qed.

Lemma F2R_le (m n e : Z) : (m <= n)%Z -> F2R m e <= F2R n e.
Proof.
  intros H. unfold F2R. apply Rmult_le_compat_r.
  - apply Rlt_le, bpow_pos.
  - now apply IZR_le.
Qed.

Lemma F2R_nonneg (m e : Z) : (0 <= m)%Z -> 0 <= F2R m e.
Proof.
  intros H. unfold F2R. apply Rmult_le_pos; [now apply IZR_le|].
  apply Rlt_le, bpow_pos.
Qed.

Lemma F2R_succ (m e : Z) : F2R (m + 1) e = F2R m e + bpow e.
Proof. unfold F2R. rewrite plus_IZR. ring. Qed.

(** Rounding adds at most one unit of the exponent of the first shift. *)
Lemma round_aux_upper (sx : bool) (mx ex : Z) (lx : location)
    (s : bool) (m : positive) (e : Z) :
  (0 <= mx)%Z ->
  binary_round_aux prec emax sx mx ex lx = S754_finite s m e ->
  F2R (Zpos m) e
  <= F2R mx ex + bpow (Z.max ex (fexp prec emax (Zdigits2 mx + ex))).
Proof.
  intros H R.
  destruct (binary_round_aux_finite _ _ _ _ _ _ _ H R) as (_ & L1 & _ & B & _).
  set (e1 := Z.max ex (fexp prec emax (Zdigits2 mx + ex))) in *.
  set (m1 := (mx / 2 ^ (e1 - ex))%Z) in *.
  assert (L0 : (ex <= e1)%Z) by (unfold e1; lia).
  replace e with (e1 + (e - e1))%Z at 1 by lia.
  rewrite <- F2R_shift by lia.
  apply Rle_trans with (F2R (m1 + 1) e1); [now apply F2R_le|].
  rewrite F2R_succ. apply Rplus_le_compat_r.
  replace e1 with (ex + (e1 - ex))%Z at 1 by lia.
  rewrite <- F2R_shift by lia. apply F2R_le.
  unfold m1. rewrite Z.mul_comm. apply Z.mul_div_le.
  apply Z.pow_pos_nonneg; lia.
Qed.

(** In the normal range one unit of the last place is at most [2^-52]
    times the number. *)
Lemma ulp_relative (mx ex : Z) :
  (0 < mx)%Z -> bpow (Zdigits2 mx + ex - 53) <= F2R mx ex * eps.
Proof.
  intros H. destruct (Zdigits2_bounds mx H) as [L _].
  replace (Zdigits2 mx + ex - 53)%Z with ((Zdigits2 mx - 1) + ex + (-52))%Z by lia.
  rewrite !bpow_add. unfold F2R, eps.
  pose proof (Zdigits2_bounds mx H).
  assert (D : (0 <= Zdigits2 mx - 1)%Z).
  { destruct mx as [|p|p]; try lia. cbn [Zdigits2]. lia. }
  rewrite bpow_IZR by assumption.
  apply Rmult_le_compat_r; [apply Rlt_le, bpow_pos|].
  apply Rmult_le_compat_r; [apply Rlt_le, bpow_pos|].
  now apply IZR_le.
Qed.

Lemma fexp_eq (x : Z) : fexp prec emax x = Z.max (x - 53) (-1074).
Proof. reflexivity. Qed.

(** The relative and absolute bound on a rounded result, when the shift
    is not negative or the number is exact. *)
Lemma round_aux_relative (sx : bool) (mx ex : Z) (lx : location)
    (s : bool) (m : positive) (e : Z) :
  (0 <= mx)%Z ->
  lx = loc_Exact \/ (ex <= fexp prec emax (Zdigits2 mx + ex))%Z ->
  binary_round_aux prec emax sx mx ex lx = S754_finite s m e ->
  F2R (Zpos m) e <= F2R mx ex * (1 + eps) + eta.
Proof.
  intros H C R. pose proof (round_aux_upper _ _ _ _ _ _ _ H R) as U.
  pose proof (F2R_nonneg mx ex H) as P.
  assert (Pe : 0 < eps) by apply bpow_pos.
  assert (Pn : 0 < eta) by apply bpow_pos.
  destruct (Z_le_gt_dec ex (fexp prec emax (Zdigits2 mx + ex))) as [S|S].
  - rewrite Z.max_r in U by assumption. rewrite fexp_eq in U, S.
    destruct (Z_le_gt_dec (Zdigits2 mx + ex - 53) (-1074)) as [T|T].
    + rewrite Z.max_r in U by assumption. fold eta in U. nra.
    + rewrite Z.max_l in U by lia.
      assert (Hm : (0 < mx)%Z).
      { destruct mx as [|p|p]; try lia. cbn [Zdigits2] in *. lia. }
      pose proof (ulp_relative mx ex Hm). nra.
  - destruct C as [C|C]; [|lia].
    destruct (binary_round_aux_finite _ _ _ _ _ _ _ H R) as (_ & _ & _ & _ & X).
    destruct (X C ltac:(lia)) as [-> ->]. nra.
Qed.

(** The same in the normal range: no absolute term. *)
Lemma round_aux_relative_normal (sx : bool) (mx ex : Z) (lx : location)
    (s : bool) (m : positive) (e : Z) :
  (0 < mx)%Z ->
  lx = loc_Exact \/ (ex <= fexp prec emax (Zdigits2 mx + ex))%Z ->
  (-1074 <= Zdigits2 mx + ex - 53)%Z ->
  binary_round_aux prec emax sx mx ex lx = S754_finite s m e ->
  F2R (Zpos m) e <= F2R mx ex * (1 + eps).
Proof.
  intros H C N R. assert (H0 : (0 <= mx)%Z) by lia.
  pose proof (round_aux_upper _ _ _ _ _ _ _ H0 R) as U.
  pose proof (F2R_nonneg mx ex H0) as P.
  assert (Pe : 0 < eps) by apply bpow_pos.
  destruct (Z_le_gt_dec ex (fexp prec emax (Zdigits2 mx + ex))) as [S|S].
  - rewrite Z.max_r in U by assumption. rewrite fexp_eq in U.
    rewrite Z.max_l in U by lia.
    pose proof (ulp_relative mx ex H). nra.
  - destruct C as [C|C]; [|lia].
    destruct (binary_round_aux_finite _ _ _ _ _ _ _ H0 R)
      as (_ & _ & _ & _ & X).
    destruct (X C ltac:(lia)) as [-> ->]. nra.
Qed.

End RealFacts.

Section ConversionFacts.
Local Open Scope R_scope.

Lemma F2R_0 (m : Z) : F2R m 0 = IZR m.
Proof. unfold F2R. rewrite bpow_0. ring. Qed.

(** [int(f)] is the integer part of a non-negative [f]. *)
Lemma int_of_float_integer_part (f : float) (z : Z) :
  nonneg_finite f = true -> int_of_float f = Ok z ->
  (0 <= z)%Z /\ integer_part f z.
Proof.
  unfold integer_part.
  destruct f as [s|s| |s m e]; simpl; try discriminate.
  - intros _ H. injection H as <-. simpl. split; [lia|lra].
  - intros S H. apply negb_true_iff in S. subst s. injection H as <-.
    cbn [cond_Zopp]. destruct (Z_le_gt_dec 0 e) as [P|P].
    + rewrite Z.shiftl_mul_pow2 by assumption.
      rewrite <- F2R_0, F2R_shift by assumption. rewrite Z.add_0_l.
      split; [|lra]. pose proof (Z.pow_pos_nonneg 2 e). nia.
    + rewrite Z.shiftl_div_pow2 by lia.
      set (k := (- e)%Z). set (q := (Zpos m / 2 ^ k)%Z).
      assert (K : (0 < 2 ^ k)%Z) by (apply Z.pow_pos_nonneg; unfold k; lia).
      pose proof (Z.mul_div_le (Zpos m) (2 ^ k) K) as L. fold q in L.
      pose proof (Z.mul_succ_div_gt (Zpos m) (2 ^ k) K) as U. fold q in U.
      assert (Q : (0 <= q)%Z) by (apply Z.div_pos; lia).
      split; [assumption|].
      assert (E : forall x, IZR x = F2R (x * 2 ^ k) e).
      { intros x. rewrite F2R_shift by (unfold k; lia).
        replace (e + k)%Z with 0%Z by (unfold k; lia). now rewrite F2R_0. }
      replace (IZR q + 1) with (IZR (q + 1)) by (rewrite plus_IZR; reflexivity).
      rewrite (E q), (E (q + 1)%Z). unfold F2R.
      pose proof (bpow_pos e). split.
      * apply Rmult_le_compat_r; [lra|]. apply IZR_le. lia.
      * apply Rmult_lt_compat_r; [lra|]. apply IZR_lt. lia.
Qed.

Lemma Zdigits2_mono (a b : Z) : (0 < a)%Z -> (a <= b)%Z -> (Zdigits2 a <= Zdigits2 b)%Z.
Proof.
  intros A L. destruct (Zdigits2_bounds a A) as [La _].
  destruct (Zdigits2_bounds b ltac:(lia)) as [_ Ub].
  destruct (Z_le_gt_dec (Zdigits2 a) (Zdigits2 b)) as [|G]; [assumption|].
  assert (2 ^ Zdigits2 b <= 2 ^ (Zdigits2 a - 1))%Z.
  { apply Z.pow_le_mono_r; [lia|]. lia. }
  lia.
Qed.

Lemma Zdigits2_ge (m k : Z) : (0 <= k)%Z -> (2 ^ k <= m)%Z -> (k + 1 <= Zdigits2 m)%Z.
Proof.
  intros K L. assert (P : (0 < m)%Z) by (pose proof (Z.pow_pos_nonneg 2 k); lia).
  destruct (Zdigits2_bounds m P) as [_ U].
  destruct (Z_le_gt_dec (k + 1) (Zdigits2 m)) as [|G]; [assumption|].
  assert (2 ^ Zdigits2 m <= 2 ^ k)%Z.
  { apply Z.pow_le_mono_r; [lia|]. lia. }
  lia.
Qed.

Lemma iter_xO_value (m d : positive) :
  Zpos (Pos.iter xO m d) = (Zpos m * 2 ^ Zpos d)%Z.
Proof.
  induction d as [|d IH] using Pos.peano_ind.
  - simpl. lia.
  - rewrite Pos.iter_succ, Pos2Z.inj_xO, IH, Pos2Z.inj_succ, Z.pow_succ_r by lia.
    ring.
Qed.

Lemma iter_xO_digits (m d : positive) :
  digits2_pos (Pos.iter xO m d) = (digits2_pos m + d)%positive.
Proof.
  induction d as [|d IH] using Pos.peano_ind.
  - simpl. lia.
  - rewrite Pos.iter_succ. cbn [digits2_pos]. rewrite IH. lia.
Qed.

(** [shl_align] changes the representation, not the number. *)
Lemma shl_align_spec (mx : positive) (ex ex' : Z) :
  let '(mz, ez) := shl_align mx ex ex' in
  F2R (Zpos mz) ez = F2R (Zpos mx) ex /\
  (Zdigits2 (Zpos mz) + ez = Zdigits2 (Zpos mx) + ex)%Z /\
  (ez <= ex')%Z \/ (ez = ex /\ mz = mx).
Proof.
  unfold shl_align. destruct (ex' - ex)%Z as [|d|d] eqn:E.
  - right. auto.
  - right. auto.
  - left. split; [|split].
    + rewrite iter_xO_value, F2R_shift by lia. f_equal. lia.
    + cbn [Zdigits2]. rewrite iter_xO_digits. lia.
    + lia.
Qed.

End ConversionFacts.

Section RoundCases.

(** [binary_round_aux] on a non-negative mantissa never returns a NaN,
    keeps the sign, and returns a zero only when the first shift leaves
    nothing. *)
Lemma binary_round_aux_cases (sx : bool) (mx ex : Z) (lx : location) :
  0 <= mx ->
  match binary_round_aux prec emax sx mx ex lx with
  | S754_nan => False
  | S754_zero s =>
      s = sx /\
      mx / 2 ^ (Z.max ex (fexp prec emax (Zdigits2 mx + ex)) - ex) = 0
  | S754_infinity s => s = sx
  | S754_finite s _ _ => s = sx
  end.
Proof.
  intros H. unfold binary_round_aux.
  destruct (shr_fexp_m mx ex lx H) as [M1 E1].
  set (e1 := Z.max ex (fexp prec emax (Zdigits2 mx + ex))) in *.
  set (m1 := mx / 2 ^ (e1 - ex)) in *.
  destruct (shr_fexp prec emax mx ex lx) as [mrs' e'] eqn:S1.
  cbn [fst snd] in M1, E1. subst e'.
  set (m2 := round_nearest_even (shr_m mrs') (loc_of_shr_record mrs')) in *.
  pose proof (round_nearest_even_bounds (shr_m mrs') (loc_of_shr_record mrs')) as B.
  fold m2 in B. rewrite M1 in B.
  assert (P1 : 0 <= m1) by (apply Z.div_pos; [assumption|apply Z.pow_pos_nonneg; lia]).
  assert (P2 : 0 <= m2) by lia.
  destruct (shr_fexp_m m2 e1 loc_Exact P2) as [M2 E2].
  destruct (shr_fexp prec emax m2 e1 loc_Exact) as [mrs'' e''] eqn:S2.
  cbn [fst snd] in M2, E2.
  set (e2 := Z.max e1 (fexp prec emax (Zdigits2 m2 + e1))) in *.
  assert (K : 0 < 2 ^ (e2 - e1)) by (apply Z.pow_pos_nonneg; lia).
  destruct (shr_m mrs'') as [|p|p] eqn:Em.
  - split; [reflexivity|].
    destruct (Z.eq_dec m2 0) as [Z2|Z2]; [lia|]. exfalso.
    assert (P : 0 < m2) by lia.
    destruct (Zdigits2_bounds m2 P) as [L _].
    symmetry in M2. apply Z.div_small_iff in M2; [|lia].
    destruct M2 as [M2|M2]; [|lia].
    assert (X : e2 - e1 <= Zdigits2 m2 - 1).
    { assert (-1074 <= e1) by (unfold e1; rewrite fexp_eq; lia).
      assert (1 <= Zdigits2 m2) by (destruct m2; cbn [Zdigits2] in *; lia).
      unfold e2. rewrite fexp_eq. lia. }
    assert (2 ^ (e2 - e1) <= 2 ^ (Zdigits2 m2 - 1)) by (apply Z.pow_le_mono_r; lia).
    lia.
  - destruct (e'' <=? emax - prec); reflexivity.
  - pose proof (Z.div_pos m2 (2 ^ (e2 - e1)) P2 K). lia.
Qed.

End RoundCases.

Section IntToFloat.
Local Open Scope R_scope.

Lemma binary_normalize_pos (p : positive) :
  exists mz ez,
    binary_normalize prec emax (Zpos p) 0 false
    = binary_round_aux prec emax false (Zpos mz) ez loc_Exact /\
    F2R (Zpos mz) ez = IZR (Zpos p) /\
    (Zdigits2 (Zpos mz) + ez = Zdigits2 (Zpos p))%Z /\
    (ez <= 0)%Z.
Proof.
  unfold binary_normalize, binary_round.
  pose proof (shl_align_spec p 0 (fexp prec emax (Zpos (digits2_pos p) + 0))) as A.
  destruct (shl_align p 0 (fexp prec emax (Zpos (digits2_pos p) + 0))) as [mz ez] eqn:E.
  exists mz, ez. split; [reflexivity|].
  unfold shl_align in E.
  destruct (fexp prec emax (Zpos (digits2_pos p) + 0) - 0)%Z eqn:D;
    injection E as <- <-.
  - rewrite F2R_0. repeat split; lia.
  - rewrite F2R_0. repeat split; lia.
  - destruct A as [(A1 & A2 & A3)|[A1 A2]].
    + rewrite A1, F2R_0. repeat split; lia.
    + exfalso. rewrite Z.add_0_r in D. lia.
Qed.

(** [float(n)] for a positive [n]: not above [n * (1 + 2^-52)], and [n]
    lies in the range of the doubles. *)
Lemma float_of_int_pos (p : positive) (f : float) :
  float_of_int (Zpos p) = Ok f ->
  nonneg_finite f = true /\ 0 <= val f <= IZR (Zpos p) * (1 + eps) /\
  (Zpos p < 2 ^ 1024)%Z.
Proof.
  unfold float_of_int.
  destruct (binary_normalize_pos p) as (mz & ez & -> & V & D & Z0).
  pose proof (binary_round_aux_cases false (Zpos mz) ez loc_Exact
                (Pos2Z.is_nonneg mz)) as C.
  assert (Pe : 0 < eps) by apply bpow_pos.
  assert (Pp : 0 < IZR (Zpos p)) by (apply IZR_lt; lia).
  destruct (Zdigits2_bounds (Zpos mz) ltac:(lia)) as [Lm Um].
  assert (Dp : (1 <= Zdigits2 (Zpos p))%Z) by (cbn [Zdigits2]; lia).
  destruct (binary_round_aux prec emax false (Zpos mz) ez loc_Exact)
    as [s|s| |s m e] eqn:R; cbn [finite_or_overflow]; try discriminate;
    intros H; injection H as <-.
  - exfalso. destruct C as [_ C].
    apply Z.div_small_iff in C; [|apply Z.pow_nonzero; lia].
    destruct C as [C|C]; [|pose proof (Z.pow_pos_nonneg 2
        (Z.max ez (fexp prec emax (Zdigits2 (Zpos mz) + ez)) - ez)); lia].
    rewrite fexp_eq in C.
    assert (2 ^ (Z.max ez (Z.max (Zdigits2 (Zpos mz) + ez - 53) (-1074)) - ez)
            <= 2 ^ (Zdigits2 (Zpos mz) - 1))%Z
      by (apply Z.pow_le_mono_r; lia).
    lia.
  - contradiction.
  - subst s. cbn [nonneg_finite negb val cond_Zopp].
    split; [reflexivity|]. split; [split|].
    + apply F2R_nonneg. lia.
    + rewrite <- V. apply (round_aux_relative_normal false _ _ loc_Exact false m e);
        auto; lia.
    + destruct (binary_round_aux_finite _ _ _ _ _ _ _ (Pos2Z.is_nonneg mz) R)
        as (_ & L1 & L2 & _).
      rewrite fexp_eq in L1. unfold emax, prec in L2.
      destruct (Zdigits2_bounds (Zpos p) ltac:(lia)) as [_ U].
      assert (2 ^ Zdigits2 (Zpos p) <= 2 ^ 1024)%Z by (apply Z.pow_le_mono_r; lia).
      lia.
Qed.

End IntToFloat.

Section DivisionFacts.
Local Open Scope R_scope.

Lemma div_eucl_fst (a b : Z) : fst (Z.div_eucl a b) = (a / b)%Z.
Proof. unfold Z.div. destruct (Z.div_eucl a b); reflexivity. Qed.

(** The quotient mantissa computed by [SFdiv_core_binary] is not
    negative. *)
Lemma SFdiv_core_nonneg (m1 e1 m2 e2 : Z) :
  (0 < m1)%Z -> (0 < m2)%Z ->
  (0 <= fst (fst (SFdiv_core_binary prec emax m1 e1 m2 e2)))%Z.
Proof.
  intros H1 H2. unfold SFdiv_core_binary.
  set (s := (e1 - e2 - Z.min (fexp prec emax (Zdigits2 m1 + e1 - (Zdigits2 m2 + e2)))
                        (e1 - e2))%Z).
  set (m' := match s with
             | 0%Z => m1
             | Zpos _ => Z.shiftl m1 s
             | Zneg _ => 0%Z
             end).
  assert (P : (0 <= m')%Z).
  { unfold m'. destruct s; try lia. apply Z.shiftl_nonneg. lia. }
  pose proof (div_eucl_fst m' m2) as F.
  destruct (Z.div_eucl m' m2) as [q r]. cbn [fst] in *. subst q.
  apply Z.div_pos; lia.
Qed.

(** For two positive integers [a <= b], the quotient mantissa is below the
    exact quotient and long enough for the rounding shift not to be
    negative. *)
Lemma int_div_core (a b : positive) :
  (Zpos a <= Zpos b)%Z ->
  let '(q, e', l) := SFdiv_core_binary prec emax (Zpos a) 0 (Zpos b) 0 in
  (0 <= q)%Z /\ (e' <= fexp prec emax (Zdigits2 q + e'))%Z /\
  F2R q e' <= IZR (Zpos a) / IZR (Zpos b).
Proof.
  intros L.
  pose proof (SFdiv_core_nonneg (Zpos a) 0 (Zpos b) 0 ltac:(lia) ltac:(lia)) as Q.
  unfold SFdiv_core_binary in *.
  set (d1 := Zdigits2 (Zpos a)) in *. set (d2 := Zdigits2 (Zpos b)) in *.
  assert (D : (d1 <= d2)%Z) by (apply Zdigits2_mono; lia).
  destruct (Zdigits2_bounds (Zpos a) ltac:(lia)) as [La Ua]. fold d1 in La, Ua.
  destruct (Zdigits2_bounds (Zpos b) ltac:(lia)) as [Lb Ub]. fold d2 in Lb, Ub.
  assert (D1 : (1 <= d1)%Z) by (unfold d1; cbn [Zdigits2]; lia).
  rewrite fexp_eq in *.
  replace (d1 + 0 - (d2 + 0))%Z with (d1 - d2)%Z in * by lia.
  set (e' := Z.min (Z.max (d1 - d2 - 53) (-1074)) (0 - 0)) in *.
  assert (E' : e' = Z.max (d1 - d2 - 53) (-1074)) by (unfold e'; lia).
  assert (S : (0 < 0 - 0 - e')%Z) by lia.
  destruct (0 - 0 - e')%Z as [|s|s] eqn:Es; try lia.
  rewrite Z.shiftl_mul_pow2 in * by lia.
  pose proof (div_eucl_fst (Zpos a * 2 ^ Zpos s) (Zpos b)) as F.
  destruct (Z.div_eucl (Zpos a * 2 ^ Zpos s) (Zpos b)) as [q r].
  cbn [fst] in *. subst q.
  set (q := (Zpos a * 2 ^ Zpos s / Zpos b)%Z) in *.
  assert (K : (0 < 2 ^ Zpos s)%Z) by (apply Z.pow_pos_nonneg; lia).
  pose proof (Z.mul_div_le (Zpos a * 2 ^ Zpos s) (Zpos b) ltac:(lia)) as M.
  fold q in M.
  split; [assumption|]. split.
  - rewrite fexp_eq.
    destruct (Z_le_gt_dec (d1 - d2 - 53) (-1074)) as [C|C]; [lia|].
    assert (E2 : Zpos s = (53 + d2 - d1)%Z) by lia.
    assert (G : (2 ^ 52 <= q)%Z).
    { unfold q. apply Z.div_le_lower_bound; [lia|].
      rewrite E2.
      replace (53 + d2 - d1)%Z with ((d2 - d1) + 53)%Z by lia.
      rewrite Z.pow_add_r by lia.
      assert (X : (2 ^ d2 <= Zpos a * 2 ^ (d2 - d1) * 2)%Z).
      { replace d2 with ((d1 - 1) + (d2 - d1) + 1)%Z at 1 by lia.
        rewrite !Z.pow_add_r by lia. change (2 ^ 1)%Z with 2%Z.
        pose proof (Z.pow_pos_nonneg 2 (d2 - d1) ltac:(lia) ltac:(lia)). nia. }
      change (2 ^ 53)%Z with (2 * 2 ^ 52)%Z.
      pose proof (Z.pow_pos_nonneg 2 52 ltac:(lia) ltac:(lia)). nia. }
    pose proof (Zdigits2_ge q 52 ltac:(lia) G). lia.
  - unfold F2R. apply Rmult_le_reg_r with (IZR (Zpos b)); [apply IZR_lt; lia|].
    replace (IZR (Zpos a) / IZR (Zpos b) * IZR (Zpos b)) with (IZR (Zpos a))
      by (field; apply not_0_IZR; lia).
    apply Rmult_le_reg_r with (bpow (Zpos s)); [apply bpow_pos|].
    replace (IZR q * bpow e' * IZR (Zpos b) * bpow (Zpos s))
      with (IZR (Zpos b * q) * (bpow e' * bpow (Zpos s)))
      by (rewrite mult_IZR; ring).
    rewrite <- bpow_add. replace (e' + Zpos s)%Z with 0%Z by lia.
    rewrite bpow_0, Rmult_1_r, bpow_IZR, <- mult_IZR by lia.
    apply IZR_le. lia.
Qed.

(** [a / b] on two positive integers with [a <= b]. *)
Lemma int_truediv_le (a b : Z) (f : float) :
  (0 < a)%Z -> (a <= b)%Z -> int_truediv a b = Ok f ->
  nonneg_finite f = true /\
  0 <= val f <= IZR a / IZR b * (1 + eps) + eta.
Proof.
  intros A L. unfold int_truediv.
  destruct (Z.eqb_spec b 0) as [|_]; [lia|].
  destruct a as [|a|a]; try lia. destruct b as [|b|b]; try lia.
  cbn [exact_int SFdiv xorb].
  pose proof (int_div_core a b L) as C.
  destruct (SFdiv_core_binary prec emax (Zpos a) 0 (Zpos b) 0) as [[q e'] l].
  destruct C as (Q & S & V).
  pose proof (binary_round_aux_cases false q e' l Q) as K.
  assert (Pe : 0 < eps) by apply bpow_pos.
  assert (Pn : 0 < eta) by apply bpow_pos.
  assert (Pq : 0 <= F2R q e') by now apply F2R_nonneg.
  destruct (binary_round_aux prec emax false q e' l) as [s|s| |s m e] eqn:R;
    cbn [finite_or_overflow]; try discriminate; intros H; injection H as <-.
  - cbn [nonneg_finite val]. split; [reflexivity|]. nra.
  - contradiction.
  - subst s. cbn [nonneg_finite negb val cond_Zopp].
    split; [reflexivity|]. split; [apply F2R_nonneg; lia|].
    pose proof (round_aux_relative false q e' l false m e Q (or_intror S) R). nra.
Qed.

(** [a / b] on two positive integers is not negative. *)
Lemma int_truediv_nonneg (a b : Z) (f : float) :
  (0 < a)%Z -> (0 < b)%Z -> int_truediv a b = Ok f -> nonneg_finite f = true.
Proof.
  intros A B. unfold int_truediv.
  destruct (Z.eqb_spec b 0) as [|_]; [lia|].
  destruct a as [|a|a]; try lia. destruct b as [|b|b]; try lia.
  cbn [exact_int SFdiv xorb].
  pose proof (SFdiv_core_nonneg (Zpos a) 0 (Zpos b) 0 A B) as Q.
  destruct (SFdiv_core_binary prec emax (Zpos a) 0 (Zpos b) 0) as [[q e'] l].
  cbn [fst] in Q.
  pose proof (binary_round_aux_cases false q e' l Q) as K.
  destruct (binary_round_aux prec emax false q e' l) as [s|s| |s m e];
    cbn [finite_or_overflow]; try discriminate; intros H; injection H as <-.
  - reflexivity.
  - contradiction.
  - subst s. reflexivity.
Qed.

End DivisionFacts.

Section ProductFacts.
Local Open Scope R_scope.

Lemma eps_pos : 0 < eps.
Proof. apply bpow_pos. Qed.

Lemma eta_pos : 0 < eta.
Proof. apply bpow_pos. Qed.

Lemma val_nonneg (f : float) : nonneg_finite f = true -> 0 <= val f.
Proof.
  destruct f as [s|s| |s m e]; simpl; try discriminate; try lra.
  intros H. apply negb_true_iff in H. subst s. apply F2R_nonneg. cbn. lia.
Qed.

Lemma F2R_mul (m1 e1 m2 e2 : Z) :
  F2R (m1 * m2) (e1 + e2) = F2R m1 e1 * F2R m2 e2.
Proof. unfold F2R. rewrite mult_IZR, bpow_add. ring. Qed.

(** [x * y] on two non-negative doubles: never a NaN, never negative, and
    when finite at most the exact product times [1 + 2^-52], plus
    [2^-1074]. *)
Lemma float_mul_cases (x y : float) :
  nonneg_finite x = true -> nonneg_finite y = true ->
  match float_mul x y with
  | S754_nan => False
  | S754_infinity _ => True
  | S754_zero _ => True
  | S754_finite s m e =>
      s = false /\ F2R (Zpos m) e <= val x * val y * (1 + eps) + eta
  end.
Proof.
  intros X Y. unfold float_mul.
  destruct x as [sx|sx| |sx mx ex]; try discriminate;
    destruct y as [sy|sy| |sy my ey]; try discriminate; cbn [SFmul]; auto.
  cbn [nonneg_finite] in X, Y. apply negb_true_iff in X, Y. subst sx sy.
  cbn [xorb val cond_Zopp].
  pose proof (binary_round_aux_cases false (Zpos (mx * my)) (ex + ey) loc_Exact
                (Pos2Z.is_nonneg _)) as K.
  destruct (binary_round_aux prec emax false (Zpos (mx * my)) (ex + ey) loc_Exact)
    as [s|s| |s m e] eqn:R; auto.
  split; [assumption|]. rewrite <- F2R_mul.
  change (Zpos mx * Zpos my)%Z with (Zpos (mx * my)).
  exact (round_aux_relative false _ _ loc_Exact s m e
           (Pos2Z.is_nonneg _) (or_introl eq_refl) R).
Qed.

(** [int(x * y)] for two non-negative doubles. *)
Lemma int_of_float_mul (x y : float) (z : Z) :
  nonneg_finite x = true -> nonneg_finite y = true ->
  int_of_float (float_mul x y) = Ok z ->
  (0 <= z)%Z /\ IZR z <= val x * val y * (1 + eps) + eta.
Proof.
  intros X Y H. pose proof (float_mul_cases x y X Y) as C.
  pose proof (val_nonneg x X). pose proof (val_nonneg y Y).
  pose proof eps_pos. pose proof eta_pos.
  assert (0 <= val x * val y) by (apply Rmult_le_pos; assumption).
  destruct (float_mul x y) as [s|s| |s m e] eqn:E; try discriminate.
  - injection H as <-. split; [lia|]. nra.
  - destruct C as [-> C].
    destruct (int_of_float_integer_part (S754_finite false m e) z eq_refl H)
      as [P [I _]].
    split; [assumption|]. cbn [val cond_Zopp] in I. lra.
Qed.

(** [x / y] on two non-negative doubles is never a NaN and never
    negative, so [int] of it is not negative. *)
Lemma int_of_float_div (x y r : float) (z : Z) :
  nonneg_finite x = true -> nonneg_finite y = true ->
  float_truediv x y = Ok r -> int_of_float r = Ok z ->
  (0 <= z)%Z /\ nonneg_finite r = true.
Proof.
  intros X Y D H. unfold float_truediv in D.
  destruct y as [sy|sy| |sy my ey]; try discriminate. cbn [is_zero] in D.
  injection D as <-.
  cbn [nonneg_finite] in Y. apply negb_true_iff in Y. subst sy.
  destruct x as [sx|sx| |sx mx ex]; try discriminate; cbn [SFdiv] in *.
  - injection H as <-. split; [lia|reflexivity].
  - cbn [nonneg_finite] in X. apply negb_true_iff in X. subst sx.
    pose proof (SFdiv_core_nonneg (Zpos mx) ex (Zpos my) ey
                  (Pos2Z.is_pos _) (Pos2Z.is_pos _)) as Q.
    destruct (SFdiv_core_binary prec emax (Zpos mx) ex (Zpos my) ey) as [[q e'] l].
    cbn [fst] in Q. cbn [xorb] in *.
    pose proof (binary_round_aux_cases false q e' l Q) as K.
    destruct (binary_round_aux prec emax false q e' l) as [s|s| |s m e];
      try discriminate.
    + injection H as <-. split; [lia|reflexivity].
    + subst s.
      destruct (int_of_float_integer_part (S754_finite false m e) z eq_refl H).
      split; [assumption|reflexivity].
Qed.

Lemma bpow_52 : eps * 4503599627370496 = 1.
Proof.
  unfold eps. change 4503599627370496 with (IZR (2 ^ 52)).
  rewrite <- bpow_IZR, <- bpow_add by lia. reflexivity.
Qed.

Lemma bpow_m50 : bpow (-50) * 1125899906842624 = 1.
Proof.
  change 1125899906842624 with (IZR (2 ^ 50)).
  rewrite <- bpow_IZR, <- bpow_add by lia. reflexivity.
Qed.

(** The arithmetic behind the limit on the scaled dimensions: three
    roundings cannot lift [x * (M / d)] to [M + 1] when [M < 2^50]. *)
Lemma scale_arith (X D M vx vs zr : R) :
  0 <= X <= D -> 1 <= D -> D <= bpow 1024 ->
  1 <= M <= 1125899906842623 ->
  0 <= vx <= X * (1 + eps) ->
  0 <= vs <= M / D * (1 + eps) + eta ->
  zr <= vx * vs * (1 + eps) + eta ->
  zr < M + 1.
Proof.
  intros HX HD HB HM Hvx Hvs Hz.
  pose proof eps_pos as Pe. pose proof eta_pos as Pn.
  pose proof bpow_52 as E52. pose proof bpow_m50 as E50.
  assert (Heta : D * eta <= bpow (-50)).
  { replace (bpow (-50)) with (bpow 1024 * eta)
      by (unfold eta; rewrite <- bpow_add; reflexivity).
    apply Rmult_le_compat_r; lra. }
  assert (Heta' : eta <= bpow (-50)) by (unfold eta; apply bpow_le; lia).
  set (t := X * (M / D)).
  assert (Ht : 0 <= t <= M).
  { unfold t. split.
    - apply Rmult_le_pos; [lra|]. apply Rmult_le_pos; [lra|].
      apply Rlt_le, Rinv_0_lt_compat. lra.
    - replace (X * (M / D)) with (M * (X / D)) by (field; lra).
      rewrite <- (Rmult_1_r M) at 2. apply Rmult_le_compat_l; [lra|].
      apply Rmult_le_reg_r with D; [lra|].
      replace (X / D * D) with X by (field; lra). lra. }
  set (u := X * eta).
  assert (Hu : 0 <= u <= bpow (-50)).
  { unfold u. split; [apply Rmult_le_pos; lra|].
    apply Rle_trans with (D * eta); [|assumption].
    apply Rmult_le_compat_r; lra. }
  assert (P : vx * vs <= t * (1 + eps) * (1 + eps) + u * (1 + eps)).
  { apply Rle_trans with (X * (1 + eps) * (M / D * (1 + eps) + eta)).
    - apply Rmult_le_compat; lra.
    - unfold t, u. right. ring. }
  set (c := bpow (-50)) in *.
  assert (Ec : c = / 1125899906842624) by (apply Rmult_eq_reg_r with 1125899906842624; lra).
  assert (Ee : eps = / 4503599627370496) by (apply Rmult_eq_reg_r with 4503599627370496; lra).
  assert (Z1 : zr <= (t * (1 + eps) * (1 + eps) + u * (1 + eps)) * (1 + eps) + c).
  { apply Rle_trans with (vx * vs * (1 + eps) + eta); [assumption|].
    apply Rplus_le_compat; [|assumption].
    apply Rmult_le_compat_r; lra. }
  assert (Z2 : (t * (1 + eps) * (1 + eps) + u * (1 + eps)) * (1 + eps) + c
               <= (M * (1 + eps) * (1 + eps) + c * (1 + eps)) * (1 + eps) + c).
  { apply Rplus_le_compat_r. apply Rmult_le_compat_r; [lra|].
    apply Rplus_le_compat.
    - apply Rmult_le_compat_r; [lra|]. apply Rmult_le_compat_r; lra.
    - apply Rmult_le_compat_r; lra. }
  apply Rle_lt_trans with (1 := Z1). apply Rle_lt_trans with (1 := Z2).
  rewrite Ec, Ee. lra.
Qed.

End ProductFacts.

Import MediaResizer Rounding.

Section ResizerFacts.
Local Open Scope R_scope.

Lemma bind_ok (A B : Type) (r : result A) (k : A -> result B) (b : B) :
  bind r k = Ok b -> exists a, r = Ok a /\ k a = Ok b.
Proof. destruct r as [a|e]; simpl; [eauto|discriminate]. Qed.

(** [float(n)] for [n >= 0]. *)
Lemma float_of_int_nonneg (n : Z) (f : float) :
  (0 <= n)%Z -> float_of_int n = Ok f ->
  nonneg_finite f = true /\ 0 <= val f <= IZR n * (1 + eps) /\ (n < 2 ^ 1024)%Z.
Proof.
  intros H F. destruct n as [|p|p]; [| |lia].
  - injection F as <-. cbn [nonneg_finite val]. split; [reflexivity|].
    split; [lra|]. apply Z.pow_pos_nonneg; lia.
  - now apply float_of_int_pos.
Qed.

(** One scaled dimension: [int(x * (M / d))] stays within [M]. *)
Lemma scale_step (x d M : Z) (sc p : float) (z : Z) :
  (0 <= x <= d)%Z -> (0 < M < d)%Z -> (M < 2 ^ 50)%Z -> (d < 2 ^ 1024)%Z ->
  int_truediv M d = Ok sc ->
  int_mul_float x sc = Ok p -> int_of_float p = Ok z ->
  (0 <= z <= M)%Z.
Proof.
  intros Hx HM H50 Hd S P Z.
  destruct (int_truediv_le M d sc ltac:(lia) ltac:(lia) S) as [Ns Vs].
  unfold int_mul_float in P. apply bind_ok in P as (fx & Fx & P).
  injection P as <-.
  destruct (float_of_int_nonneg x fx ltac:(lia) Fx) as (Nx & Vx & _).
  destruct (int_of_float_mul fx sc z Nx Ns Z) as [Pz Vz].
  split; [assumption|].
  assert (IZR z < IZR M + 1).
  { apply (scale_arith (IZR x) (IZR d) (IZR M) (val fx) (val sc) (IZR z)); auto.
    - split; apply IZR_le; lia.
    - apply IZR_le. lia.
    - rewrite bpow_IZR by lia. apply IZR_le. lia.
    - split; [apply IZR_le; lia|].
      change 1125899906842623 with (IZR (2 ^ 50 - 1)). apply IZR_le. lia. }
  assert (z < M + 1)%Z by (apply lt_IZR; rewrite plus_IZR; assumption).
  lia.
Qed.

(** The first stage never yields a negative dimension. *)
Lemma width_from_product (n : Z) (y p : float) (z : Z) :
  (0 <= n)%Z -> nonneg_finite y = true ->
  int_mul_float n y = Ok p -> int_of_float p = Ok z ->
  (0 <= z)%Z /\ integer_part p z.
Proof.
  intros Hn Hy P Z. unfold int_mul_float in P.
  apply bind_ok in P as (fx & Fx & P). injection P as <-.
  destruct (float_of_int_nonneg n fx Hn Fx) as (Nx & _).
  pose proof (float_mul_cases fx y Nx Hy) as C.
  apply int_of_float_integer_part; [|assumption].
  destruct (float_mul fx y) as [s|s| |s m e]; try discriminate; try reflexivity.
  destruct C as [-> _]. reflexivity.
Qed.

Lemma height_from_quotient (n : Z) (y q : float) (z : Z) :
  (0 <= n)%Z -> nonneg_finite y = true ->
  int_div_float n y = Ok q -> int_of_float q = Ok z ->
  (0 <= z)%Z /\ integer_part q z.
Proof.
  intros Hn Hy Q Z. unfold int_div_float in Q.
  apply bind_ok in Q as (fx & Fx & Q).
  destruct (float_of_int_nonneg n fx Hn Fx) as (Nx & _).
  destruct (int_of_float_div fx y q z Nx Hy Q Z) as [P N].
  now apply int_of_float_integer_part.
Qed.

End ResizerFacts.

Section ResizerStages.
Local Open Scope Z_scope.

Lemma int_mul_float_range (n : Z) (y p : float) :
  0 <= n -> int_mul_float n y = Ok p -> n < 2 ^ 1024.
Proof.
  intros Hn P. unfold int_mul_float in P. apply bind_ok in P as (fx & Fx & _).
  now destruct (float_of_int_nonneg n fx Hn Fx) as (_ & _ & R).
Qed.

(** Lines 66-74: the dimensions at the target aspect. *)
Lemma aspect_stage (cw ch : Z) (ca ta : float) (w h : Z) :
  0 < cw -> 0 < ch -> nonneg_finite ta = true ->
  (if float_gt ca ta then
     let new_height := ch in
     p <- int_mul_float new_height ta ;;
     new_width <- int_of_float p ;;
     Ok (new_width, new_height)
   else
     let new_width := cw in
     q <- int_div_float new_width ta ;;
     new_height <- int_of_float q ;;
     Ok (new_width, new_height)) = Ok (w, h) ->
  0 <= w /\ 0 <= h.
Proof.
  intros Hw Hh Ht H. destruct (float_gt ca ta); cbv zeta in H.
  - apply bind_ok in H as (p & P & H). apply bind_ok in H as (z & Z & H).
    injection H as <- <-.
    destruct (width_from_product ch ta p z ltac:(lia) Ht P Z). lia.
  - apply bind_ok in H as (q & Q & H). apply bind_ok in H as (z & Z & H).
    injection H as <- <-.
    destruct (height_from_quotient cw ta q z ltac:(lia) Ht Q Z). lia.
Qed.

(** Lines 76-83: the limit to [max_dimension]. *)
Lemma limit_stage (w h M w' h' : Z) :
  0 <= w -> 0 <= h -> 0 < M < 2 ^ 50 ->
  (if (w >? M) || (h >? M) then
     scale <- (if w >? h then int_truediv M w else int_truediv M h) ;;
     p <- int_mul_float w scale ;;
     new_width' <- int_of_float p ;;
     q <- int_mul_float h scale ;;
     new_height' <- int_of_float q ;;
     Ok (new_width', new_height')
   else Ok (w, h)) = Ok (w', h') ->
  w' <= M /\ h' <= M.
Proof.
  intros Hw Hh HM H.
  destruct ((w >? M) || (h >? M)) eqn:C.
  - apply bind_ok in H as (sc & S & H).
    apply bind_ok in H as (p & P & H). apply bind_ok in H as (zw & Zw & H).
    apply bind_ok in H as (q & Q & H). apply bind_ok in H as (zh & Zh & H).
    injection H as <- <-.
    pose proof (int_mul_float_range w sc p Hw P) as Rw.
    pose proof (int_mul_float_range h sc q Hh Q) as Rh.
    apply orb_true_iff in C. rewrite !Z.gtb_ltb, !Z.ltb_lt in C.
    set (d := if w >? h then w else h).
    assert (Sd : int_truediv M d = Ok sc) by (unfold d; destruct (w >? h); exact S).
    assert (D : w <= d /\ h <= d /\ M < d /\ d < 2 ^ 1024).
    { unfold d. destruct (w >? h) eqn:G; rewrite Z.gtb_ltb in G;
        [apply Z.ltb_lt in G|apply Z.ltb_ge in G]; lia. }
    destruct (scale_step w d M sc p zw ltac:(lia) ltac:(lia) ltac:(lia)
                ltac:(lia) Sd P Zw).
    destruct (scale_step h d M sc q zh ltac:(lia) ltac:(lia) ltac:(lia)
                ltac:(lia) Sd Q Zh).
    lia.
  - injection H as <- <-. apply orb_false_iff in C.
    rewrite !Z.gtb_ltb, !Z.ltb_ge in C. lia.
Qed.

End ResizerStages.

(** C7: the example of the specification. *)
Theorem calculate_dimensions_400_300 :
  _calculate_dimensions 400 300 (16, 9) 1920 = Ok ((400, 225), (400, 225)).
Proof. vm_compute. reflexivity. Qed.

(** C1 fails on the code: for a 100x100 source and the ratio 16:9 the
    canvas is 99 wide and the scaled picture 100 wide, so the padding is
    negative. *)
Theorem calculate_dimensions_canvas_narrower :
  _calculate_dimensions 100 100 (16, 9) 1920 = Ok ((100, 56), (99, 56)).
Proof. vm_compute. reflexivity. Qed.

(** C4 fails on the code: for a 1x1 source and the ratio 16:9 the scaled
    height is truncated to 0 and [new_width / new_height] divides by
    zero. *)
Theorem calculate_dimensions_zero_division :
  _calculate_dimensions 1 1 (16, 9) 1920 = Raise ZeroDivisionError.
Proof. vm_compute. reflexivity. Qed.

(** C2, as stated, fails: for a 10x10 source and the ratio 16:9 the scaled
    height is 5, and 10 / (16/9) = 5.625 rounds to 6. *)
Lemma calculate_dimensions_not_rounded :
  _calculate_dimensions 10 10 (16, 9) 1920 = Ok ((10, 5), (8, 5)) /\
  (target_aspect <- int_truediv 16 9 ;;
   q <- int_div_float 10 target_aspect ;;
   round_nearest q) = Ok 6.
Proof. split; vm_compute; reflexivity. Qed.

(** C2, as it holds: when [current_w / current_h > target_w / target_h] as
    doubles, the width computed first is the integer part of the double
    product [current_h * target_aspect] (truncated, not rounded) and the
    height is [current_h]; otherwise the height is the integer part of the
    double quotient [current_w / target_aspect] and the width is
    [current_w]; these are the scaled dimensions returned when neither
    exceeds [max_dimension]. *)
Theorem calculate_dimensions_truncates
    (cw ch tw th M : Z) (scaled canvas : Z * Z) :
  0 < cw -> 0 < ch -> 0 < tw -> 0 < th ->
  _calculate_dimensions cw ch (tw, th) M = Ok (scaled, canvas) ->
  exists target_aspect current_aspect,
    int_truediv tw th = Ok target_aspect /\
    int_truediv cw ch = Ok current_aspect /\
    if float_gt current_aspect target_aspect then
      exists p w,
        int_mul_float ch target_aspect = Ok p /\ int_of_float p = Ok w /\
        integer_part p w /\
        (w <= M -> ch <= M -> scaled = (w, ch))
    else
      exists q h,
        int_div_float cw target_aspect = Ok q /\ int_of_float q = Ok h /\
        integer_part q h /\
        (cw <= M -> h <= M -> scaled = (cw, h)).
Proof.
  intros Hw Hh Htw Hth H. unfold _calculate_dimensions in H.
  apply bind_ok in H as (ta & Ta & H). apply bind_ok in H as (ca & Ca & H).
  apply bind_ok in H as ([w h] & S1 & H). apply bind_ok in H as ([w' h'] & S2 & H).
  apply bind_ok in H as (r & _ & H). apply bind_ok in H as ([cvw cvh] & _ & H).
  injection H as <- _.
  exists ta, ca. split; [assumption|]. split; [assumption|].
  pose proof (int_truediv_nonneg tw th ta Htw Hth Ta) as Nt.
  assert (K : (w >? M) || (h >? M) = false -> (w', h') = (w, h)).
  { intros C. rewrite C in S2. now injection S2 as <- <-. }
  destruct (float_gt ca ta); cbv zeta in S1.
  - apply bind_ok in S1 as (p & P & S1). apply bind_ok in S1 as (z & Z & S1).
    injection S1 as <- <-. exists p, z.
    destruct (width_from_product ch ta p z ltac:(lia) Nt P Z) as [_ I].
    repeat split; try assumption; try apply I.
    intros A B. apply K. apply orb_false_iff. rewrite !Z.gtb_ltb, !Z.ltb_ge. lia.
  - apply bind_ok in S1 as (q & Q & S1). apply bind_ok in S1 as (z & Z & S1).
    injection S1 as <- <-. exists q, z.
    destruct (height_from_quotient cw ta q z ltac:(lia) Nt Q Z) as [_ I].
    repeat split; try assumption; try apply I.
    intros A B. apply K. apply orb_false_iff. rewrite !Z.gtb_ltb, !Z.ltb_ge. lia.
Qed.


Lemma calculate_dimensions_truncates_witness :
  exists target_aspect current_aspect,
    int_truediv 16 9 = Ok target_aspect /\
    int_truediv 10 10 = Ok current_aspect /\
    if float_gt current_aspect target_aspect then
      exists p w,
        int_mul_float 10 target_aspect = Ok p /\ int_of_float p = Ok w /\
        integer_part p w /\
        (w <= 1920 -> 10 <= 1920 -> (10, 5) = (w, 10))
    else
      exists q h,
        int_div_float 10 target_aspect = Ok q /\ int_of_float q = Ok h /\
        integer_part q h /\
        (10 <= 1920 -> h <= 1920 -> (10, 5) = (10, h)).
Proof.
  apply (calculate_dimensions_truncates 10 10 16 9 1920 (10, 5) (8, 5));
    try lia. vm_compute. reflexivity.
Defined.

(* ================================================================== *)
(** * Further properties of [parse_story_script] *)
(* ================================================================== *)

Section SceneFacts.

Lemma rstrip_prefix (t : str) :
  t = rstrip t ++ rev (take_while is_space (rev t)).
Proof.
  unfold rstrip. rewrite <- rev_app_distr, take_drop_while.
  now rewrite rev_involutive.
Qed.

Lemma rstrip_last (t : str) (d : ascii) :
  rstrip t <> [] -> is_space (last (rstrip t) d) = false.
Proof.
  unfold rstrip. destruct (drop_while is_space (rev t)) as [|c r] eqn:E.
  - intros N. now contradiction N.
  - intros _. cbn [rev]. rewrite last_last. eapply drop_while_head; eauto.
Qed.

(** What [s.strip()] returns has no white space at either end. *)
Lemma trimmed_strip (s : str) : trimmed (strip s) = true.
Proof.
  destruct (strip s) as [|c r] eqn:E; [reflexivity|].
  rewrite (trimmed_spec _ c) by discriminate. rewrite <- E.
  assert (N : rstrip (lstrip s) <> []) by (unfold strip in E; congruence).
  apply andb_true_iff. split; apply negb_true_iff.
  - unfold strip. pose proof (rstrip_prefix (lstrip s)) as P.
    destruct (rstrip (lstrip s)) as [|a x] eqn:R; [congruence|].
    cbn [hd]. unfold lstrip in P.
    destruct (drop_while is_space s) as [|b y] eqn:D; [discriminate|].
    injection P as <- _. eapply drop_while_head; eauto.
  - unfold strip. now apply rstrip_last.
Qed.

Lemma decimal_value_from (ds : str) (acc : Z) :
  forallb is_digit ds = true -> 0 <= acc ->
  0 <= fold_left (fun a c => 10 * a + digit_val c) ds acc.
Proof.
  revert acc. induction ds as [|c ds IH]; intros acc H A; [assumption|].
  cbn [forallb] in H. apply andb_true_iff in H as [Hc H].
  cbn [fold_left]. apply IH; [assumption|].
  unfold is_digit in Hc. apply andb_true_iff in Hc as [L _].
  apply N.leb_le in L. unfold digit_val. lia.
Qed.

(** The value of a run of digits is not negative. *)
Lemma decimal_value_nonneg (ds : str) :
  forallb is_digit ds = true -> 0 <= decimal_value ds.
Proof. intros H. apply decimal_value_from; [assumption|lia]. Qed.

Lemma count_markers_suffix (a x : str) :
  (count_markers x <= count_markers (a ++ x))%nat.
Proof.
  induction a as [|c a IH]; [apply Nat.le_refl|].
  cbn [app]. rewrite count_markers_cons.
  destruct (match_marker (c :: a ++ x)); lia.
Qed.

(** A match starts at a marker and ends inside the text after it. *)
Lemma match_scene_marker (c : ascii) (s g1 g2 rest : str) :
  match_scene (c :: s) = Some (g1, g2, rest) ->
  match_marker (c :: s) <> None /\ exists a, s = a ++ rest.
Proof.
  intros H. apply match_scene_rest in H as [[r M] A].
  split; [congruence|assumption].
Qed.

(** Every match uses up a marker of its own. *)
Lemma finditer_count (f : nat) (s : str) :
  (length (finditer f s) <= count_markers s)%nat.
Proof.
  revert s. induction f as [|f IH]; intros s; [simpl; lia|].
  destruct s as [|c s]; [simpl; lia|].
  rewrite finditer_step by discriminate. cbn [tl].
  rewrite count_markers_cons.
  destruct (match_scene (c :: s)) as [[[g1 g2] rest]|] eqn:E.
  - apply match_scene_marker in E as (M & a & ->).
    destruct (match_marker (c :: a ++ rest)); [|congruence].
    cbn [length]. pose proof (IH rest). pose proof (count_markers_suffix a rest).
    lia.
  - pose proof (IH s). destruct (match_marker (c :: s)); lia.
Qed.

(** The scenes built from matches whose first group is a run of digits. *)
Lemma map_result_scene_values (l : list (str * str)) (scenes : list Scene) :
  Forall (fun m => nonempty (fst m) = true /\ forallb is_digit (fst m) = true) l ->
  map_result scene_of_match l = Ok scenes ->
  length scenes = length l /\
  Forall (fun sc => 0 <= scene_number sc /\ trimmed (description sc) = true)
         scenes.
Proof.
  intros F. revert scenes.
  induction F as [|[g1 g2] l [N1 N2] _ IH]; intros scenes H.
  - injection H as <-. split; [reflexivity|constructor].
  - cbn [fst] in N1, N2. cbn [map_result] in H. unfold scene_of_match at 1 in H.
    rewrite int_of_str_digits_cases in H by assumption.
    destruct (max_str_digits <? Z.of_nat (length g1)); [discriminate|].
    cbn [bind] in H.
    destruct (map_result scene_of_match l) as [rest|e]; [|discriminate].
    cbn [bind] in H. injection H as <-.
    destruct (IH rest eq_refl) as [L W]. split; [simpl; congruence|].
    constructor; [|assumption]. cbn [scene_number description].
    split; [now apply decimal_value_nonneg|apply trimmed_strip].
Qed.

End SceneFacts.

(** X1: whatever [parse_story_script] returns, every scene number is at
    least zero, every description comes without white space at either
    end, and there are at most as many scenes as the text holds markers. *)
Theorem parse_story_script_scenes_wellformed (s : str) (scenes : list Scene) :
  parse_story_script s = Ok scenes ->
  (length scenes <= count_markers s)%nat /\
  Forall (fun sc => 0 <= scene_number sc /\ trimmed (description sc) = true)
         scenes.
Proof.
  unfold parse_story_script. destruct (strip s); [discriminate|].
  destruct (map_result scene_of_match (finditer (length s) s)) as [l|e] eqn:M;
    [|discriminate].
  cbn [bind]. destruct l as [|x l]; [discriminate|]. intros H. injection H as <-.
  destruct (map_result_scene_values _ _ (finditer_groups (length s) s) M) as [L W].
  split; [|assumption]. rewrite L. apply finditer_count.
Qed.

Lemma parse_story_script_scenes_wellformed_witness :
  (length [ {| scene_number := 7; description := lit "x" |} ]
   <= count_markers (lit "Scene 7: x "))%nat /\
  Forall (fun sc => 0 <= scene_number sc /\ trimmed (description sc) = true)
         [ {| scene_number := 7; description := lit "x" |} ].
Proof.
  apply (parse_story_script_scenes_wellformed (lit "Scene 7: x ")).
  vm_compute. reflexivity.
Defined.

(** X2: the marker is case-sensitive.  A text that is not blank and holds
    no capital [S] has no scene, however many lower-case [scene N:] it
    holds. *)
Theorem parse_story_script_capital_S (s : str) :
  forallb is_space s = false -> forallb not_S s = true ->
  parse_story_script s = Raise NoScenesFound.
Proof.
  intros B H. rewrite parse_story_script_cases, B.
  pose proof (count_markers_no_S s [] H) as C. rewrite app_nil_r in C.
  cbn [count_markers] in C. now rewrite (no_marker_no_scene s C).
Qed.

Lemma parse_story_script_capital_S_witness :
  parse_story_script (lit "scene 1: the beginning") = Raise NoScenesFound.
Proof.
  apply parse_story_script_capital_S; reflexivity.
Defined.

(* ================================================================== *)
(** * Further properties of [parse_srt] *)
(* ================================================================== *)

Import TimingLine.

Section SeparatorShape.

Lemma find_sep_sound (sep s a r : str) :
  find_sep sep s = Some (a, r) -> s = a ++ sep ++ r.
Proof.
  revert a r. induction s as [|c t IH]; intros a r H.
  - cbn [find_sep] in H.
    destruct (strip_prefix sep []) as [r0|] eqn:P; [|discriminate].
    injection H as <- <-. now apply strip_prefix_Some in P.
  - cbn [find_sep] in H.
    destruct (strip_prefix sep (c :: t)) as [r0|] eqn:P.
    + injection H as <- <-. now apply strip_prefix_Some in P.
    + destruct (find_sep sep t) as [[a0 b0]|]; [|discriminate].
      injection H as <- <-. cbn [app]. f_equal. now apply IH.
Qed.

Lemma split_fuel_nonempty (f : nat) (sep s : str) : split_fuel f sep s <> [].
Proof.
  destruct f; cbn [split_fuel]; [discriminate|].
  destruct (find_sep sep s) as [[a r]|]; discriminate.
Qed.

(** A split into exactly two pieces: the text is the two pieces around
    one separator. *)
Lemma split_two (sep s a b : str) :
  split sep s = [a; b] -> s = a ++ sep ++ b.
Proof.
  unfold split. destruct (length s) as [|f]; cbn [split_fuel]; [discriminate|].
  destruct (find_sep sep s) as [[a0 r]|] eqn:F; [|discriminate].
  intros H. injection H as -> H. apply find_sep_sound in F.
  assert (r = b); [|congruence].
  destruct f; cbn [split_fuel] in H; [congruence|].
  destruct (find_sep sep r) as [[a1 r1]|]; [|congruence].
  injection H as _ H. now apply split_fuel_nonempty in H.
Qed.

Lemma unpack2_ok (parts : list str) (a b : str) :
  unpack2 parts = Ok (a, b) -> parts = [a; b].
Proof.
  destruct parts as [|x [|y [|z l]]]; cbn; intros H; try discriminate.
  now injection H as -> ->.
Qed.

Lemma match_timestamp_inv (s r : str) :
  match_timestamp s = Some r ->
  exists t, s = t ++ r /\ timestamp_ok t = true.
Proof.
  unfold match_timestamp.
  destruct s as [|h1 [|h2 [|c1 [|m1 [|m2 [|c2 [|s1 [|s2 [|c3 [|f1 [|f2 [|f3 r0]]]]]]]]]]]];
    try discriminate.
  match goal with |- context [if ?b then _ else _] => destruct b eqn:B end;
    [|discriminate].
  intros H. injection H as <-.
  exists [h1; h2; c1; m1; m2; c2; s1; s2; c3; f1; f2; f3]. split; [reflexivity|].
  unfold timestamp_ok, match_timestamp. now rewrite B.
Qed.

(** A line that passes the timing pattern: two time stamps around an arrow
    with optional white space on both sides, then the end of the line. *)
Lemma match_timing_shape (s : str) :
  match_timing s = true ->
  exists t1 w1 w2 t2 tl,
    s = t1 ++ w1 ++ lit "-->" ++ w2 ++ t2 ++ tl /\
    timestamp_ok t1 = true /\ forallb is_space w1 = true /\
    forallb is_space w2 = true /\ timestamp_ok t2 = true /\
    at_dollar tl = true.
Proof.
  unfold match_timing.
  destruct (match_timestamp s) as [r|] eqn:M1; [|discriminate].
  destruct (strip_prefix (lit "-->") (drop_while is_space r)) as [r2|] eqn:P;
    [|discriminate].
  destruct (match_timestamp (drop_while is_space r2)) as [r3|] eqn:M2;
    [|discriminate].
  intros D.
  apply match_timestamp_inv in M1 as (t1 & E1 & T1).
  apply match_timestamp_inv in M2 as (t2 & E2 & T2).
  apply strip_prefix_Some in P.
  exists t1, (take_while is_space r), (take_while is_space r2), t2, r3.
  repeat split; auto using take_while_all.
  rewrite E1. f_equal.
  rewrite <- (take_drop_while is_space r) at 1. f_equal.
  rewrite P. f_equal.
  rewrite <- (take_drop_while is_space r2) at 1. f_equal. assumption.
Qed.

Lemma no_gt_app (a b : str) : no_gt (a ++ b) = no_gt a && no_gt b.
Proof. apply forallb_app. Qed.

Lemma space_no_gt (w : str) : forallb is_space w = true -> no_gt w = true.
Proof.
  unfold no_gt. induction w as [|c w IH]; [reflexivity|]. cbn [forallb].
  intros H. apply andb_true_iff in H as [Hc H]. rewrite IH by assumption.
  rewrite andb_true_r. apply negb_true_iff.
  destruct (Ascii.eqb_spec c ">"%char) as [->|]; [discriminate|reflexivity].
Qed.

Lemma timestamp_no_gt (t : str) : timestamp_ok t = true -> no_gt t = true.
Proof.
  intros H. apply timestamp_ok_inv in H
    as (h1 & h2 & m1 & m2 & s1 & s2 & f1 & f2 & f3 & -> & H).
  assert (D : forall c, is_digit c = true -> negb (Ascii.eqb c ">"%char) = true).
  { intros c Hc. apply negb_true_iff.
    destruct (Ascii.eqb_spec c ">"%char) as [->|]; [discriminate|reflexivity]. }
  repeat match goal with H : _ /\ _ |- _ => destruct H end.
  unfold no_gt. cbn [forallb].
  repeat match goal with H : is_digit _ = true |- _ =>
    rewrite (D _ H); clear H end.
  reflexivity.
Qed.

Lemma at_dollar_space (tl : str) : at_dollar tl = true -> forallb is_space tl = true.
Proof.
  destruct tl as [|c [|d tl]]; cbn; try discriminate; [reflexivity|].
  unfold is_newline. intros H. apply Ascii.eqb_eq in H. subst c. reflexivity.
Qed.

(** The one place of a character that occurs once. *)
Lemma unique_char_split (g : ascii) (x1 x2 y1 y2 : str) :
  x1 ++ g :: x2 = y1 ++ g :: y2 ->
  forallb (fun c => negb (Ascii.eqb c g)) x1 = true ->
  forallb (fun c => negb (Ascii.eqb c g)) x2 = true ->
  x1 = y1 /\ x2 = y2.
Proof.
  revert y1. induction x1 as [|a x1 IH]; intros y1 E N1 N2.
  - destruct y1 as [|b y1]; cbn [app] in E.
    + injection E as ->. auto.
    + injection E as <- E. subst x2. rewrite forallb_app in N2.
      apply andb_true_iff in N2 as [_ N2]. cbn [forallb] in N2.
      rewrite Ascii.eqb_refl in N2. discriminate.
  - cbn [forallb] in N1. apply andb_true_iff in N1 as [Na N1].
    destruct y1 as [|b y1]; cbn [app] in E.
    + injection E as -> _. rewrite Ascii.eqb_refl in Na. discriminate.
    + injection E as <- E. destruct (IH y1 E N1 N2) as [-> ->]. auto.
Qed.

Lemma strip_app_spaces (a w : str) :
  forallb is_space w = true -> strip (a ++ w) = strip a.
Proof.
  induction w as [|c w IH] using rev_ind; intros H.
  - now rewrite app_nil_r.
  - rewrite forallb_app in H. apply andb_true_iff in H as [Hw Hc].
    cbn [forallb] in Hc. rewrite andb_true_r in Hc.
    rewrite app_assoc, strip_app_space by assumption. auto.
Qed.

Lemma strip_spaces_app (w a : str) :
  forallb is_space w = true -> strip (w ++ a) = strip a.
Proof.
  intros H. unfold strip, lstrip. now rewrite drop_while_app.
Qed.

(** The two sides of the separator of a line that passes the pattern are
    the two time stamps, up to white space. *)
Lemma timing_parts (s a b : str) :
  match_timing s = true -> s = a ++ lit " --> " ++ b ->
  timestamp_ok (strip a) = true /\ timestamp_ok (strip b) = true.
Proof.
  intros M E.
  apply match_timing_shape in M as (t1 & w1 & w2 & t2 & tl & S & T1 & W1 & W2 & T2 & D).
  pose proof (timestamp_no_space _ T1) as P1.
  pose proof (timestamp_no_space _ T2) as P2.
  assert (X : (t1 ++ w1 ++ lit "--") ++ ">"%char :: (w2 ++ t2 ++ tl)
              = (a ++ lit " --") ++ ">"%char :: (" "%char :: b)).
  { rewrite <- !app_assoc. cbn [lit list_ascii_of_string app].
    cbn [lit list_ascii_of_string app] in S, E. congruence. }
  apply unique_char_split in X as [X1 X2].
  - cbn [lit list_ascii_of_string] in X1.
    change (t1 ++ w1 ++ ["-"; "-"]%char) with (t1 ++ w1 ++ ["-"%char] ++ ["-"%char]) in X1.
    change (a ++ [" "; "-"; "-"]%char)
      with (a ++ [" "%char] ++ ["-"%char] ++ ["-"%char]) in X1.
    rewrite !app_assoc in X1. apply app_inj_tail in X1 as [X1 _].
    apply app_inj_tail in X1 as [X1 _]. split.
    + destruct (exists_last (l := w1)) as (w & c & Ew).
      { intros ->. rewrite app_nil_r in X1. subst t1.
        unfold no_space in P1. rewrite forallb_app in P1.
        apply andb_true_iff in P1 as [_ P1]. discriminate. }
      subst w1. rewrite app_assoc in X1. apply app_inj_tail in X1 as [<- _].
      rewrite forallb_app in W1. apply andb_true_iff in W1 as [W1 _].
      rewrite strip_app_spaces by assumption.
      rewrite strip_trimmed by now apply no_space_trimmed. assumption.
    + destruct w2 as [|c w2]; cbn [app] in X2.
      { destruct t2 as [|d t2]; [discriminate|]. cbn [app] in X2.
        injection X2 as -> _. discriminate. }
      injection X2 as _ <-. cbn [forallb] in W2.
      apply andb_true_iff in W2 as [_ W2].
      rewrite strip_spaces_app by assumption.
      rewrite strip_app_spaces by now apply at_dollar_space.
      rewrite strip_trimmed by now apply no_space_trimmed. assumption.
  - fold (no_gt (t1 ++ w1 ++ lit "--")). rewrite !no_gt_app.
    rewrite (timestamp_no_gt t1 T1), (space_no_gt w1 W1). reflexivity.
  - fold (no_gt (w2 ++ t2 ++ tl)). rewrite !no_gt_app.
    rewrite (space_no_gt w2 W2), (timestamp_no_gt t2 T2),
      (space_no_gt tl (at_dollar_space tl D)). reflexivity.
Qed.

End SeparatorShape.

Section TextShape.

Lemma split_lines_no_newline (s : str) :
  Forall (fun l => no_newline l = true) (split_lines s).
Proof.
  induction s as [|c s IH]; cbn [split_lines].
  - constructor; [reflexivity|constructor].
  - destruct (is_newline c) eqn:N.
    + constructor; [reflexivity|assumption].
    + destruct (split_lines s) as [|l ls]; [repeat constructor; cbn; now rewrite N|].
      inversion IH; subst. constructor; [|assumption].
      unfold no_newline. cbn [forallb]. rewrite N. assumption.
Qed.

Lemma no_newline_join (parts : list str) :
  Forall (fun l => no_newline l = true) parts ->
  no_newline (join (lit " ") parts) = true.
Proof.
  induction 1 as [|p ps Hp _ IH]; [reflexivity|].
  cbn [join]. destruct ps as [|q ps]; [assumption|].
  unfold no_newline in *. rewrite !forallb_app, Hp, IH. reflexivity.
Qed.

Lemma no_newline_strip (x : str) : no_newline x = true -> no_newline (strip x) = true.
Proof.
  intros H. unfold strip.
  assert (L : no_newline (lstrip x) = true).
  { unfold lstrip, no_newline in *.
    rewrite <- (take_drop_while is_space x), forallb_app in H.
    now apply andb_true_iff in H as [_ H]. }
  rewrite (rstrip_prefix (lstrip x)) in L. unfold no_newline in *.
  rewrite forallb_app in L. now apply andb_true_iff in L as [L _].
Qed.

(** When the last line is blank the text ends with white space. *)
Lemma split_lines_last_blank (s : str) :
  forallb is_space (last (split_lines s) []) = true ->
  s = [] \/ is_space (last s " "%char) = true.
Proof.
  induction s as [|c s IH]; [auto|]. cbn [split_lines].
  pose proof (split_lines_nonempty s) as NE.
  destruct (is_newline c) eqn:N.
  - intros H. right.
    assert (H' : forallb is_space (last (split_lines s) []) = true).
    { revert H NE. destruct (split_lines s); [congruence|]. intros H _. exact H. }
    destruct s as [|d s'].
    + cbn [last]. unfold is_newline in N. apply Ascii.eqb_eq in N. now subst c.
    + destruct (IH H') as [K|K]; [discriminate|exact K].
  - destruct (split_lines s) as [|l ls] eqn:E; [congruence|].
    destruct ls as [|l2 ls]; intros H; right.
    + cbn [last forallb] in H, IH. apply andb_true_iff in H as [Hc Hl].
      destruct s as [|d s']; [exact Hc|].
      destruct (IH Hl) as [K|K]; [discriminate|exact K].
    + destruct s as [|d s']; [discriminate|].
      destruct (IH H) as [K|K]; [discriminate|exact K].
Qed.

Lemma join_blank (sep : str) (parts : list str) :
  forallb is_space (join sep parts) = true ->
  forallb is_space (last parts []) = true.
Proof.
  induction parts as [|p ps IH]; [reflexivity|]. cbn [join].
  destruct ps as [|q ps]; [auto|].
  rewrite !forallb_app. intros H.
  apply andb_true_iff in H as [_ H]. apply andb_true_iff in H as [_ H].
  apply IH in H. exact H.
Qed.

Lemma last_skipn2 (lines : list str) :
  (3 <= length lines)%nat -> last (skipn 2 lines) [] = last lines [].
Proof.
  destruct lines as [|a [|b [|c l]]]; cbn [length]; try lia. reflexivity.
Qed.

(** The text of a block of at least three lines cut from a trimmed text is
    one line, not empty and trimmed. *)
Lemma block_text_ok (u : str) :
  trimmed u = true -> (3 <= length (split_lines u))%nat ->
  text_ok (strip (join (lit " ") (skipn 2 (split_lines u)))) = true.
Proof.
  intros T L. set (x := join (lit " ") (skipn 2 (split_lines u))).
  assert (N : strip x <> []).
  { intros E. apply strip_nil_iff in E. unfold x in E. apply join_blank in E.
    rewrite last_skipn2 in E by assumption.
    apply split_lines_last_blank in E as [->|E]; [cbn in L; lia|].
    destruct u as [|c u]; [cbn in L; lia|].
    unfold trimmed in T. apply andb_true_iff in T as [_ T].
    apply negb_true_iff in T.
    assert (last (c :: u) " "%char = last (c :: u) c); [|congruence].
    destruct (exists_last (l := c :: u)) as (a & d & ->); [discriminate|].
    now rewrite !last_last. }
  unfold text_ok. destruct (strip x) as [|c r] eqn:E; [congruence|].
  rewrite <- E. rewrite trimmed_strip. cbn [andb].
  apply no_newline_strip. unfold x. apply no_newline_join.
  assert (F : forall (n : nat) (l : list str),
             Forall (fun l => no_newline l = true) l ->
             Forall (fun l => no_newline l = true) (skipn n l)).
  { intros n l H. rewrite Forall_forall in *. intros y Hy.
    apply H. rewrite <- (firstn_skipn n l). apply in_or_app. now right. }
  apply F, split_lines_no_newline.
Qed.

End TextShape.

Section EntryFacts.

(** One block: what the body of the [try] returns is well formed. *)
Lemma parse_block_entry_ok (u : str) (e : SubtitleEntry) :
  trimmed u = true -> (3 <= length (split_lines u))%nat ->
  parse_block (split_lines u) = Ok e -> entry_ok e = true.
Proof.
  intros T L. unfold parse_block.
  destruct (int_of_str (nth 0 (split_lines u) [])) as [i|e0] eqn:I;
    [|discriminate].
  apply int_of_str_printable in I.
  cbn [bind].
  destruct (match_timing (nth 1 (split_lines u) [])) eqn:M;
    [|cbn [negb]; destruct (str_of_int i); discriminate].
  cbn [negb].
  destruct (unpack2 (split (lit " --> ") (nth 1 (split_lines u) [])))
    as [[a b]|e1] eqn:U; [|discriminate].
  cbn [bind]. intros H. injection H as <-.
  apply unpack2_ok, split_two in U.
  destruct (timing_parts _ a b M U) as [A B].
  unfold entry_ok. cbn [index start_time end_time text].
  rewrite I, A, B. cbn [andb]. now apply block_text_ok.
Qed.

Lemma parse_blocks_entries_ok (blocks : list str) (entries : list SubtitleEntry) :
  parse_blocks blocks = Ok entries -> forallb entry_ok entries = true.
Proof.
  revert entries. induction blocks as [|b rest IH]; intros entries H.
  - injection H as <-. reflexivity.
  - rewrite parse_blocks_cons in H. unfold lines_of in H.
    destruct (length (split_lines (strip b)) <? 3)%nat eqn:L; [auto|].
    apply Nat.ltb_ge in L.
    destruct (parse_block (split_lines (strip b))) as [e|x] eqn:P.
    + cbn [try_except_ValueError bind] in H.
      destruct (parse_blocks rest) as [es|x]; [|discriminate].
      cbn [bind] in H. injection H as <-. cbn [forallb].
      rewrite (parse_block_entry_ok (strip b) e (trimmed_strip b) L P).
      now rewrite IH.
    + destruct (parse_block_error _ _ P) as [m ->].
      cbn [try_except_ValueError bind] in H. discriminate.
Qed.

End EntryFacts.

(** X3: every entry [parse_srt] returns is well formed: the index has at
    most 4300 digits, both time stamps have the exact form [HH:MM:SS,mmm],
    and the text is one line, not empty, with no white space at either
    end. *)
Theorem parse_srt_entries_wellformed
    (srt_content : str) (entries : list SubtitleEntry) :
  parse_srt srt_content = Ok entries -> forallb entry_ok entries = true.
Proof.
  unfold parse_srt. destruct (strip srt_content); [discriminate|].
  match goal with |- context [negb ?x] => destruct (negb x) end; [discriminate|].
  apply parse_blocks_entries_ok.
Qed.

Lemma parse_srt_entries_wellformed_witness :
  forallb entry_ok
    [ {| index := 1; start_time := lit "00:00:01,000";
         end_time := lit "00:00:02,000"; text := lit "a b" |} ] = true.
Proof.
  apply (parse_srt_entries_wellformed
           (lit "1" ++ [newline] ++ lit "00:00:01,000   -->   00:00:02,000"
            ++ [newline] ++ lit " a" ++ [newline] ++ lit "b " ++ [newline])).
  vm_compute. reflexivity.
Defined.

(** X4: what [parse_srt] returns survives being written and read again:
    when some returned index is not negative, [save_srt] writes the
    entries without failing, and [parse_srt] of what it writes gives the
    same entries. *)
Theorem parse_srt_stable (srt_content : str) (entries : list SubtitleEntry) :
  parse_srt srt_content = Ok entries ->
  existsb (fun e => 0 <=? index e) entries = true ->
  exists written,
    save_srt entries = Ok written /\ parse_srt written = Ok entries.
Proof.
  intros H P.
  assert (W : forallb entry_ok entries = true).
  { revert H. unfold parse_srt. destruct (strip srt_content); [discriminate|].
    match goal with |- context [negb ?x] => destruct (negb x) end; [discriminate|].
    apply parse_blocks_entries_ok. }
  assert (N : entries <> []) by (intros ->; discriminate).
  exists (srt_text entries).
  split; [now apply save_srt_ok, entries_printable|].
  now apply parse_srt_written.
Qed.

Lemma parse_srt_stable_witness :
  exists written,
    save_srt
      [ {| index := 1; start_time := lit "00:00:01,000";
           end_time := lit "00:00:02,000"; text := lit "a b" |} ]
    = Ok written /\
    parse_srt written
    = Ok [ {| index := 1; start_time := lit "00:00:01,000";
              end_time := lit "00:00:02,000"; text := lit "a b" |} ].
Proof.
  apply (parse_srt_stable
           (lit "1" ++ [newline] ++ lit "00:00:01,000   -->   00:00:02,000"
            ++ [newline] ++ lit " a" ++ [newline] ++ lit "b " ++ [newline]));
    vm_compute; reflexivity.
Defined.

(* ================================================================== *)
(** * Properties of [story_enhancer.py] *)
(* ================================================================== *)

Import StoryEnhancer.

Section RandomFacts.

Lemma randbelow_range (n : Z) (g : Random) :
  0 < n -> 0 <= fst (_randbelow n g) < n.
Proof.
  intros H. destruct g as [|r g]; cbn [_randbelow fst]; [lia|].
  now apply Z.mod_pos_bound.
Qed.

(** [random.choice] on a sequence that is not empty returns one of its
    elements. *)
Lemma choice_ok (A : Type) (seq : list A) (g : Random) :
  seq <> [] -> exists a g', choice seq g = Return (a, g') /\ In a seq.
Proof.
  destruct seq as [|d seq]; [congruence|]. intros _. unfold choice.
  pose proof (randbelow_range (Z.of_nat (length (d :: seq))) g) as R.
  destruct (_randbelow (Z.of_nat (length (d :: seq))) g) as [k g'].
  cbn [fst] in R. exists (nth (Z.to_nat k) (d :: seq) d), g'.
  split; [reflexivity|]. apply nth_In.
  assert (0 < Z.of_nat (length (d :: seq))) by (cbn [length]; lia). lia.
Qed.

Lemma randint_ok (a b : Z) (g : Random) :
  a <= b -> exists k g', randint a b g = Return (k, g') /\ a <= k <= b.
Proof.
  intros H. unfold randint.
  assert (W : 0 < b + 1 - a) by lia. apply Z.ltb_lt in W as W'. rewrite W'.
  pose proof (randbelow_range (b + 1 - a) g W) as R.
  destruct (_randbelow (b + 1 - a) g) as [k g']. cbn [fst] in R.
  exists (a + k), g'. split; [reflexivity|lia].
Qed.

(** [random.randint(a, b)] with [b < a] raises [ValueError]. *)
Lemma randint_empty (a b : Z) (g : Random) :
  b < a -> exists m, randint a b g = Throw (Builtin (ValueError m)).
Proof.
  intros H. unfold randint.
  assert (W : (0 <? b + 1 - a) = false) by (apply Z.ltb_ge; lia).
  rewrite W. unfold str_of_int.
  destruct (printable a); [|cbn; eauto].
  destruct (printable (b + 1)); [|cbn; eauto].
  destruct (printable (b + 1 - a)); cbn; eauto.
Qed.

End RandomFacts.

Section ListFacts.

Lemma getitem_nth (A : Type) (l : list A) (i : nat) (a : A) :
  nth_error l i = Some a -> getitem l (Z.of_nat i) = Return a.
Proof.
  intros H. unfold getitem.
  assert (L : (i < length l)%nat) by (apply nth_error_Some; congruence).
  assert (N : (Z.of_nat i <? 0) = false) by (apply Z.ltb_ge; lia).
  rewrite N.
  assert (P : (0 <=? Z.of_nat i) && (Z.of_nat i <? Z.of_nat (length l)) = true).
  { apply andb_true_iff. split; [apply Z.leb_le|apply Z.ltb_lt]; lia. }
  rewrite P, Nat2Z.id, H. reflexivity.
Qed.

Lemma replace_nth_length (A : Type) (l : list A) (i : nat) (a : A) :
  length (replace_nth l i a) = length l.
Proof.
  revert i. induction l as [|x l IH]; intros i; [reflexivity|].
  destruct i; cbn [replace_nth length]; [reflexivity|]. now rewrite IH.
Qed.

Lemma replace_nth_nil (A : Type) (l : list A) (i : nat) (a : A) :
  replace_nth l i a = [] -> l = [].
Proof. destruct l; [reflexivity|]. destruct i; discriminate. Qed.

Lemma replace_nth_Forall (A : Type) (P : A -> Prop) (l : list A) (i : nat) (a : A) :
  Forall P l -> P a -> Forall P (replace_nth l i a).
Proof.
  intros H Pa. revert i. induction H as [|x l Px H IH]; intros i; [constructor|].
  destruct i; cbn [replace_nth]; constructor; auto.
Qed.

End ListFacts.

Section StoreFacts.

Variable d : Scene.

(** The list put into the store is what its addresses refer to. *)
Lemma values_allocated (l : list Scene) :
  map (fun a => nth a l d) (seq 0 (length l)) = l.
Proof.
  induction l as [|x l IH]; [reflexivity|].
  cbn [length]. rewrite <- cons_seq, <- seq_shift. cbn [map nth].
  rewrite map_map. cbn [nth]. now rewrite IH.
Qed.

(** The addresses of an allocated list are distinct: a change at one of
    them shows at its position and nowhere else. *)
Lemma values_updated (l : list Scene) (i : nat) (changed : Scene) :
  map (update (fun a => nth a l d) i changed) (seq 0 (length l))
  = replace_nth l i changed.
Proof.
  revert i. induction l as [|x l IH]; intros i; [reflexivity|].
  cbn [length]. rewrite <- cons_seq, <- seq_shift. cbn [map].
  rewrite map_map. destruct i as [|i]; cbn [replace_nth].
  - unfold update at 1. cbn [Nat.eqb nth]. f_equal.
    rewrite <- (values_allocated l) at 2. apply map_ext. intros a.
    unfold update. reflexivity.
  - unfold update at 1. cbn [Nat.eqb nth]. f_equal.
    rewrite <- IH. apply map_ext. intros a. unfold update. cbn [Nat.eqb nth].
    reflexivity.
Qed.

Lemma nth_error_seq (n i : nat) :
  (i < n)%nat -> nth_error (seq 0 n) i = Some i.
Proof.
  intros H. rewrite (nth_error_nth' _ O) by now rewrite length_seq.
  now rewrite seq_nth.
Qed.

End StoreFacts.

Section EnhancerFacts.

Variable self : StoryEnhancer.

(** [enhance_scene] always returns: the scene itself when there is no
    element to use, else the scene with the text of one of the elements
    after its description. *)
Lemma enhance_scene_cases (scene : Scene)
    (elements : option (list EmotionalElement)) (g : Random) :
  let l := match elements with
           | None => analyze_emotional_potential self scene
           | Some l => l
           end in
  exists sc g',
    enhance_scene self scene elements g = Return (sc, g') /\
    scene_number sc = scene_number scene /\
    ((l = [] /\ sc = scene /\ g' = g) \/
     (exists element,
        In element l /\
        StoryParser.description sc
        = StoryParser.description scene ++ emotional_suffix element)).
Proof.
  intros l. unfold enhance_scene. cbv zeta. fold l.
  destruct l as [|d l'] eqn:E.
  - exists scene, g. split; [reflexivity|]. split; [reflexivity|]. left. auto.
  - destruct (choice_ok _ (d :: l') g) as (el & g' & C & I); [discriminate|].
    rewrite C. cbn [and_then].
    eexists. eexists. split; [reflexivity|]. cbn [scene_number description].
    split; [reflexivity|]. right. eauto.
Qed.

Lemma enhance_scenes_ok (scenes : list Scene) (g : Random) :
  exists l g',
    enhance_scenes self scenes g = Return (l, g') /\ length l = length scenes /\
    map scene_number l = map scene_number scenes.
Proof.
  revert g. induction scenes as [|scene rest IH]; intros g.
  - exists [], g. auto.
  - cbn [enhance_scenes].
    destruct (enhance_scene_cases scene
                (Some (analyze_emotional_potential self scene)) g)
      as (sc & g1 & E & N & _).
    rewrite E. cbn [and_then].
    destruct (IH g1) as (l & g2 & R & L & M). rewrite R. cbn [and_then].
    exists (sc :: l), g2. split; [reflexivity|]. cbn [length map].
    split; congruence.
Qed.

(** The twist [add_plot_twist] uses. *)
Lemma twist_choice (scenes : list Scene) (twist : option PlotTwist) (g : Random) :
  (twist = None -> plot_twists self <> []) ->
  exists t g',
    match twist with
    | Some t => Return (t, g)
    | None =>
        match identify_plot_twist_opportunities self scenes with
        | _ :: _ => choice (identify_plot_twist_opportunities self scenes) g
        | [] => choice (plot_twists self) g
        end
    end = Return (t, g') /\
    match twist with
    | Some t0 => t = t0
    | None => In t (plot_twists self)
    end.
Proof.
  intros H. destruct twist as [t0|]; [eauto|].
  destruct (identify_plot_twist_opportunities self scenes) as [|p ps] eqn:E.
  - destruct (choice_ok _ (plot_twists self) g (H eq_refl)) as (t & g' & C & I).
    eauto.
  - destruct (choice_ok _ (p :: ps) g) as (t & g' & C & I); [discriminate|].
    exists t, g'. split; [assumption|].
    rewrite <- E in I. unfold identify_plot_twist_opportunities in I.
    now apply filter_In in I as [I _].
Qed.

Lemma add_plot_twist_unfold (scenes : list address) (twist : option PlotTwist)
    (g : Random) (store : Store) :
  scenes <> [] ->
  add_plot_twist self scenes twist g store =
  ('(twist, g) <~
     match twist with
     | Some t => Return (t, g)
     | None =>
         match identify_plot_twist_opportunities self (values store scenes) with
         | _ :: _ =>
             choice (identify_plot_twist_opportunities self (values store scenes)) g
         | [] => choice (plot_twists self) g
         end
     end ;;
   let len := Z.of_nat (length scenes) in
   '(k, g) <~ randint 0 (len / 2 - 1) g ;;
   let twist_index := len / 2 + k in
   read <~ getitem scenes twist_index ;;
   let description :=
     StoryParser.description (store read) ++ twist_suffix twist in
   written <~ getitem scenes twist_index ;;
   let changed :=
     {| scene_number := scene_number (store written);
        description := description |} in
   Return (scenes, g, update store written changed)).
Proof. destruct scenes; [congruence|reflexivity]. Qed.

(** A list of one scene: the range of the random index is empty. *)
Lemma add_plot_twist_single (scene : address) (twist : option PlotTwist)
    (g : Random) (store : Store) :
  (twist = None -> plot_twists self <> []) ->
  exists m,
    add_plot_twist self [scene] twist g store = Throw (Builtin (ValueError m)).
Proof.
  intros H. rewrite add_plot_twist_unfold by discriminate.
  destruct (twist_choice (values store [scene]) twist g H) as (t & g1 & -> & _).
  cbn [and_then length]. cbv zeta.
  change (Z.of_nat 1 / 2 - 1) with (-1).
  destruct (randint_empty 0 (-1) g1) as [m ->]; [lia|]. cbn [and_then]. eauto.
Qed.

(** Two scenes or more: the dictionary at one place of the second half
    gets the twist, and the list is returned as it is. *)
Lemma add_plot_twist_ok (scenes : list address) (twist : option PlotTwist)
    (g : Random) (store : Store) :
  (2 <= length scenes)%nat ->
  (twist = None -> plot_twists self <> []) ->
  exists (i : nat) (t : PlotTwist) (a : address) (g' : Random),
    nth_error scenes i = Some a /\
    Z.of_nat (length scenes) / 2 <= Z.of_nat i
      <= 2 * (Z.of_nat (length scenes) / 2) - 1 /\
    match twist with
    | Some t0 => t = t0
    | None => In t (plot_twists self)
    end /\
    add_plot_twist self scenes twist g store
    = Return (scenes, g',
              update store a
                {| scene_number := scene_number (store a);
                   description :=
                     StoryParser.description (store a) ++ twist_suffix t |}).
Proof.
  intros L H. rewrite add_plot_twist_unfold by (intros ->; cbn in L; lia).
  destruct (twist_choice (values store scenes) twist g H) as (t & g1 & -> & T).
  cbn [and_then]. cbv zeta.
  set (len := Z.of_nat (length scenes)).
  assert (Hl : 2 <= len) by (unfold len; lia).
  assert (Hh : 1 <= len / 2) by (apply Z.div_le_lower_bound; lia).
  assert (Hd : 2 * (len / 2) <= len) by (apply Z.mul_div_le; lia).
  destruct (randint_ok 0 (len / 2 - 1) g1) as (k & g2 & -> & K); [lia|].
  cbn [and_then].
  set (i := Z.to_nat (len / 2 + k)).
  assert (Ei : len / 2 + k = Z.of_nat i) by (unfold i; lia).
  assert (Li : (i < length scenes)%nat) by (unfold len in *; lia).
  destruct (nth_error scenes i) as [a|] eqn:N;
    [|apply nth_error_None in N; lia].
  rewrite Ei, (getitem_nth _ scenes i a N). cbn [and_then].
  exists i, t, a, g2. repeat split; try assumption; lia.
Qed.

(** On a list of dictionaries that are objects of their own the change
    shows at one position. *)
Lemma add_plot_twist_allocated (l : list Scene) (g : Random) :
  (2 <= length l)%nat -> plot_twists self <> [] ->
  exists (i : nat) (t : PlotTwist) (old : Scene) (g' : Random) (store' : Store),
    nth_error l i = Some old /\
    In t (plot_twists self) /\
    add_plot_twist self (fst (allocate l)) None g (snd (allocate l))
    = Return (fst (allocate l), g', store') /\
    values store' (fst (allocate l))
    = replace_nth l i
        {| scene_number := scene_number old;
           description := StoryParser.description old ++ twist_suffix t |}.
Proof.
  intros L P. unfold allocate. cbn [fst snd].
  set (d := {| scene_number := 0; description := [] |}).
  destruct (add_plot_twist_ok (seq 0 (length l)) None g (fun a => nth a l d))
    as (i & t & a & g' & N & B & T & E);
    [now rewrite length_seq|auto|].
  rewrite length_seq in B.
  assert (Li : (i < length l)%nat).
  { assert (2 * (Z.of_nat (length l) / 2) <= Z.of_nat (length l))
      by (apply Z.mul_div_le; lia). lia. }
  rewrite nth_error_seq in N by assumption. injection N as <-.
  destruct (nth_error l i) as [old|] eqn:O; [|apply nth_error_None in O; lia].
  assert (Eo : nth i l d = old) by now apply nth_error_nth.
  rewrite Eo in E.
  exists i, t, old, g'. eexists. split; [exact O|]. split; [assumption|].
  split; [exact E|]. unfold values. apply values_updated.
Qed.

(** Whatever [parse_story_script] raises is a [ValueError]. *)
Lemma parse_story_script_error (s : str) (e : exn) :
  parse_story_script s = Raise e -> exists m, e = ValueError m.
Proof.
  intros H. apply parse_story_script_raises in H
    as [[-> _]|[[-> _]|(_ & k & _ & ->)]];
    unfold InvalidInput, NoScenesFound, too_many_digits; eauto.
Qed.

Lemma parse_story_script_nonempty (s : str) (scenes : list Scene) :
  parse_story_script s = Ok scenes -> scenes <> [].
Proof.
  unfold parse_story_script. destruct (strip s); [discriminate|].
  destruct (map_result scene_of_match (finditer (length s) s)) as [l|e];
    [|discriminate].
  cbn [bind]. destruct l; [discriminate|]. intros H. injection H as <-.
  discriminate.
Qed.

(** The scene numbers [parse_story_script] returns can be written. *)
Lemma parse_story_script_printable (s : str) (scenes : list Scene) :
  parse_story_script s = Ok scenes ->
  Forall (fun n => printable n = true) (map scene_number scenes).
Proof.
  unfold parse_story_script. destruct (strip s); [discriminate|].
  destruct (map_result scene_of_match (finditer (length s) s)) as [l|e] eqn:M;
    [|discriminate].
  cbn [bind]. destruct l as [|x l]; [discriminate|]. intros H. injection H as <-.
  revert M. generalize (x :: l). generalize (finditer (length s) s). clear.
  intros ms. induction ms as [|[g1 g2] ms IH]; intros l M.
  - injection M as <-. constructor.
  - cbn [map_result] in M. unfold scene_of_match at 1 in M.
    destruct (int_of_str g1) as [n|e] eqn:I; [|discriminate]. cbn [bind] in M.
    destruct (map_result scene_of_match ms) as [l'|e]; [|discriminate].
    cbn [bind] in M. injection M as <-. cbn [map scene_number].
    constructor; [now apply int_of_str_printable in I|auto].
Qed.

(** The last loop of [enhance_story] on scenes whose numbers can be
    written. *)
Lemma script_texts_ok (scenes : list Scene) :
  Forall (fun n => printable n = true) (map scene_number scenes) ->
  map_result scene_text scenes
  = Ok (map (fun scene =>
               [newline] ++ lit "Scene " ++ decimal_text (scene_number scene)
               ++ lit ":" ++ [newline] ++ StoryParser.description scene
               ++ [newline]) scenes).
Proof.
  induction scenes as [|sc scenes IH]; intros H; [reflexivity|].
  cbn [map] in H. inversion H as [|? ? P F]; subst.
  cbn [map_result map]. unfold scene_text at 1, str_of_int. rewrite P.
  cbn [bind]. rewrite IH by assumption. reflexivity.
Qed.

Lemma replace_nth_numbers (l : list Scene) (i : nat) (old : Scene) (x : str) :
  nth_error l i = Some old ->
  map scene_number
    (replace_nth l i {| scene_number := scene_number old; description := x |})
  = map scene_number l.
Proof.
  revert i. induction l as [|sc l IH]; intros i H; [reflexivity|].
  destruct i; cbn [replace_nth map nth_error] in *.
  - injection H as <-. reflexivity.
  - f_equal. auto.
Qed.

(** [enhance_story] on a story of two scenes or more: the script of the
    scenes after the first loop, one of them with the twist. *)
Lemma enhance_story_script (s : str) (g : Random) (scenes : list Scene) :
  plot_twists self <> [] ->
  parse_story_script s = Ok scenes -> (2 <= length scenes)%nat ->
  exists (l : list Scene) (i : nat) (t : PlotTwist) (old : Scene) (g' : Random),
    length l = length scenes /\
    nth_error l i = Some old /\ In t (plot_twists self) /\
    enhance_story self s g
    = Return
        (strip
           (concat
              (map (fun scene =>
                      [newline] ++ lit "Scene "
                      ++ decimal_text (scene_number scene)
                      ++ lit ":" ++ [newline] ++ StoryParser.description scene
                      ++ [newline])
                 (replace_nth l i
                    {| scene_number := scene_number old;
                       description :=
                         StoryParser.description old ++ twist_suffix t |}))),
         g').
Proof.
  intros P E L. unfold enhance_story. rewrite E. cbn [of_result and_then].
  destruct (enhance_scenes_ok scenes g) as (l & g1 & -> & Ll & M).
  cbn [and_then].
  destruct (add_plot_twist_allocated l g1) as (i & t & old & g2 & store' & N & T & A & V);
    [lia|assumption|].
  rewrite (surjective_pairing (allocate l)). rewrite A. cbn [and_then].
  rewrite V. rewrite script_texts_ok.
  - cbn [of_result and_then]. exists l, i, t, old, g2. auto.
  - rewrite (replace_nth_numbers l i old _ N), M.
    eapply parse_story_script_printable; eauto.
Qed.

(** [enhance_story] in terms of what the parser returns. *)
Lemma enhance_story_cases (s : str) (g : Random) :
  plot_twists self <> [] ->
  match parse_story_script s with
  | Raise e => enhance_story self s g = Throw (Builtin e)
  | Ok scenes =>
      if (2 <=? length scenes)%nat
      then exists out g', enhance_story self s g = Return (out, g')
      else exists m, enhance_story self s g = Throw (Builtin (ValueError m))
  end.
Proof.
  intros P.
  destruct (parse_story_script s) as [scenes|e] eqn:E;
    [|unfold enhance_story; now rewrite E].
  destruct (2 <=? length scenes)%nat eqn:C.
  - apply Nat.leb_le in C.
    destruct (enhance_story_script s g scenes P E C)
      as (l & i & t & old & g' & _ & _ & _ & ->). eauto.
  - apply Nat.leb_gt in C. unfold enhance_story. rewrite E.
    cbn [of_result and_then].
    destruct (enhance_scenes_ok scenes g) as (l & g1 & -> & L & _).
    cbn [and_then]. apply parse_story_script_nonempty in E.
    destruct l as [|sc [|sc2 l]]; cbn [length] in L.
    + destruct scenes; [congruence|discriminate].
    + unfold allocate. cbn [length seq].
      match goal with
      | |- context [add_plot_twist self _ None g1 ?store] =>
          destruct (add_plot_twist_single O None g1 store) as [m X]; [auto|]
      end.
      unfold address in X. rewrite X. cbn [and_then]. eauto.
    + lia.
Qed.

End EnhancerFacts.

(** X5: [enhance_story] returns a script exactly when the story parses to
    at least two scenes.  A story of a single scene always fails, in
    [add_plot_twist], where [random.randint(0, -1)] raises; and whatever
    [enhance_story] raises is a [ValueError]. *)
Theorem enhance_story_two_scenes (self : StoryEnhancer) (s : str) (g : Random) :
  plot_twists self <> [] ->
  ((exists out g', enhance_story self s g = Return (out, g'))
   <-> exists scenes, parse_story_script s = Ok scenes /\ (2 <= length scenes)%nat) /\
  (forall e, enhance_story self s g = Throw e -> exists m, e = Builtin (ValueError m)).
Proof.
  intros P. pose proof (enhance_story_cases self s g P) as C.
  destruct (parse_story_script s) as [scenes|e] eqn:E.
  - destruct (2 <=? length scenes)%nat eqn:L.
    + apply Nat.leb_le in L. destruct C as (out & g' & C). split.
      * split; eauto.
      * intros e H. congruence.
    + apply Nat.leb_gt in L. destruct C as (m & C). split.
      * split.
        -- intros (out & g' & H). congruence.
        -- intros (l & H & L'). injection H as <-. lia.
      * intros e H. rewrite C in H. injection H as <-. eauto.
  - split.
    + split.
      * intros (out & g' & H). congruence.
      * intros (l & H & _). discriminate.
    + intros e' H. rewrite C in H. injection H as <-.
      destruct (parse_story_script_error s e E) as [m ->]. eauto.
Qed.

Lemma enhance_story_two_scenes_witness :
  ((exists out g',
      enhance_story __init__ (lit "Scene 1: alone") [] = Return (out, g'))
   <-> exists scenes,
         parse_story_script (lit "Scene 1: alone") = Ok scenes /\
         (2 <= length scenes)%nat) /\
  (forall e, enhance_story __init__ (lit "Scene 1: alone") [] = Throw e ->
             exists m, e = Builtin (ValueError m)).
Proof.
  apply (enhance_story_two_scenes __init__ (lit "Scene 1: alone") []).
  discriminate.
Defined.

(** X6: on a list of two scenes or more [add_plot_twist] returns the list
    it was given and changes exactly one dictionary, the one at a place in
    the second half of the list that is never the last place of a list of
    odd length: the text of the twist is appended to its description, its
    number stays.  The change is made in place, so it shows at every place
    of the list that holds this dictionary, and at no other.  The twist is
    the one given, or else one of the enhancer's, which must then have at
    least one. *)
Theorem add_plot_twist_second_half
    (self : StoryEnhancer) (scenes : list address) (twist : option PlotTwist)
    (g : Random) (store : Store) :
  (2 <= length scenes)%nat ->
  (twist = None -> plot_twists self <> []) ->
  exists (i : nat) (t : PlotTwist) (a : address) (g' : Random) (store' : Store),
    add_plot_twist self scenes twist g store = Return (scenes, g', store') /\
    nth_error scenes i = Some a /\
    Z.of_nat (length scenes) / 2 <= Z.of_nat i < Z.of_nat (length scenes) /\
    (Z.odd (Z.of_nat (length scenes)) = true ->
     Z.of_nat i + 1 < Z.of_nat (length scenes)) /\
    match twist with
    | Some t0 => t = t0
    | None => In t (plot_twists self)
    end /\
    store' a
    = {| scene_number := scene_number (store a);
         description := StoryParser.description (store a) ++ twist_suffix t |} /\
    (forall b, b <> a -> store' b = store b) /\
    (forall j b, nth_error scenes j = Some b ->
       nth_error (values store' scenes) j
       = Some (if Nat.eqb b a then store' a else store b)).
Proof.
  intros L H.
  destruct (add_plot_twist_ok self scenes twist g store L H)
    as (i & t & a & g' & N & B & T & E).
  exists i, t, a, g'. eexists. split; [exact E|].
  split; [assumption|].
  set (len := Z.of_nat (length scenes)) in *.
  assert (Hd : 2 * (len / 2) <= len) by (apply Z.mul_div_le; lia).
  split; [lia|]. split.
  { intros O. apply Z.odd_spec in O as [q O].
    pose proof (Z.div_mod len 2 ltac:(lia)).
    pose proof (Z.mod_pos_bound len 2 ltac:(lia)). lia. }
  split; [assumption|]. split; [|split].
  - unfold update. now rewrite Nat.eqb_refl.
  - intros b Hb. unfold update. apply Nat.eqb_neq in Hb. now rewrite Hb.
  - intros j b Hj. unfold values. rewrite nth_error_map, Hj. cbn [option_map].
    unfold update. rewrite Nat.eqb_refl. reflexivity.
Qed.

Lemma add_plot_twist_second_half_witness :
  exists (i : nat) (t : PlotTwist) (a : address) (g' : Random) (store' : Store),
    add_plot_twist __init__ [0; 1; 1]%nat None [4; 9]
      (fun a => {| scene_number := Z.of_nat a; description := lit "x" |})
    = Return ([0; 1; 1]%nat, g', store') /\
    nth_error [0; 1; 1]%nat i = Some a /\
    Z.of_nat 3 / 2 <= Z.of_nat i < Z.of_nat 3 /\
    (Z.odd (Z.of_nat 3) = true -> Z.of_nat i + 1 < Z.of_nat 3) /\
    In t (plot_twists __init__) /\
    store' a
    = {| scene_number := Z.of_nat a;
         description := lit "x" ++ twist_suffix t |} /\
    (forall b, b <> a ->
       store' b = {| scene_number := Z.of_nat b; description := lit "x" |}) /\
    (forall j b, nth_error [0; 1; 1]%nat j = Some b ->
       nth_error (values store' [0; 1; 1]%nat) j
       = Some (if Nat.eqb b a then store' a
               else {| scene_number := Z.of_nat b; description := lit "x" |})).
Proof.
  apply (add_plot_twist_second_half __init__ [0; 1; 1]%nat None [4; 9]
           (fun a => {| scene_number := Z.of_nat a; description := lit "x" |})).
  - cbn [length]. lia.
  - discriminate.
Defined.

Section TwistFacts.

Variable A : Type.
Variable p : A -> bool.

Lemma filter_one (l : list A) :
  (1 <= length (filter p l))%nat <->
  exists j b, nth_error l j = Some b /\ p b = true.
Proof.
  induction l as [|x l IH]; cbn [filter].
  - split; [cbn; lia|]. intros (j & b & N & _). destruct j; discriminate.
  - destruct (p x) eqn:Px.
    + split; [|cbn [length]; lia]. intros _. exists O, x. auto.
    + rewrite IH. split.
      * intros (j & b & N & Pb). exists (S j), b. auto.
      * intros ([|j] & b & N & Pb); cbn [nth_error] in N.
        -- injection N as <-. congruence.
        -- eauto.
Qed.

(** At least two elements pass the test: two places hold one each. *)
Lemma filter_two (l : list A) :
  (2 <= length (filter p l))%nat <->
  exists i j a b,
    (i < j)%nat /\ nth_error l i = Some a /\ nth_error l j = Some b /\
    p a = true /\ p b = true.
Proof.
  induction l as [|x l IH]; cbn [filter].
  - split; [cbn; lia|]. intros (i & j & a & b & _ & N & _).
    destruct i; discriminate.
  - destruct (p x) eqn:Px.
    + cbn [length]. split.
      * intros H. assert (H1 : (1 <= length (filter p l))%nat) by lia.
        apply filter_one in H1 as (j & b & N & Pb).
        exists O, (S j), x, b. repeat split; auto. lia.
      * intros (i & j & a & b & L & Ni & Nj & Pa & Pb).
        destruct j as [|j]; [lia|]. cbn [nth_error] in Nj.
        assert (1 <= length (filter p l))%nat by (apply filter_one; eauto).
        lia.
    + rewrite IH. split.
      * intros (i & j & a & b & L & Ni & Nj & Pa & Pb).
        exists (S i), (S j), a, b. repeat split; auto. lia.
      * intros (i & j & a & b & L & Ni & Nj & Pa & Pb).
        destruct i as [|i]; cbn [nth_error] in Ni; [injection Ni as <-; congruence|].
        destruct j as [|j]; [lia|]. cbn [nth_error] in Nj.
        exists i, j, a, b. repeat split; auto. lia.
Qed.

End TwistFacts.

Section CountFacts.

Lemma setup_count_from (twist : PlotTwist) (scenes : list Scene) (acc : Z) :
  fold_left
    (fun setup_count scene =>
       if has_setup twist scene then setup_count + 1 else setup_count)
    scenes acc
  = acc + Z.of_nat (length (filter (has_setup twist) scenes)).
Proof.
  revert acc. induction scenes as [|sc scenes IH]; intros acc.
  - cbn. lia.
  - cbn [fold_left filter]. rewrite IH.
    destruct (has_setup twist sc); cbn [length]; lia.
Qed.

(** [setup_count] is the number of scenes that hold a setup element. *)
Lemma setup_count_filter (twist : PlotTwist) (scenes : list Scene) :
  setup_count twist scenes
  = Z.of_nat (length (filter (has_setup twist) scenes)).
Proof. unfold setup_count. now rewrite setup_count_from. Qed.

End CountFacts.

(** X7: a twist is proposed exactly when it is one of the enhancer's and
    two different scenes each hold one of its setup elements, whatever the
    case of the letters of the scenes.  Scenes are counted, not elements: a
    single scene that holds several setup elements does not count twice. *)
Theorem identify_plot_twist_two_scenes
    (self : StoryEnhancer) (scenes : list Scene) (twist : PlotTwist) :
  In twist (identify_plot_twist_opportunities self scenes) <->
  In twist (plot_twists self) /\
  exists i j scene1 scene2,
    (i < j)%nat /\
    nth_error scenes i = Some scene1 /\ nth_error scenes j = Some scene2 /\
    has_setup twist scene1 = true /\ has_setup twist scene2 = true.
Proof.
  unfold identify_plot_twist_opportunities. rewrite filter_In.
  rewrite setup_count_filter, <- filter_two.
  split; intros [I H]; (split; [assumption|]).
  - apply Z.leb_le in H. lia.
  - apply Z.leb_le. lia.
Qed.

(** X8: [enhance_scene] with its default argument never fails and keeps
    the scene number.  It returns the scene as it is, without drawing a
    random number, when no trigger word of any element occurs in the
    description put in lower case; otherwise it appends the text of an
    element one of whose trigger words occurs there. *)
Theorem enhance_scene_default
    (self : StoryEnhancer) (scene : Scene) (g : Random) :
  exists enhanced g',
    enhance_scene self scene None g = Return (enhanced, g') /\
    scene_number enhanced = scene_number scene /\
    (((forall element, In element (emotional_elements self) ->
         any_in (Emotional.trigger_words element)
           (lower (StoryParser.description scene)) = false) /\
      enhanced = scene /\ g' = g)
     \/
     (exists element,
        In element (emotional_elements self) /\
        any_in (Emotional.trigger_words element)
          (lower (StoryParser.description scene)) = true /\
        StoryParser.description enhanced
        = StoryParser.description scene ++ emotional_suffix element)).
Proof.
  destruct (enhance_scene_cases self scene None g) as (sc & g' & E & N & C).
  exists sc, g'. split; [assumption|]. split; [assumption|].
  destruct C as [(Z0 & -> & ->)|(el & I & D)].
  - left. split; [|auto]. intros el I.
    destruct (any_in (Emotional.trigger_words el)
                (lower (StoryParser.description scene))) eqn:T; [|reflexivity].
    assert (X : In el (analyze_emotional_potential self scene)).
    { unfold analyze_emotional_potential. apply filter_In. auto. }
    rewrite Z0 in X. destruct X.
  - right. exists el. unfold analyze_emotional_potential in I.
    apply filter_In in I as [I T]. auto.
Qed.

(* ================================================================== *)
(** * Rounding from below, and the order of doubles *)
(* ================================================================== *)

Import FloatOrder.

Section CanonicalFacts.

Lemma Zdigits2_le (m k : Z) : 0 <= k -> 0 <= m < 2 ^ k -> Zdigits2 m <= k.
Proof.
  intros K [L U]. destruct (Z.eq_dec m 0) as [->|N]; [cbn; lia|].
  destruct (Zdigits2_bounds m ltac:(lia)) as [B _].
  destruct (Z_le_gt_dec (Zdigits2 m) k) as [|G]; [assumption|].
  assert (2 ^ k <= 2 ^ (Zdigits2 m - 1)) by (apply Z.pow_le_mono_r; lia).
  lia.
Qed.

Lemma pow2_split (a b : Z) : 0 <= a -> 0 <= b -> 2 ^ (a + b) = 2 ^ a * 2 ^ b.
Proof. intros. now apply Z.pow_add_r. Qed.

(** After the first shift the mantissa is below [2^53], and has 53 bits
    unless the exponent is the smallest one. *)
Lemma first_shift_bounds (mx ex : Z) :
  0 <= mx -> ex <= fexp prec emax (Zdigits2 mx + ex) ->
  let e1 := fexp prec emax (Zdigits2 mx + ex) in
  let m1 := mx / 2 ^ (e1 - ex) in
  -1074 <= e1 /\ 0 <= m1 < 2 ^ 53 /\ (2 ^ 52 <= m1 \/ e1 = -1074).
Proof.
  intros H S e1 m1. unfold m1, e1 in *. clear m1 e1. rewrite fexp_eq in *.
  set (dx := Zdigits2 mx) in *.
  set (k := Z.max (dx + ex - 53) (-1074) - ex) in *.
  assert (K0 : 0 <= k) by (unfold k; lia).
  assert (K : 0 < 2 ^ k) by (apply Z.pow_pos_nonneg; lia).
  assert (P53 : 0 < 2 ^ 53) by (apply Z.pow_pos_nonneg; lia).
  split; [lia|].
  destruct (Z.eq_dec mx 0) as [E|N].
  - subst mx. rewrite Z.div_0_l by lia. split; [lia|]. right.
    unfold k, dx in *. cbn [Zdigits2] in *. lia.
  - destruct (Zdigits2_bounds mx ltac:(lia)) as [L U]. fold dx in L, U.
    assert (D1 : 1 <= dx) by (unfold dx; destruct mx; cbn [Zdigits2] in *; lia).
    destruct (Z_le_gt_dec (-1074) (dx + ex - 53)) as [C|C].
    + assert (Ek : k = dx - 53) by (unfold k; lia).
      assert (U' : 2 ^ dx = 2 ^ k * 2 ^ 53).
      { rewrite <- pow2_split by lia. f_equal. lia. }
      assert (L' : 2 ^ (dx - 1) = 2 ^ k * 2 ^ 52).
      { rewrite <- pow2_split by lia. f_equal. lia. }
      split; [split|left].
      * apply Z.div_pos; lia.
      * apply Z.div_lt_upper_bound; lia.
      * apply Z.div_le_lower_bound; lia.
    + assert (Ek : dx - 53 <= k) by (unfold k; lia).
      assert (U' : 2 ^ dx <= 2 ^ k * 2 ^ 53).
      { rewrite <- pow2_split by lia. apply Z.pow_le_mono_r; lia. }
      split; [split|right; lia].
      * apply Z.div_pos; lia.
      * apply Z.div_lt_upper_bound; lia.
Qed.

(** What [binary_round_aux] returns for a mantissa long enough, when it
    is a finite number: the mantissa kept by the first shift, or the next
    one, exactly, in canonical form. *)
Lemma binary_round_aux_shape (sx : bool) (mx ex : Z) (lx : location)
    (s : bool) (m : positive) (e : Z) :
  0 <= mx -> ex <= fexp prec emax (Zdigits2 mx + ex) ->
  binary_round_aux prec emax sx mx ex lx = S754_finite s m e ->
  let e1 := fexp prec emax (Zdigits2 mx + ex) in
  let m1 := mx / 2 ^ (e1 - ex) in
  s = sx /\ e1 <= e /\
  m1 <= Zpos m * 2 ^ (e - e1) <= m1 + 1 /\
  canonical (S754_finite s m e).
Proof.
  intros H S R e1 m1.
  destruct (first_shift_bounds mx ex H S) as (A1 & A2 & A3).
  fold e1 in A1, A2, A3. fold m1 in A2, A3.
  unfold binary_round_aux in R.
  destruct (shr_fexp_m mx ex lx H) as [M1 E1].
  replace (Z.max ex (fexp prec emax (Zdigits2 mx + ex))) with e1 in M1, E1
    by (unfold e1; lia).
  fold m1 in M1.
  destruct (shr_fexp prec emax mx ex lx) as [mrs' e'] eqn:S1.
  cbn [fst snd] in M1, E1. subst e'.
  set (m2 := round_nearest_even (shr_m mrs') (loc_of_shr_record mrs')) in *.
  pose proof (round_nearest_even_bounds (shr_m mrs') (loc_of_shr_record mrs')) as B.
  fold m2 in B. rewrite M1 in B.
  assert (P2 : 0 <= m2) by lia.
  destruct (shr_fexp_m m2 e1 loc_Exact P2) as [M2 E2].
  destruct (shr_fexp prec emax m2 e1 loc_Exact) as [mrs'' e''] eqn:S2.
  cbn [fst snd] in M2, E2.
  destruct (shr_m mrs'') as [|p|p] eqn:Em; try discriminate.
  destruct (e'' <=? emax - prec) eqn:Le; [|discriminate].
  injection R as Hs Hm He. subst s p e.
  rewrite fexp_eq in E2, M2.
  assert (P53 : 2 ^ 53 = 2 * 2 ^ 52) by reflexivity.
  assert (P52 : 0 < 2 ^ 52) by reflexivity.
  split; [reflexivity|].
  destruct (Z_lt_le_dec m2 (2 ^ 53)) as [C|C].
  - pose proof (Zdigits2_le m2 53 ltac:(lia) (conj P2 C)) as D.
    rewrite Z.max_l in E2, M2 by lia. subst e''.
    replace (e1 - e1) with 0 in * by lia.
    rewrite Z.pow_0_r, Z.div_1_r in M2. rewrite Z.pow_0_r, Z.mul_1_r.
    split; [lia|]. split; [lia|]. cbn [canonical].
    split; [lia|]. split; [|lia]. destruct A3; [left|right]; lia.
  - assert (E53 : m2 = 2 ^ 53) by lia.
    assert (D : Zdigits2 m2 = 54) by (rewrite E53; reflexivity).
    rewrite D in *.
    rewrite Z.max_r in E2, M2 by lia.
    replace (Z.max (54 + e1 - 53) (-1074)) with (e1 + 1) in E2, M2 by lia.
    subst e''.
    replace (e1 + 1 - e1) with 1 in * by lia.
    rewrite E53 in M2. change (2 ^ 53 / 2 ^ 1) with (2 ^ 52) in M2.
    rewrite M2. change (2 ^ 52 * 2 ^ 1) with (2 ^ 53).
    split; [lia|]. split; [lia|]. cbn [canonical]. rewrite M2.
    split; [lia|]. split; [left|]; lia.
Qed.

End CanonicalFacts.

Section LowerBound.
Local Open Scope R_scope.

(** Rounding to nearest never goes below the number by more than one part
    in [2^52], plus [2^-1074]: the number itself lies below
    [F2R (mx + 1) ex]. *)
Lemma round_aux_lower (sx : bool) (mx ex : Z) (lx : location) :
  (0 <= mx)%Z -> (ex <= fexp prec emax (Zdigits2 mx + ex))%Z ->
  match binary_round_aux prec emax sx mx ex lx with
  | S754_finite _ m e => F2R (mx + 1) ex <= F2R (Zpos m) e * (1 + eps) + eta
  | S754_zero _ => F2R (mx + 1) ex <= eta
  | _ => True
  end.
Proof.
  intros H S.
  destruct (first_shift_bounds mx ex H S) as (A1 & A2 & A3).
  set (e1 := fexp prec emax (Zdigits2 mx + ex)) in *.
  set (m1 := (mx / 2 ^ (e1 - ex))%Z) in *.
  assert (K : (0 < 2 ^ (e1 - ex))%Z) by (apply Z.pow_pos_nonneg; lia).
  assert (T : F2R (mx + 1) ex <= F2R m1 e1 + bpow e1).
  { rewrite <- F2R_succ. replace e1 with (ex + (e1 - ex))%Z at 1 by lia.
    rewrite <- F2R_shift by lia. apply F2R_le.
    pose proof (Z.mul_succ_div_gt mx (2 ^ (e1 - ex)) K) as G. fold m1 in G. lia. }
  pose proof eps_pos as Pe. pose proof eta_pos as Pn.
  pose proof (bpow_pos e1) as Pb.
  pose proof (F2R_nonneg m1 e1 (proj1 A2)) as P1.
  assert (U : bpow e1 <= F2R m1 e1 * eps + eta).
  { destruct A3 as [A3|A3].
    - assert (bpow e1 <= F2R m1 e1 * eps); [|lra].
      unfold F2R. pose proof bpow_52 as E52.
      assert (4503599627370496 <= IZR m1).
      { change 4503599627370496 with (IZR (2 ^ 52)). now apply IZR_le. }
      nra.
    - assert (E : bpow e1 = eta) by (rewrite A3; reflexivity).
      assert (0 <= F2R m1 e1 * eps) by (apply Rmult_le_pos; lra).
      lra. }
  pose proof (binary_round_aux_cases sx mx ex lx H) as C.
  destruct (binary_round_aux prec emax sx mx ex lx) as [s|s| |s m e] eqn:R; auto.
  - destruct C as [_ C].
    replace (Z.max ex (fexp prec emax (Zdigits2 mx + ex))) with e1 in C
      by (unfold e1; lia).
    fold m1 in C. assert (E : e1 = (-1074)%Z) by lia.
    rewrite C in T. unfold F2R in T at 2. rewrite Rmult_0_l, Rplus_0_l in T.
    rewrite E in T. exact T.
  - destruct (binary_round_aux_shape sx mx ex lx s m e H S R) as (_ & L & B & _).
    fold e1 in L, B. fold m1 in B.
    assert (V : F2R m1 e1 <= F2R (Zpos m) e).
    { replace e with (e1 + (e - e1))%Z by lia. rewrite <- F2R_shift by lia.
      apply F2R_le. lia. }
    nra.
Qed.

(** Two canonical doubles with different exponents. *)
Lemma canonical_lt (m1 m2 : positive) (e1 e2 : Z) (s1 s2 : bool) :
  canonical (S754_finite s1 m1 e1) -> canonical (S754_finite s2 m2 e2) ->
  (e1 < e2)%Z -> F2R (Zpos m1) e1 < F2R (Zpos m2) e2.
Proof.
  intros (U1 & _ & L1) (_ & N2 & _) H.
  assert (G : (2 ^ 52 <= Zpos m2)%Z) by lia.
  apply Rlt_le_trans with (F2R (2 ^ 53) e1).
  - unfold F2R. apply Rmult_lt_compat_r; [apply bpow_pos|]. now apply IZR_lt.
  - apply Rle_trans with (F2R (2 ^ 52) e2); [|now apply F2R_le].
    change (2 ^ 53)%Z with (2 ^ 52 * 2 ^ 1)%Z. rewrite F2R_shift by lia.
    unfold F2R. apply Rmult_le_compat_l; [apply IZR_le; lia|].
    apply bpow_le. lia.
Qed.

(** [x > y] on two canonical doubles that are not negative is the order of
    their values. *)
Lemma float_gt_sound (x y : float) :
  nonneg_finite x = true -> nonneg_finite y = true ->
  canonical x -> canonical y ->
  if float_gt x y then val y < val x else val x <= val y.
Proof.
  intros Nx Ny Cx Cy. unfold float_gt, SFltb.
  destruct x as [sx|sx| |sx mx ex]; try discriminate;
    destruct y as [sy|sy| |sy my ey]; try discriminate;
    cbn [nonneg_finite] in Nx, Ny;
    try (apply negb_true_iff in Nx; subst sx);
    try (apply negb_true_iff in Ny; subst sy);
    cbn [SFcompare val cond_Zopp].
  - lra.
  - apply F2R_nonneg. lia.
  - unfold F2R. apply Rmult_lt_0_compat; [apply IZR_lt; lia|apply bpow_pos].
  - destruct (Z.compare_spec ey ex) as [E|L|G].
    + subst ey. change (Pos.compare_cont Eq my mx) with (Pos.compare my mx).
      destruct (Pos.compare_spec my mx) as [E|L|G].
      * subst. lra.
      * unfold F2R. apply Rmult_lt_compat_r; [apply bpow_pos|].
        apply IZR_lt. lia.
      * apply F2R_le. lia.
    + now apply (canonical_lt my mx ey ex false false).
    + apply Rlt_le. now apply (canonical_lt mx my ex ey false false).
Qed.

End LowerBound.

Section QuotientFacts.
Local Open Scope R_scope.

Lemma fexp_mono (a b : Z) :
  (a <= b)%Z -> (fexp prec emax a <= fexp prec emax b)%Z.
Proof. intros H. rewrite !fexp_eq. lia. Qed.

(** The quotient mantissa of two positive mantissas: not negative, long
    enough for the rounding shift, and the truncation of the exact
    quotient. *)
Lemma div_core_spec (m1 m2 : positive) (e1 e2 : Z) :
  let '(q, e', l) := SFdiv_core_binary prec emax (Zpos m1) e1 (Zpos m2) e2 in
  (0 <= q)%Z /\ (e' <= fexp prec emax (Zdigits2 q + e'))%Z /\
  F2R q e' * F2R (Zpos m2) e2 <= F2R (Zpos m1) e1
    < F2R (q + 1) e' * F2R (Zpos m2) e2.
Proof.
  unfold SFdiv_core_binary.
  set (d1 := Zdigits2 (Zpos m1)). set (d2 := Zdigits2 (Zpos m2)).
  set (D := (d1 + e1 - (d2 + e2))%Z).
  set (e' := Z.min (fexp prec emax D) (e1 - e2)).
  set (s := (e1 - e2 - e')%Z).
  assert (S0 : (0 <= s)%Z) by (unfold s, e'; lia).
  set (m' := match s with
             | 0%Z => Zpos m1
             | Zpos _ => Z.shiftl (Zpos m1) s
             | Zneg _ => 0%Z
             end).
  assert (M : m' = (Zpos m1 * 2 ^ s)%Z).
  { unfold m'. destruct s as [|p|p] eqn:Es; [lia| |lia].
    now rewrite Z.shiftl_mul_pow2 by lia. }
  assert (K : (0 < 2 ^ s)%Z) by (apply Z.pow_pos_nonneg; lia).
  pose proof (div_eucl_fst m' (Zpos m2)) as F.
  destruct (Z.div_eucl m' (Zpos m2)) as [q r]. cbn [fst] in F. subst q.
  set (q := (m' / Zpos m2)%Z).
  pose proof (Z.mul_div_le m' (Zpos m2) ltac:(lia)) as Lq. fold q in Lq.
  pose proof (Z.mul_succ_div_gt m' (Zpos m2) ltac:(lia)) as Uq. fold q in Uq.
  assert (Q0 : (0 <= q)%Z) by (apply Z.div_pos; lia).
  destruct (Zdigits2_bounds (Zpos m1) ltac:(lia)) as [L1 U1]. fold d1 in L1, U1.
  destruct (Zdigits2_bounds (Zpos m2) ltac:(lia)) as [L2 U2]. fold d2 in L2, U2.
  assert (D1 : (1 <= d1)%Z) by (unfold d1; cbn [Zdigits2]; lia).
  assert (D2 : (1 <= d2)%Z) by (unfold d2; cbn [Zdigits2]; lia).
  split; [assumption|]. split.
  - destruct (Z.eq_dec q 0) as [Z0|NZ].
    + rewrite Z0. cbn [Zdigits2]. rewrite Z.add_0_l, fexp_eq.
      assert (X : (d1 + s <= d2)%Z).
      { destruct (Z_le_gt_dec (d1 + s) d2) as [|G]; [assumption|]. exfalso.
        assert (2 ^ d2 <= 2 ^ (d1 - 1 + s))%Z by (apply Z.pow_le_mono_r; lia).
        rewrite pow2_split in H by lia. nia. }
      unfold s in X. unfold e' in *. rewrite fexp_eq in *. unfold D in *. lia.
    + assert (Q1 : (1 <= q)%Z) by lia.
      assert (X : (d1 + s - d2 <= Zdigits2 q)%Z).
      { destruct (Z_le_gt_dec (d1 + s - d2) 1) as [C|C].
        - pose proof (Zdigits2_ge q 0 ltac:(lia) ltac:(simpl; lia)). lia.
        - set (t := (d1 - 1 + s - d2)%Z).
          assert (T0 : (0 <= t)%Z) by (unfold t; lia).
          assert (E : (2 ^ (d1 - 1 + s) = 2 ^ t * 2 ^ d2)%Z).
          { rewrite <- pow2_split by lia. f_equal. unfold t. lia. }
          assert (E' : (2 ^ (d1 - 1 + s) = 2 ^ (d1 - 1) * 2 ^ s)%Z)
            by (apply pow2_split; lia).
          assert (P2 : (0 < 2 ^ d2)%Z) by (apply Z.pow_pos_nonneg; lia).
          assert (Pt : (0 < 2 ^ t)%Z) by (apply Z.pow_pos_nonneg; lia).
          assert (G : (2 ^ t <= q)%Z) by nia.
          pose proof (Zdigits2_ge q t T0 G). unfold t in *. lia. }
      apply Z.le_trans with (fexp prec emax D); [unfold e'; lia|].
      apply fexp_mono. unfold D, s in *. lia.
  - assert (E1 : bpow e1 = IZR (2 ^ s) * (bpow e' * bpow e2)).
    { rewrite <- bpow_IZR, <- !bpow_add by lia. f_equal. unfold s. lia. }
    pose proof (bpow_pos e') as Pe'. pose proof (bpow_pos e2) as Pe2.
    assert (Pb : 0 < bpow e' * bpow e2) by (apply Rmult_lt_0_compat; assumption).
    unfold F2R. rewrite E1. split.
    + replace (IZR q * bpow e' * (IZR (Zpos m2) * bpow e2))
        with (IZR (Zpos m2 * q) * (bpow e' * bpow e2))
        by (rewrite mult_IZR; ring).
      replace (IZR (Zpos m1) * (IZR (2 ^ s) * (bpow e' * bpow e2)))
        with (IZR (Zpos m1 * 2 ^ s) * (bpow e' * bpow e2))
        by (rewrite mult_IZR; ring).
      apply Rmult_le_compat_r; [lra|]. apply IZR_le. lia.
    + replace (IZR (q + 1) * bpow e' * (IZR (Zpos m2) * bpow e2))
        with (IZR (Zpos m2 * Z.succ q) * (bpow e' * bpow e2))
        by (rewrite mult_IZR; unfold Z.succ; ring).
      replace (IZR (Zpos m1) * (IZR (2 ^ s) * (bpow e' * bpow e2)))
        with (IZR (Zpos m1 * 2 ^ s) * (bpow e' * bpow e2))
        by (rewrite mult_IZR; ring).
      apply Rmult_lt_compat_r; [lra|]. apply IZR_lt. lia.
Qed.

(** [x / y] on two positive doubles: never a NaN; when finite, canonical
    and within one part in [2^52], plus [2^-1074], of the exact quotient on
    both sides. *)
Lemma SFdiv_pos (mx my : positive) (ex ey : Z) :
  let X := F2R (Zpos mx) ex in
  let Y := F2R (Zpos my) ey in
  match SFdiv prec emax (S754_finite false mx ex) (S754_finite false my ey) with
  | S754_nan => False
  | S754_infinity _ => True
  | S754_zero _ => X <= eta * Y
  | S754_finite s m e =>
      s = false /\ canonical (S754_finite s m e) /\
      F2R (Zpos m) e * Y <= X * (1 + eps) + eta * Y /\
      X <= (F2R (Zpos m) e * (1 + eps) + eta) * Y
  end.
Proof.
  intros X Y. cbn [SFdiv xorb].
  pose proof (div_core_spec mx my ex ey) as C.
  destruct (SFdiv_core_binary prec emax (Zpos mx) ex (Zpos my) ey) as [[q e'] l].
  destruct C as (Q & S & V1 & V2). fold X in V1, V2. fold Y in V1, V2.
  assert (PY : 0 < Y).
  { unfold Y, F2R. apply Rmult_lt_0_compat; [apply IZR_lt; lia|apply bpow_pos]. }
  pose proof eps_pos as Pe. pose proof eta_pos as Pn.
  pose proof (F2R_nonneg q e' Q) as Pq.
  pose proof (binary_round_aux_cases false q e' l Q) as K.
  pose proof (round_aux_lower false q e' l Q S) as Lo.
  destruct (binary_round_aux prec emax false q e' l) as [s|s| |s m e] eqn:R; auto.
  - apply Rle_trans with (F2R (q + 1) e' * Y); [lra|].
    apply Rmult_le_compat_r; lra.
  - subst s.
    destruct (binary_round_aux_shape false q e' l false m e Q S R) as (_ & _ & _ & Cn).
    pose proof (round_aux_relative false q e' l false m e Q (or_intror S) R) as Up.
    pose proof (F2R_nonneg (Zpos m) e ltac:(lia)) as Pm.
    split; [reflexivity|]. split; [assumption|]. split.
    + apply Rle_trans with ((F2R q e' * (1 + eps) + eta) * Y).
      * apply Rmult_le_compat_r; lra.
      * assert (F2R q e' * Y * (1 + eps) <= X * (1 + eps))
          by (apply Rmult_le_compat_r; lra).
        lra.
    + apply Rle_trans with (F2R (q + 1) e' * Y); [lra|].
      apply Rmult_le_compat_r; lra.
Qed.

(** [a / b] on two positive integers. *)
Lemma int_truediv_bounds (a b : Z) (f : float) :
  (0 < a)%Z -> (0 < b)%Z -> int_truediv a b = Ok f ->
  nonneg_finite f = true /\ canonical f /\
  val f * IZR b <= IZR a * (1 + eps) + eta * IZR b /\
  IZR a <= (val f * (1 + eps) + eta) * IZR b.
Proof.
  intros A B. unfold int_truediv.
  destruct (Z.eqb_spec b 0) as [|_]; [lia|].
  destruct a as [|a|a]; try lia. destruct b as [|b|b]; try lia.
  cbn [exact_int].
  pose proof (SFdiv_pos a b 0 0) as C. cbv zeta in C. rewrite !F2R_0 in C.
  pose proof eps_pos as Pe. pose proof eta_pos as Pn.
  assert (Pb : 0 < IZR (Zpos b)) by (apply IZR_lt; lia).
  destruct (SFdiv prec emax (S754_finite false a 0) (S754_finite false b 0))
    as [s|s| |s m e]; cbn [finite_or_overflow]; try discriminate;
    intros H; injection H as <-.
  - cbn [nonneg_finite canonical val].
    assert (Pa : 0 < IZR (Zpos a)) by (apply IZR_lt; lia).
    split; [reflexivity|]. split; [exact I|]. split; nra.
  - contradiction.
  - destruct C as (-> & Cn & U & L). cbn [nonneg_finite negb val cond_Zopp].
    split; [reflexivity|]. split; [exact Cn|]. split; assumption.
Qed.

(** [int(x / y)] for a double [x] that is not negative and a positive
    double [y]. *)
Lemma int_of_quotient (x y r : float) (z : Z) :
  nonneg_finite x = true -> nonneg_finite y = true ->
  float_truediv x y = Ok r -> int_of_float r = Ok z ->
  (0 <= z)%Z /\ 0 < val y /\
  IZR z * val y <= val x * (1 + eps) + eta * val y.
Proof.
  intros Nx Ny D H.
  destruct (int_of_float_div x y r z Nx Ny D H) as [Pz Nr].
  destruct (int_of_float_integer_part r z Nr H) as [_ [I _]].
  split; [assumption|].
  unfold float_truediv in D.
  destruct y as [sy|sy| |sy my ey]; try discriminate. cbn [is_zero] in D.
  injection D as <-. cbn [nonneg_finite] in Ny. apply negb_true_iff in Ny. subst sy.
  cbn [val cond_Zopp].
  assert (PY : 0 < F2R (Zpos my) ey).
  { unfold F2R. apply Rmult_lt_0_compat; [apply IZR_lt; lia|apply bpow_pos]. }
  pose proof eps_pos as Pe. pose proof eta_pos as Pn.
  split; [assumption|].
  destruct x as [sx|sx| |sx mx ex]; try discriminate.
  - cbn [SFdiv val] in *. nra.
  - cbn [nonneg_finite] in Nx. apply negb_true_iff in Nx. subst sx.
    cbn [val cond_Zopp].
    pose proof (SFdiv_pos mx my ex ey) as C. cbv zeta in C.
    destruct (SFdiv prec emax (S754_finite false mx ex) (S754_finite false my ey))
      as [s|s| |s m e]; try discriminate.
    + cbn [val] in I.
      assert (0 <= F2R (Zpos mx) ex) by (apply F2R_nonneg; lia).
      assert (IZR z * F2R (Zpos my) ey <= 0 * F2R (Zpos my) ey)
        by (apply Rmult_le_compat_r; lra).
      nra.
    + destruct C as (-> & _ & U & _). cbn [val cond_Zopp] in I.
      assert (IZR z * F2R (Zpos my) ey <= F2R (Zpos m) e * F2R (Zpos my) ey)
        by (apply Rmult_le_compat_r; lra).
      lra.
Qed.

End QuotientFacts.

Section StageArithmetic.
Local Open Scope R_scope.

Lemma eps_value : eps = / 4503599627370496.
Proof.
  pose proof bpow_52. apply Rmult_eq_reg_r with 4503599627370496; lra.
Qed.

(** [2^-1074] times two numbers below [2^51] is at most [2^-60]. *)
Lemma eta_small (x y : R) :
  0 <= x <= 2251799813685248 -> 0 <= y <= 2251799813685248 ->
  eta * x * y <= / 1152921504606846976.
Proof.
  intros Hx Hy. pose proof eta_pos as Pn.
  assert (E : eta * 2251799813685248 * 2251799813685248 <= / 1152921504606846976).
  { change 2251799813685248 with (IZR (2 ^ 51)).
    rewrite <- !bpow_IZR by lia. unfold eta. rewrite <- !bpow_add.
    apply Rle_trans with (bpow (-60)); [apply bpow_le; lia|].
    right. apply Rmult_eq_reg_r with 1152921504606846976; [|lra].
    change 1152921504606846976 with (IZR (2 ^ 60)) at 1.
    rewrite <- bpow_IZR, <- bpow_add by lia.
    change (bpow (-60 + 60)) with 1. lra. }
  apply Rle_trans with (eta * 2251799813685248 * 2251799813685248); [|assumption].
  apply Rmult_le_compat; try lra.
  - apply Rmult_le_pos; lra.
  - apply Rmult_le_compat_l; lra.
Qed.

(** The product branch of a stage: [int(h * t)] for [t < w / h], all
    rounded, stays within [w]. *)
Lemma stage_mul_arith (W H vc vt vh z : R) :
  0 <= W <= 1125899906842623 -> 1 <= H <= 1125899906842623 ->
  0 <= vt < vc -> vc * H <= W * (1 + eps) + eta * H ->
  0 <= vh <= H * (1 + eps) ->
  z <= vh * vt * (1 + eps) + eta ->
  z < W + 1.
Proof.
  intros HW HH Hvt Hc Hvh Hz.
  pose proof eps_pos as Pe. pose proof eta_pos as Pn.
  pose proof eps_value as Ee.
  pose proof (eta_small H 1 ltac:(lra) ltac:(lra)) as C1.
  pose proof (eta_small 1 1 ltac:(lra) ltac:(lra)) as C2.
  set (c := / 1152921504606846976) in *.
  assert (S1 : vh * vt <= H * (1 + eps) * vc)
    by (apply Rmult_le_compat; lra).
  assert (S2 : H * (1 + eps) * vc <= (1 + eps) * (W * (1 + eps) + eta * H)).
  { replace (H * (1 + eps) * vc) with ((1 + eps) * (vc * H)) by ring.
    apply Rmult_le_compat_l; lra. }
  assert (S3 : z <= (1 + eps) * (W * (1 + eps) + c) * (1 + eps) + c).
  { apply Rle_trans with (vh * vt * (1 + eps) + eta); [assumption|].
    apply Rplus_le_compat; [|lra].
    apply Rmult_le_compat_r; [lra|].
    apply Rle_trans with (1 := S1). apply Rle_trans with (1 := S2).
    apply Rmult_le_compat_l; lra. }
  assert (S4 : (1 + eps) * (W * (1 + eps) + c) * (1 + eps) + c
               <= (1 + eps) * (1125899906842623 * (1 + eps) + c) * (1 + eps) + c
                  - (1125899906842623 - W)).
  { assert (0 <= (1125899906842623 - W) * ((1 + eps) * (1 + eps) * (1 + eps) - 1)).
    { apply Rmult_le_pos; [lra|]. nra. }
    nra. }
  apply Rle_lt_trans with (1 := S3). apply Rle_lt_trans with (1 := S4).
  unfold c. rewrite Ee. lra.
Qed.

(** The quotient branch of a stage: [int(w / t)] for [t >= w / h], all
    rounded, stays within [h]. *)
Lemma stage_div_arith (W H vc vt vw z : R) :
  1 <= W <= 1125899906842623 -> 1 <= H <= 1125899906842623 ->
  0 < vt -> vc <= vt -> W <= (vc * (1 + eps) + eta) * H ->
  0 <= vw <= W * (1 + eps) ->
  z * vt <= vw * (1 + eps) + eta * vt ->
  z < H + 1.
Proof.
  intros HW HH Pt Hvt Hc Hvw Hz.
  pose proof eps_pos as Pe. pose proof eta_pos as Pn.
  pose proof eps_value as Ee.
  pose proof (eta_small H (H + 1) ltac:(lra) ltac:(lra)) as C1.
  pose proof (eta_small 1 1 ltac:(lra) ltac:(lra)) as C2.
  set (c := / 1152921504606846976) in *.
  assert (Cv : c <= / 100) by (unfold c; lra).
  assert (Cn : eta <= c) by lra.
  set (a := 1 + eps) in *.
  assert (Pa : 1 < a) by (unfold a; lra).
  destruct (Rlt_le_dec z (H + 1)) as [|G]; [assumption|exfalso].
  assert (S1 : W - eta * H <= vt * a * H).
  { assert (W <= (vt * a + eta) * H).
    { apply Rle_trans with (1 := Hc). apply Rmult_le_compat_r; [lra|].
      apply Rplus_le_compat_r. apply Rmult_le_compat_r; lra. }
    lra. }
  assert (S2 : (H + 1 - eta) * vt <= W * a * a).
  { assert ((H + 1) * vt <= z * vt) by (apply Rmult_le_compat_r; lra).
    assert (vw * a <= W * a * a) by (apply Rmult_le_compat_r; lra).
    lra. }
  assert (S3 : (H + 1 - eta) * (W - eta * H) <= W * a * a * (a * H)).
  { apply Rle_trans with ((H + 1 - eta) * (vt * a * H)).
    - apply Rmult_le_compat_l; lra.
    - replace ((H + 1 - eta) * (vt * a * H)) with ((H + 1 - eta) * vt * (a * H))
        by ring.
      apply Rmult_le_compat_r; [|assumption].
      apply Rmult_le_pos; lra. }
  set (k := a * a * a - 1).
  assert (Kv : 1125899906842623 * k <= 76 / 100).
  { unfold k, a. rewrite Ee. lra. }
  assert (K0 : 0 <= k) by (unfold k; nra).
  assert (S4 : W * (H * k) <= W * (76 / 100)).
  { apply Rmult_le_compat_l; [lra|].
    apply Rle_trans with (1125899906842623 * k); [|assumption].
    apply Rmult_le_compat_r; lra. }
  assert (S5 : eta * H * (H + 1 - eta) <= c).
  { apply Rle_trans with (eta * H * (H + 1)); [|assumption].
    apply Rmult_le_compat_l; [|lra]. apply Rmult_le_pos; lra. }
  assert (S6 : eta * W <= c * W).
  { apply Rmult_le_compat_r; lra. }
  assert (X : (H + 1 - eta) * (W - eta * H)
              = W * H + W - eta * W - eta * H * (H + 1 - eta)) by ring.
  assert (Y : W * a * a * (a * H) = W * H + W * (H * k)) by (unfold k; ring).
  rewrite X, Y in S3.
  nra.
Qed.

(** The scaling to [max_dimension]: [int(x * s)] for a scale [s] that is at
    most one, all rounded, stays within [x]. *)
Lemma scale_le_arith (x d M vs vx z : R) :
  0 <= x <= 1125899906842623 -> 1 <= d -> M <= d ->
  0 <= vs -> vs * d <= M * (1 + eps) + eta * d ->
  0 <= vx <= x * (1 + eps) ->
  z <= vx * vs * (1 + eps) + eta ->
  z < x + 1.
Proof.
  intros Hx Hd HM Ps Hs Hvx Hz.
  pose proof eps_pos as Pe. pose proof eta_pos as Pn.
  pose proof eps_value as Ee.
  pose proof (eta_small 1 1 ltac:(lra) ltac:(lra)) as C2.
  set (c := / 1152921504606846976) in *.
  assert (S1 : vs <= 1 + eps + eta).
  { apply Rmult_le_reg_r with d; [lra|].
    apply Rle_trans with (1 := Hs).
    assert (M * (1 + eps) <= d * (1 + eps)) by (apply Rmult_le_compat_r; lra).
    lra. }
  assert (S2 : vx * vs <= x * (1 + eps) * (1 + eps + c))
    by (apply Rmult_le_compat; lra).
  assert (S3 : z <= x * (1 + eps) * (1 + eps + c) * (1 + eps) + c).
  { apply Rle_trans with (1 := Hz). apply Rplus_le_compat; [|lra].
    apply Rmult_le_compat_r; lra. }
  assert (S4 : x * (1 + eps) * (1 + eps + c) * (1 + eps) + c
               <= 1125899906842623 * (1 + eps) * (1 + eps + c) * (1 + eps) + c
                  - (1125899906842623 - x)).
  { assert (0 <= (1125899906842623 - x)
                 * ((1 + eps) * (1 + eps + c) * (1 + eps) - 1)).
    { apply Rmult_le_pos; [lra|]. unfold c. nra. }
    nra. }
  apply Rle_lt_trans with (1 := S3). apply Rle_lt_trans with (1 := S4).
  unfold c. rewrite Ee. lra.
Qed.

End StageArithmetic.

(* ================================================================== *)
(** * The stages of [_calculate_dimensions] never enlarge *)
(* ================================================================== *)

Import Resizer.

Section StageBounds.
Local Open Scope Z_scope.

Lemma IZR_below (n : Z) :
  0 <= n < 2 ^ 50 -> (0 <= IZR n <= 1125899906842623)%R.
Proof.
  intros [L U]. change (2 ^ 50) with 1125899906842624 in U.
  split; [apply (IZR_le 0); lia|].
  change 1125899906842623%R with (IZR 1125899906842623). apply IZR_le. lia.
Qed.

Lemma IZR_above (n : Z) : 0 < n -> (1 <= IZR n)%R.
Proof. intros H. apply (IZR_le 1). lia. Qed.

Lemma below_succ (z n : Z) : (IZR z < IZR n + 1)%R -> z <= n.
Proof.
  intros H. rewrite <- plus_IZR in H. apply lt_IZR in H. lia.
Qed.

(** [0 / h] is zero, and zero is not greater than a double that is not
    negative. *)
Lemma int_truediv_zero (h : Z) (f : float) :
  0 < h -> int_truediv 0 h = Ok f -> f = S754_zero false.
Proof.
  intros H. unfold int_truediv.
  destruct (Z.eqb_spec h 0) as [|_]; [lia|].
  destruct h as [|p|p]; try lia. cbn. congruence.
Qed.

Lemma float_gt_zero (y : float) :
  nonneg_finite y = true -> float_gt (S754_zero false) y = false.
Proof.
  destruct y as [s|s| |s m e]; try discriminate; [reflexivity|].
  cbn [nonneg_finite]. intros H. apply negb_true_iff in H. now subst s.
Qed.

(** Lines 66-74 and 85-91: neither dimension grows. *)
Lemma aspect_stage_le (cw ch tw th : Z) (ca ta : float) (w h : Z) :
  0 <= cw < 2 ^ 50 -> 0 < ch < 2 ^ 50 -> 0 < tw -> 0 < th ->
  int_truediv tw th = Ok ta -> int_truediv cw ch = Ok ca ->
  (if float_gt ca ta then
     let new_height := ch in
     p <- int_mul_float new_height ta ;;
     new_width <- int_of_float p ;;
     Ok (new_width, new_height)
   else
     let new_width := cw in
     q <- int_div_float new_width ta ;;
     new_height <- int_of_float q ;;
     Ok (new_width, new_height)) = Ok (w, h) ->
  0 <= w <= cw /\ 0 <= h <= ch.
Proof.
  intros Hw Hh Htw Hth Ta Ca H.
  destruct (int_truediv_bounds tw th ta Htw Hth Ta) as (Nt & Ct & _ & _).
  pose proof (val_nonneg ta Nt) as Pt.
  pose proof eps_pos as Pe. pose proof eta_pos as Pn.
  destruct (Z.eq_dec cw 0) as [Z0|NZ].
  - subst cw. apply int_truediv_zero in Ca; [|lia]. subst ca.
    rewrite float_gt_zero in H by assumption. cbv zeta in H.
    apply bind_ok in H as (q & Q & H). apply bind_ok in H as (z & Z & H).
    injection H as <- <-.
    unfold int_div_float in Q. apply bind_ok in Q as (fx & Fx & Q).
    destruct (float_of_int_nonneg 0 fx ltac:(lia) Fx) as (Nx & Vx & _).
    destruct (int_of_quotient fx ta q z Nx Nt Q Z) as (Pz & Py & V).
    assert (IZR z < IZR 0 + 1)%R.
    { assert (E : (eta < 1)%R).
      { pose proof (eta_small 1 1 ltac:(lra) ltac:(lra)). lra. }
      assert (E0 : val fx = 0%R) by lra. rewrite E0 in V.
      assert (IZR z * val ta <= eta * val ta)%R by lra.
      assert (IZR z <= eta)%R by (apply Rmult_le_reg_r with (val ta); lra).
      lra. }
    apply below_succ in H. lia.
  - assert (Hw' : 0 < cw) by lia.
    destruct (int_truediv_bounds cw ch ca Hw' (proj1 Hh) Ca) as (Nc & Cc & U & L).
    pose proof (float_gt_sound ca ta Nc Nt Cc Ct) as G.
    pose proof (IZR_below cw Hw) as Bw.
    pose proof (IZR_below ch ltac:(lia)) as Bh.
    pose proof (IZR_above cw Hw') as Aw.
    pose proof (IZR_above ch (proj1 Hh)) as Ah.
    destruct (float_gt ca ta); cbv zeta in H.
    + apply bind_ok in H as (p & P & H). apply bind_ok in H as (z & Z & H).
      injection H as <- <-.
      unfold int_mul_float in P. apply bind_ok in P as (fx & Fx & P).
      injection P as <-.
      destruct (float_of_int_nonneg ch fx ltac:(lia) Fx) as (Nx & Vx & _).
      destruct (int_of_float_mul fx ta z Nx Nt Z) as [Pz Vz].
      assert (IZR z < IZR cw + 1)%R.
      { apply (stage_mul_arith (IZR cw) (IZR ch) (val ca) (val ta) (val fx));
          try assumption; lra. }
      apply below_succ in H. lia.
    + apply bind_ok in H as (q & Q & H). apply bind_ok in H as (z & Z & H).
      injection H as <- <-.
      unfold int_div_float in Q. apply bind_ok in Q as (fx & Fx & Q).
      destruct (float_of_int_nonneg cw fx ltac:(lia) Fx) as (Nx & Vx & _).
      destruct (int_of_quotient fx ta q z Nx Nt Q Z) as (Pz & Py & V).
      assert (IZR z < IZR ch + 1)%R.
      { apply (stage_div_arith (IZR cw) (IZR ch) (val ca) (val ta) (val fx));
          try assumption; lra. }
      apply below_succ in H. lia.
Qed.

(** Lines 76-83: the scaling never enlarges, and yields no negative
    dimension. *)
Lemma limit_stage_le (w h M w' h' : Z) :
  0 <= w < 2 ^ 50 -> 0 <= h < 2 ^ 50 -> 0 < M ->
  (if (w >? M) || (h >? M) then
     scale <- (if w >? h then int_truediv M w else int_truediv M h) ;;
     p <- int_mul_float w scale ;;
     new_width' <- int_of_float p ;;
     q <- int_mul_float h scale ;;
     new_height' <- int_of_float q ;;
     Ok (new_width', new_height')
   else Ok (w, h)) = Ok (w', h') ->
  0 <= w' <= w /\ 0 <= h' <= h.
Proof.
  intros Hw Hh HM H.
  destruct ((w >? M) || (h >? M)) eqn:C.
  - apply bind_ok in H as (sc & S & H).
    apply bind_ok in H as (p & P & H). apply bind_ok in H as (zw & Zw & H).
    apply bind_ok in H as (q & Q & H). apply bind_ok in H as (zh & Zh & H).
    injection H as <- <-.
    apply orb_true_iff in C. rewrite !Z.gtb_ltb, !Z.ltb_lt in C.
    set (d := if w >? h then w else h).
    assert (Sd : int_truediv M d = Ok sc) by (unfold d; destruct (w >? h); exact S).
    assert (D : M < d).
    { unfold d. destruct (w >? h) eqn:G; rewrite Z.gtb_ltb in G;
        [apply Z.ltb_lt in G|apply Z.ltb_ge in G]; lia. }
    destruct (int_truediv_bounds M d sc HM ltac:(lia) Sd) as (Ns & _ & U & _).
    pose proof (val_nonneg sc Ns) as Ps.
    assert (Ad : (1 <= IZR d)%R) by (apply IZR_above; lia).
    assert (Md : (IZR M <= IZR d)%R) by (apply IZR_le; lia).
    assert (step : forall x p z,
               0 <= x < 2 ^ 50 -> int_mul_float x sc = Ok p ->
               int_of_float p = Ok z -> 0 <= z <= x).
    { intros x p0 z Hx P0 Z0. unfold int_mul_float in P0.
      apply bind_ok in P0 as (fx & Fx & P0). injection P0 as <-.
      destruct (float_of_int_nonneg x fx ltac:(lia) Fx) as (Nx & Vx & _).
      destruct (int_of_float_mul fx sc z Nx Ns Z0) as [Pz Vz].
      pose proof (IZR_below x Hx) as Bx.
      assert (IZR z < IZR x + 1)%R.
      { apply (scale_le_arith (IZR x) (IZR d) (IZR M) (val sc) (val fx));
          try assumption; lra. }
      apply below_succ in H. lia. }
    split; [apply (step w p zw)|apply (step h q zh)]; assumption.
  - injection H as <- <-. lia.
Qed.

(** The same without a bound on the dimensions: none becomes negative. *)
Lemma limit_stage_nonneg (w h M w' h' : Z) :
  0 <= w -> 0 <= h -> 0 < M ->
  (if (w >? M) || (h >? M) then
     scale <- (if w >? h then int_truediv M w else int_truediv M h) ;;
     p <- int_mul_float w scale ;;
     new_width' <- int_of_float p ;;
     q <- int_mul_float h scale ;;
     new_height' <- int_of_float q ;;
     Ok (new_width', new_height')
   else Ok (w, h)) = Ok (w', h') ->
  0 <= w' /\ 0 <= h'.
Proof.
  intros Hw Hh HM H.
  destruct ((w >? M) || (h >? M)) eqn:C.
  - apply bind_ok in H as (sc & S & H).
    apply bind_ok in H as (p & P & H). apply bind_ok in H as (zw & Zw & H).
    apply bind_ok in H as (q & Q & H). apply bind_ok in H as (zh & Zh & H).
    injection H as <- <-.
    apply orb_true_iff in C. rewrite !Z.gtb_ltb, !Z.ltb_lt in C.
    set (d := if w >? h then w else h).
    assert (Sd : int_truediv M d = Ok sc) by (unfold d; destruct (w >? h); exact S).
    assert (D : M < d).
    { unfold d. destruct (w >? h) eqn:G; rewrite Z.gtb_ltb in G;
        [apply Z.ltb_lt in G|apply Z.ltb_ge in G]; lia. }
    pose proof (int_truediv_nonneg M d sc HM ltac:(lia) Sd) as Ns.
    destruct (width_from_product w sc p zw Hw Ns P Zw).
    destruct (width_from_product h sc q zh Hh Ns Q Zh).
    lia.
  - injection H as <- <-. lia.
Qed.

(** The three stages of a call that returns. *)
Lemma calculate_dimensions_stages
    (cw ch tw th M sw sh kw kh : Z) :
  _calculate_dimensions cw ch (tw, th) M = Ok ((sw, sh), (kw, kh)) ->
  exists (ta ca r : float) (w h : Z),
    int_truediv tw th = Ok ta /\ int_truediv cw ch = Ok ca /\
    (if float_gt ca ta then
       let new_height := ch in
       p <- int_mul_float new_height ta ;;
       new_width <- int_of_float p ;;
       Ok (new_width, new_height)
     else
       let new_width := cw in
       q <- int_div_float new_width ta ;;
       new_height <- int_of_float q ;;
       Ok (new_width, new_height)) = Ok (w, h) /\
    (if (w >? M) || (h >? M) then
       scale <- (if w >? h then int_truediv M w else int_truediv M h) ;;
       p <- int_mul_float w scale ;;
       new_width' <- int_of_float p ;;
       q <- int_mul_float h scale ;;
       new_height' <- int_of_float q ;;
       Ok (new_width', new_height')
     else Ok (w, h)) = Ok (sw, sh) /\
    int_truediv sw sh = Ok r /\
    (if float_gt r ta then
       let target_height := sh in
       p <- int_mul_float target_height ta ;;
       target_width <- int_of_float p ;;
       Ok (target_width, target_height)
     else
       let target_width := sw in
       q <- int_div_float target_width ta ;;
       target_height <- int_of_float q ;;
       Ok (target_width, target_height)) = Ok (kw, kh).
Proof.
  intros H. unfold _calculate_dimensions in H.
  apply bind_ok in H as (ta & Ta & H). apply bind_ok in H as (ca & Ca & H).
  apply bind_ok in H as ([w h] & S1 & H). apply bind_ok in H as ([w' h'] & S2 & H).
  apply bind_ok in H as (r & R & H). apply bind_ok in H as ([cvw cvh] & S3 & H).
  injection H as <- <- <- <-.
  exists ta, ca, r, w, h. auto 10.
Qed.

(** A call with positive arguments and [max_dimension < 2^50] that
    returns: the scaled dimensions are within [max_dimension], the height
    is positive, and the background is within the scaled picture. *)
Lemma background_within_scaled
    (cw ch tw th M sw sh kw kh : Z) :
  0 < cw -> 0 < ch -> 0 < tw -> 0 < th -> 0 < M < 2 ^ 50 ->
  _calculate_dimensions cw ch (tw, th) M = Ok ((sw, sh), (kw, kh)) ->
  0 <= sw <= M /\ 0 < sh <= M /\ 0 <= kw <= sw /\ 0 <= kh <= sh.
Proof.
  intros Hw Hh Htw Hth HM H.
  apply calculate_dimensions_stages in H
    as (ta & ca & r & w & h & Ta & Ca & S1 & S2 & R & S3).
  pose proof (int_truediv_nonneg tw th ta Htw Hth Ta) as Nt.
  destruct (aspect_stage cw ch ca ta w h Hw Hh Nt S1) as [Pw Ph].
  destruct (limit_stage w h M sw sh Pw Ph HM S2) as [Uw Uh].
  destruct (limit_stage_nonneg w h M sw sh Pw Ph (proj1 HM) S2) as [Lw Lh].
  assert (Nh : sh <> 0).
  { intros ->. unfold int_truediv in R. cbn in R. discriminate. }
  destruct (aspect_stage_le sw sh tw th r ta kw kh) as [Kw Kh];
    try assumption; lia.
Qed.

End StageBounds.

(** X9: for positive source dimensions and target ratio and a positive
    [max_dimension] below [2^50], whenever [_calculate_dimensions] returns,
    the background it asks for is never larger than the scaled picture, in
    width or in height: there is nothing to pad.  The dimensions are not
    negative, and the scaled height is positive. *)
Theorem calculate_dimensions_no_padding
    (cw ch tw th M sw sh kw kh : Z) :
  0 < cw -> 0 < ch -> 0 < tw -> 0 < th -> 0 < M -> M < 2 ^ 50 ->
  _calculate_dimensions cw ch (tw, th) M = Ok ((sw, sh), (kw, kh)) ->
  0 <= kw <= sw /\ 0 <= kh <= sh /\ 0 < sh.
Proof.
  intros Hw Hh Htw Hth HM H50 H.
  destruct (background_within_scaled cw ch tw th M sw sh kw kh
              Hw Hh Htw Hth (conj HM H50) H) as (_ & S & Kw & Kh).
  split; [assumption|]. split; [assumption|lia].
Qed.

Lemma calculate_dimensions_no_padding_witness :
  0 <= 99 <= 100 /\ 0 <= 56 <= 56 /\ 0 < 56.
Proof.
  apply (calculate_dimensions_no_padding 100 100 16 9 1920 100 56 99 56);
    try lia. vm_compute. reflexivity.
Defined.

(** X10: for positive source dimensions below [2^50] and a positive
    [max_dimension], whenever [_calculate_dimensions] returns, the scaled
    picture is never larger than the source, in width or in height: the
    calculation never enlarges. *)
Theorem calculate_dimensions_never_enlarges
    (cw ch tw th M sw sh : Z) (background : Z * Z) :
  0 < cw -> cw < 2 ^ 50 -> 0 < ch -> ch < 2 ^ 50 ->
  0 < tw -> 0 < th -> 0 < M ->
  _calculate_dimensions cw ch (tw, th) M = Ok ((sw, sh), background) ->
  0 <= sw <= cw /\ 0 <= sh <= ch.
Proof.
  intros Hw Uw Hh Uh Htw Hth HM H. destruct background as [kw kh].
  apply calculate_dimensions_stages in H
    as (ta & ca & r & w & h & Ta & Ca & S1 & S2 & R & S3).
  destruct (aspect_stage_le cw ch tw th ca ta w h) as [Bw Bh];
    try assumption; try lia.
  destruct (limit_stage_le w h M sw sh) as [Lw Lh]; try assumption; lia.
Qed.

Lemma calculate_dimensions_never_enlarges_witness :
  0 <= 1920 <= 4000 /\ 0 <= 1080 <= 3000.
Proof.
  apply (calculate_dimensions_never_enlarges 4000 3000 16 9 1920 1920 1080
           (1920, 1080)); try lia.
  vm_compute. reflexivity.
Defined.

(** X11: [resize_image] and [resize_video] never pad.  For a source of
    positive size and a positive [max_dimension] below [2^50], whenever
    they get as far as placing the picture, the background is no larger
    than the resized picture and neither coordinate of the position is
    positive, whatever the aspect ratio. *)
Theorem resize_never_pads
    (cw ch M : Z) (base_name aspect_ratio : str)
    (output_filename : option str) (layout : Layout) :
  0 < cw -> 0 < ch -> 0 < M -> M < 2 ^ 50 ->
  resize_image (cw, ch) base_name aspect_ratio M output_filename = Ok layout \/
  resize_video (cw, ch) base_name aspect_ratio M output_filename = Ok layout ->
  fst (background_size layout) <= fst (resized_size layout) /\
  snd (background_size layout) <= snd (resized_size layout) /\
  fst (position layout) <= 0 /\ snd (position layout) <= 0.
Proof.
  intros Hw Hh HM H50 H.
  assert (R : forall ratio, dict_get COMMON_RATIOS aspect_ratio = Some ratio ->
                            0 < fst ratio /\ 0 < snd ratio).
  { intros ratio. cbn [COMMON_RATIOS dict_get].
    repeat match goal with
    | |- context [if ?b then _ else _] => destruct b
    end; intros E; inversion E; subst; cbn; lia. }
  assert (K : forall ratio sw sh kw kh,
             dict_get COMMON_RATIOS aspect_ratio = Some ratio ->
             _calculate_dimensions cw ch ratio M = Ok ((sw, sh), (kw, kh)) ->
             kw <= sw /\ kh <= sh /\ (kw - sw) / 2 <= 0 /\ (kh - sh) / 2 <= 0).
  { intros [tw th] sw sh kw kh E C. destruct (R _ E) as [Htw Hth].
    cbn [fst snd] in Htw, Hth.
    destruct (background_within_scaled cw ch tw th M sw sh kw kh
                Hw Hh Htw Hth (conj HM H50) C) as (_ & _ & Kw & Kh).
    split; [lia|]. split; [lia|].
    split; apply Z.div_le_upper_bound; lia. }
  destruct H as [H|H]; [unfold resize_image in H|unfold resize_video in H];
    destruct (dict_get COMMON_RATIOS aspect_ratio) as [ratio|] eqn:E;
    try discriminate;
    apply bind_ok in H as ([[sw sh] [kw kh]] & C & H);
    injection H as <-; cbn [background_size resized_size position fst snd];
    exact (K ratio sw sh kw kh eq_refl C).
Qed.

Lemma resize_never_pads_witness :
  400 <= 400 /\ 225 <= 225 /\ 0 <= 0 /\ 0 <= 0.
Proof.
  apply (resize_never_pads 400 300 1920 (lit "photo") (lit "16:9") None
           {| background_size := (400, 225); resized_size := (400, 225);
              position := (0, 0); output_name := lit "photo_16x9.jpg" |});
    try lia.
  left. vm_compute. reflexivity.
Defined.

(** X18: the limit on the size holds wherever doubles are exact enough.
    For positive source dimensions and target ratio and a positive
    [max_dimension], whenever [_calculate_dimensions] returns, the scaled
    width and height are both at most [max_dimension], provided that
    [max_dimension] is below [2^50] or that both source dimensions are. *)
Theorem calculate_dimensions_within_max
    (cw ch tw th M sw sh : Z) (background : Z * Z) :
  0 < cw -> 0 < ch -> 0 < tw -> 0 < th -> 0 < M ->
  M < 2 ^ 50 \/ (cw < 2 ^ 50 /\ ch < 2 ^ 50) ->
  _calculate_dimensions cw ch (tw, th) M = Ok ((sw, sh), background) ->
  sw <= M /\ sh <= M.
Proof.
  intros Hw Hh Htw Hth HM B H. destruct background as [kw kh].
  apply calculate_dimensions_stages in H
    as (ta & ca & r & w & h & Ta & Ca & S1 & S2 & R & S3).
  destruct (Z_lt_ge_dec M (2 ^ 50)) as [Lt|Ge].
  - pose proof (int_truediv_nonneg tw th ta Htw Hth Ta) as Nt.
    destruct (aspect_stage cw ch ca ta w h Hw Hh Nt S1) as [Pw Ph].
    exact (limit_stage w h M sw sh Pw Ph (conj HM Lt) S2).
  - destruct B as [B|[Bw Bh]]; [lia|].
    destruct (aspect_stage_le cw ch tw th ca ta w h) as [Bw' Bh'];
      try assumption; try lia.
    destruct (limit_stage_le w h M sw sh) as [Lw Lh]; try assumption; lia.
Qed.

Lemma calculate_dimensions_within_max_witness : 1920 <= 1920 /\ 1080 <= 1920.
Proof.
  apply (calculate_dimensions_within_max 4000 3000 16 9 1920 1920 1080 (1920, 1080));
    try lia. vm_compute. reflexivity.
Defined.

(* ================================================================== *)
(** * Properties of the translation of subtitles *)
(* ================================================================== *)

Import Translation.

Section TranslationFacts.

Variable service : Service.
Variables source_lang target_lang : str.

(** A reply that carries a translation. *)
Lemma read_reply_cases (result : reply) :
  match read_reply result with
  | Return translated => exists error, result = Object (Some translated) error
  | Throw e =>
      match result with
      | Object _ _ => exists m, e = RuntimeError m
      | Array _ | Text _ | Scalar _ =>
          (exists m, e = TypeError m) \/ (exists m, e = AttributeError m)
      end
  end.
Proof.
  destruct result as [[t|] err|l|x|n]; cbn [read_reply]; eauto.
  - destruct (negb (existsb (Resizer.str_eqb translatedText_key) l)); eauto.
  - destruct (negb (contains translatedText_key x)); eauto.
Qed.

Lemma translate_text_cases (text : str) (requests : nat) :
  match translate_text service text source_lang target_lang requests with
  | Return (translated, requests') =>
      match strip text with
      | [] => translated = text /\ requests' = requests
      | _ :: _ => requests' = S requests
      end
  | Throw e =>
      strip text <> [] /\
      match service requests with
      | Raises (RequestException _) => exists m, e = RuntimeError m
      | Raises e' => e = e'
      | Replies (Object _ _) => exists m, e = RuntimeError m
      | Replies _ =>
          (exists m, e = TypeError m) \/ (exists m, e = AttributeError m)
      end
  end.
Proof.
  unfold translate_text. destruct (strip text) as [|c r]; [auto|].
  destruct (service requests) as [e|result].
  - destruct e; (split; [discriminate|eauto]).
  - pose proof (read_reply_cases result) as C.
    destruct (read_reply result) as [t|e]; cbn [and_then]; [reflexivity|].
    split; [discriminate|]. destruct result; exact C.
Qed.

End TranslationFacts.

(** X12: when [translate_subtitles] returns, it returns one entry for each
    entry given, in the same order, with the same index and the same two
    time stamps; an entry whose text is blank comes back unchanged; and the
    service has been asked once for every entry whose text is not blank. *)
Theorem translate_subtitles_keeps_timing
    (service : Service) (entries translated : list SubtitleEntry)
    (source_lang target_lang : str) (requests requests' : nat) :
  translate_subtitles service entries source_lang target_lang requests
  = Return (translated, requests') ->
  Forall2 translation_of entries translated /\
  requests' = (requests + length (filter (fun e => negb (blank e)) entries))%nat.
Proof.
  revert translated requests requests'.
  induction entries as [|entry rest IH]; intros translated requests requests' H.
  - injection H as <- <-. split; [constructor|cbn; lia].
  - cbn [translate_subtitles] in H.
    pose proof (translate_text_cases service source_lang target_lang
                  (text entry) requests) as C.
    destruct (translate_text service (text entry) source_lang target_lang requests)
      as [[t n1]|e]; [|discriminate].
    cbn [and_then] in H.
    destruct (translate_subtitles service rest source_lang target_lang n1)
      as [[out n2]|e] eqn:R; [|discriminate].
    cbn [and_then] in H. injection H as <- <-.
    destruct (IH out n1 n2 R) as [F N]. cbn [filter]. unfold blank at 1.
    destruct (strip (text entry)) as [|c r] eqn:E.
    + destruct C as [-> ->]. split; [|exact N].
      constructor; [|assumption]. unfold translation_of. cbn. auto.
    + subst n1. cbn [negb length]. split; [|lia].
      constructor; [|assumption]. unfold translation_of, blank. cbn.
      rewrite E. repeat split. discriminate.
Qed.

Lemma translate_subtitles_keeps_timing_witness :
  Forall2 translation_of
    [ {| index := 1; start_time := lit "00:00:01,000";
         end_time := lit "00:00:04,000"; text := lit "Hello" |} ]
    [ {| index := 1; start_time := lit "00:00:01,000";
         end_time := lit "00:00:04,000"; text := lit "Hola" |} ] /\
  1%nat = (0 + length (filter (fun e => negb (blank e))
                         [ {| index := 1; start_time := lit "00:00:01,000";
                              end_time := lit "00:00:04,000";
                              text := lit "Hello" |} ]))%nat.
Proof.
  apply (translate_subtitles_keeps_timing
           (fun _ => Replies (Object (Some (lit "Hola")) None)) _ _
           (lit "en") (lit "es")).
  reflexivity.
Defined.

(** X13: [translate_subtitles] raises nothing when the service answers
    every request with a JSON object that holds a translation, entries
    whose text is blank needing no answer.  When it raises, the exception
    comes from one exchange: a [RequestException] of the exchange and an
    object without translation give a [RuntimeError]; any other exception
    of the exchange is passed on as it is; and a reply that is no object,
    an array, a string, a number, a boolean or null, gives a [TypeError]
    or an [AttributeError], not a [RuntimeError]. *)
Theorem translate_subtitles_failure
    (service : Service) (entries : list SubtitleEntry)
    (source_lang target_lang : str) (requests : nat) :
  (forall e,
     translate_subtitles service entries source_lang target_lang requests
     = Throw e ->
     exists n, (requests <= n)%nat /\
       match service n with
       | Raises (RequestException _) => exists m, e = RuntimeError m
       | Raises e' => e = e'
       | Replies (Object None _) => exists m, e = RuntimeError m
       | Replies (Object (Some _) _) => False
       | Replies _ =>
           (exists m, e = TypeError m) \/ (exists m, e = AttributeError m)
       end) /\
  ((forall n, (requests <= n)%nat ->
              exists t error, service n = Replies (Object (Some t) error)) ->
   exists translated requests',
     translate_subtitles service entries source_lang target_lang requests
     = Return (translated, requests')).
Proof.
  revert requests. induction entries as [|entry rest IH]; intros requests.
  - split; [discriminate|]. intros _. cbn. eauto.
  - cbn [translate_subtitles].
    pose proof (translate_text_cases service source_lang target_lang
                  (text entry) requests) as C.
    split.
    + intros e H.
      destruct (translate_text service (text entry) source_lang target_lang requests)
        as [[t n1]|e1] eqn:T.
      * cbn [and_then] in H. destruct (IH n1) as [E _].
        destruct (translate_subtitles service rest source_lang target_lang n1)
          as [[out n2]|e2]; [discriminate|].
        cbn [and_then] in H. injection H as <-.
        destruct (E e2 eq_refl) as (n & L & X). exists n. split; [|exact X].
        destruct (strip (text entry)); [destruct C as [_ ->]|subst n1]; lia.
      * cbn [and_then] in H. injection H as <-. destruct C as [_ C].
        exists requests. split; [lia|].
        destruct (service requests) as [e'|[[t|] err|l|x|k]] eqn:S; try exact C.
        exfalso. unfold translate_text in T. rewrite S in T.
        destruct (strip (text entry)); discriminate.
    + intros S.
      assert (T : exists t n1,
                 translate_text service (text entry) source_lang target_lang requests
                 = Return (t, n1) /\ (requests <= n1)%nat).
      { unfold translate_text. destruct (strip (text entry)); [eauto|].
        destruct (S requests (Nat.le_refl _)) as (t & err & ->).
        cbn [read_reply and_then]. eauto. }
      destruct T as (t & n1 & -> & L). cbn [and_then].
      destruct (IH n1) as [_ K].
      destruct K as (out & n2 & ->).
      { intros n Hn. apply S. lia. }
      cbn [and_then]. eauto.
Qed.

Lemma translate_subtitles_failure_witness :
  (exists n, (0 <= n)%nat /\
     ((exists m,
         TypeError (lit "argument of type 'NoneType' is not iterable")
         = TypeError m) \/
      (exists m,
         TypeError (lit "argument of type 'NoneType' is not iterable")
         = AttributeError m))) /\
  exists translated requests',
    translate_subtitles (fun _ => Replies (Object (Some (lit "Hola")) None))
      [ {| index := 1; start_time := lit "00:00:01,000";
           end_time := lit "00:00:04,000"; text := lit "Hello" |} ]
      (lit "en") (lit "es") 0
    = Return (translated, requests').
Proof.
  split.
  - apply (proj1 (translate_subtitles_failure
                    (fun _ => Replies (Scalar (lit "NoneType")))
                    [ {| index := 1; start_time := lit "00:00:01,000";
                         end_time := lit "00:00:04,000"; text := lit "Hello" |} ]
                    (lit "en") (lit "es") 0)
             (TypeError (lit "argument of type 'NoneType' is not iterable"))).
    reflexivity.
  - apply (proj2 (translate_subtitles_failure
                    (fun _ => Replies (Object (Some (lit "Hola")) None))
                    [ {| index := 1; start_time := lit "00:00:01,000";
                         end_time := lit "00:00:04,000"; text := lit "Hello" |} ]
                    (lit "en") (lit "es") 0)).
    intros n _. eauto.
Defined.

(* ================================================================== *)
(** * Properties of the voice-over and of [process_subtitles] *)
(* ================================================================== *)

Import TextToSpeech Translator.

Section VoiceoverFacts.

Lemma endswith_app (x s : str) : endswith (x ++ s) s = true.
Proof.
  unfold endswith. now rewrite rev_app_distr, strip_prefix_app.
Qed.

(** The text handed to the speech generator is blank only when there is
    no entry. *)
Lemma spoken_not_blank (entries : list SubtitleEntry) :
  entries <> [] -> strip (concat (map spoken entries)) <> [].
Proof.
  destruct entries as [|e rest]; [congruence|]. intros _ H.
  apply strip_nil_iff in H. cbn [map concat] in H. unfold spoken in H.
  rewrite !forallb_app in H.
  apply andb_true_iff in H as [H _]. apply andb_true_iff in H as [_ H].
  apply andb_true_iff in H as [_ H]. apply andb_true_iff in H as [H _].
  discriminate.
Qed.

(** The name [generate_speech] gives to the file. *)
Lemma generate_speech_defaults (env : Environment) (generator : TTSGenerator)
    (full_text voice_id : str) (filename : option str) (files : list File) :
  strip full_text <> [] ->
  let path :=
    joinpath env (TextToSpeech.output_dir generator)
      match filename with
      | None => lit "tts_" ++ strftime env ++ lit ".mp3"
      | Some name =>
          if endswith name (lit ".mp3") then name else name ++ lit ".mp3"
      end in
  generate_speech env generator full_text voice_id filename one one files
  = match synthesize env (api_key generator) full_text voice_id one one with
    | Return audio_content => (Return path, files ++ [(path, audio_content)])
    | Throw e => (Throw e, files)
    end.
Proof.
  intros N path. unfold generate_speech.
  destruct (strip full_text) as [|c r]; [congruence|].
  change (float_le half one && float_le one two) with true.
  change (float_le tenth one && float_le one five) with true.
  cbn [negb]. unfold io_bind, io_lift, write_file, io_return.
  destruct (synthesize env (api_key generator) full_text voice_id one one);
    [|reflexivity].
  unfold path. destruct filename as [name|]; [|reflexivity].
  destruct (endswith name (lit ".mp3")); reflexivity.
Qed.

(** [save_srt] on entries whose indices can all be written. *)
Lemma save_srt_named (env : Environment) (self : SubtitleTranslator)
    (entries : list SubtitleEntry) (name : str) (files : list File) :
  forallb (fun e => printable (index e)) entries = true ->
  let path := joinpath env (output_dir self) (name ++ lit ".srt") in
  save_srt env self entries (name ++ lit ".srt") files
  = (Return path, files ++ [(path, srt_text entries)]).
Proof.
  intros P path. unfold save_srt. rewrite endswith_app.
  rewrite save_srt_loop_ok by assumption. reflexivity.
Qed.

(** Whatever [save_srt] does, it returns the path or raises. *)
Lemma save_srt_cases (env : Environment) (self : SubtitleTranslator)
    (entries : list SubtitleEntry) (name : str) (files : list File) :
  exists files',
    (exists path, save_srt env self entries name files = (Return path, files'))
    \/ (exists e, save_srt env self entries name files = (Throw e, files')).
Proof.
  unfold save_srt. destruct (save_srt_loop entries) as [written [[]|e]];
    unfold io_bind, write_file, io_lift, io_return; cbn [of_result]; eauto.
Qed.

Lemma translate_subtitles_index (service : Service)
    (entries translated : list SubtitleEntry) (source_lang target_lang : str)
    (requests requests' : nat) :
  translate_subtitles service entries source_lang target_lang requests
  = Return (translated, requests') ->
  map index translated = map index entries.
Proof.
  revert translated requests requests'.
  induction entries as [|entry rest IH]; intros translated requests requests' H.
  - injection H as <- <-. reflexivity.
  - cbn [translate_subtitles] in H.
    destruct (translate_text service (text entry) source_lang target_lang requests)
      as [[t n1]|e]; [|discriminate].
    cbn [and_then] in H.
    destruct (translate_subtitles service rest source_lang target_lang n1)
      as [[out n2]|e] eqn:R; [|discriminate].
    cbn [and_then] in H. injection H as <- <-. cbn [map index].
    f_equal. eauto.
Qed.

Lemma printable_by_index (a b : list SubtitleEntry) :
  map index a = map index b ->
  forallb (fun e => printable (index e)) b = true ->
  forallb (fun e => printable (index e)) a = true.
Proof.
  revert b. induction a as [|x a IH]; intros [|y b] M H; try discriminate;
    [reflexivity|].
  cbn [map] in M. injection M as E M. cbn [forallb] in *.
  apply andb_true_iff in H as [H1 H2]. rewrite E, H1. cbn [andb]. eauto.
Qed.

(** The translation of what [parse_srt] returned can be written. *)
Lemma translated_printable (service : Service) (srt_content : str)
    (entries translated : list SubtitleEntry) (source_lang target_lang : str)
    (requests requests' : nat) :
  parse_srt srt_content = Ok entries ->
  translate_subtitles service entries source_lang target_lang requests
  = Return (translated, requests') ->
  forallb (fun e => printable (index e)) translated = true.
Proof.
  intros P T. apply translate_subtitles_index in T.
  apply (printable_by_index _ _ T). apply entries_printable.
  revert P. unfold parse_srt. destruct (strip srt_content); [discriminate|].
  match goal with |- context [negb ?x] => destruct (negb x) end; [discriminate|].
  apply parse_blocks_entries_ok.
Qed.

End VoiceoverFacts.





(* ================================================================== *)
(** * What comes out of [generate_speech] and of [enhance_story] *)
(* ================================================================== *)



Section ContainsFacts.

Lemma contains_intro (sub x y : str) : contains sub (x ++ sub ++ y) = true.
Proof.
  induction x as [|c x IH]; cbn [app].
  - destruct (sub ++ y) eqn:E; cbn [contains]; rewrite <- ?E;
      now rewrite strip_prefix_app.
  - cbn [contains]. destruct (strip_prefix sub (c :: x ++ sub ++ y)); auto.
Qed.

Lemma lstrip_keeps (x r y : str) (c : ascii) :
  is_space c = false ->
  exists x', lstrip (x ++ (c :: r) ++ y) = x' ++ (c :: r) ++ y.
Proof.
  intros H. unfold lstrip. induction x as [|d x IH]; cbn [app drop_while].
  - rewrite H. now exists [].
  - destruct (is_space d); [assumption|]. now exists (d :: x).
Qed.

Lemma rstrip_keeps (x r y : str) (c : ascii) :
  is_space c = false ->
  exists y', rstrip (x ++ (r ++ [c]) ++ y) = x ++ (r ++ [c]) ++ y'.
Proof.
  intros H. unfold rstrip.
  rewrite !rev_app_distr. cbn [rev app].
  destruct (lstrip_keeps (rev y) (rev r) (rev x) c H) as [y' E].
  unfold lstrip in E. rewrite <- app_assoc. cbn [app] in *. rewrite E.
  exists (rev y'). rewrite !rev_app_distr. cbn [rev app].
  rewrite !rev_app_distr, !rev_involutive. cbn [rev app].
  now rewrite <- !app_assoc.
Qed.

(** A piece of text that neither starts nor ends with white space is
    still there after [strip]. *)
Lemma contains_strip (c d : ascii) (m x y : str) :
  is_space c = false -> is_space d = false ->
  contains (c :: m ++ [d]) (strip (x ++ (c :: m ++ [d]) ++ y)) = true.
Proof.
  intros Hc Hd. unfold strip.
  destruct (lstrip_keeps x (m ++ [d]) y c Hc) as [x' ->].
  change (c :: m ++ [d]) with ((c :: m) ++ [d]).
  destruct (rstrip_keeps x' (c :: m) y d Hd) as [y' ->].
  apply contains_intro.
Qed.

Lemma replace_nth_In (A : Type) (l : list A) (i : nat) (a old : A) :
  nth_error l i = Some old -> In a (replace_nth l i a).
Proof.
  revert i. induction l as [|x l IH]; intros i H.
  - destruct i; discriminate.
  - destruct i; cbn [replace_nth]; [now left|]. right. now apply (IH i).
Qed.

End ContainsFacts.

Section ScriptFacts.

(** The script of a list of scenes one of which has the twist. *)
Lemma twist_in_script (l1 l2 : list Scene) (old : Scene) (t : PlotTwist) :
  contains (lit "[Plot Twist")
    (strip
       (concat
          (map (fun scene =>
                  [newline] ++ lit "Scene " ++ decimal_text (scene_number scene)
                  ++ lit ":" ++ [newline] ++ StoryParser.description scene
                  ++ [newline])
             (l1 ++ {| scene_number := scene_number old;
                       description :=
                         StoryParser.description old ++ twist_suffix t |}
                 :: l2)))) = true.
Proof.
  set (shown := fun scene =>
                  [newline] ++ lit "Scene " ++ decimal_text (scene_number scene)
                  ++ lit ":" ++ [newline] ++ StoryParser.description scene
                  ++ [newline]).
  rewrite map_app, concat_app. cbn [map concat].
  unfold shown at 2, twist_suffix. cbn [scene_number description].
  set (pre := concat (map shown l1) ++ [newline] ++ lit "Scene "
              ++ decimal_text (scene_number old)
              ++ lit ":" ++ [newline] ++ StoryParser.description old
              ++ [newline; newline]).
  set (post := lit " - " ++ Twist.name t ++ lit "]:" ++ [newline]
               ++ Twist.description t ++ [newline]
               ++ lit "This revelation changes everything that came before..."
               ++ [newline] ++ concat (map shown l2)).
  match goal with
  | |- contains _ (strip ?x) = true =>
      replace x with (pre ++ lit "[Plot Twist" ++ post)
  end.
  + apply (contains_strip "["%char "t"%char (lit "Plot Twis") pre post);
      reflexivity.
  + unfold pre, post. cbn [lit list_ascii_of_string].
    rewrite <- !app_assoc. cbn [app]. reflexivity.
Qed.

End ScriptFacts.

(** X17: whenever [enhance_story] returns, the script it returns contains
    the marker of a plot twist, [[Plot Twist]: every enhanced story gets
    one. *)
Theorem enhance_story_has_twist
    (self : StoryEnhancer) (s : str) (g g' : Random) (enhanced_script : str) :
  plot_twists self <> [] ->
  enhance_story self s g = Return (enhanced_script, g') ->
  contains (lit "[Plot Twist") enhanced_script = true.
Proof.
  intros P H. pose proof (enhance_story_cases self s g P) as C.
  destruct (parse_story_script s) as [scenes|e] eqn:E; [|congruence].
  destruct (2 <=? length scenes)%nat eqn:L;
    [|destruct C as [m C]; congruence].
  apply Nat.leb_le in L. clear C.
  destruct (enhance_story_script self s g scenes P E L)
    as (l & i & t & old & g2 & _ & N & _ & X).
  assert (I : In {| scene_number := scene_number old;
                    description :=
                      StoryParser.description old ++ twist_suffix t |}
                (replace_nth l i
                   {| scene_number := scene_number old;
                      description :=
                        StoryParser.description old ++ twist_suffix t |}))
    by (eapply replace_nth_In; eauto).
  apply in_split in I as (l1 & l2 & I). rewrite I in X.
  rewrite X in H. injection H as <- <-. apply twist_in_script.
Qed.

Lemma enhance_story_has_twist_witness :
  contains (lit "[Plot Twist")
    (lit "Scene 1:" ++ [newline] ++ lit "a" ++ [newline; newline]
     ++ lit "Scene 2:" ++ [newline] ++ lit "b" ++ twist_suffix
          {| Twist.name := lit "hidden_connection";
             Twist.description :=
               lit "Characters discover they're connected in unexpected ways";
             Twist.impact := 8;
             Twist.setup_elements :=
               [lit "mysterious past"; lit "coincidence"; lit "shared history"];
             Twist.payoff_elements :=
               [lit "revelation"; lit "emotional reunion";
                lit "changed relationship"] |}) = true.
Proof.
  apply (enhance_story_has_twist __init__
           (lit "Scene 1: a" ++ [newline] ++ lit "Scene 2: b") [] []).
  - discriminate.
  - vm_compute. reflexivity.
Defined.
